(** * Logentries asynchronous socket appender: a shallow embedding

    This development embeds [logentries/utils.py] (the [SocketAppender]
    background thread, the [LogentriesHandler] producer API and the
    [LogentriesFormatter] JSON formatter) and proves
    properties of the delivery pipeline: framing of queued messages,
    the reconnect backoff, the send/retry loop, lazy start of the thread and
    the handling of an invalid token.

    Conventions.
    - A Python 3 text string is a list of Unicode code points ([str]); the
      reserved separator U+2028 does not fit an 8-bit character, which is why
      [String.string] is only used to write ASCII literals.
    - A byte string is a list of 8-bit integers ([bytes]).
    - Delays are rationals.  The source computes them in binary floating
      point, starting from the literal [0.1]; the only operations on the base
      delay are a doubling and a comparison with [10], both of which are exact
      in binary floating point.
    - Calls into the operating system ([socket.socket], [connect], [send],
      [time.sleep], [Queue.get]) take their outcome from an oracle: a list of
      answers, consumed one per call.  When the list is exhausted the call has
      not returned yet and the thread is [Blocked].
    - The [while True] loops take fuel, one unit per iteration.  Every
      iteration consumes an answer of the oracle, so fuel beyond the length
      of the oracle is never used up; the statements about what the thread
      achieves hold for every amount of fuel above an explicit bound.
    - The code is read with the semantics of Python 3.
    - A dictionary is the list of its items in the order of insertion; a
      float held by a log record is an IEEE 754 double.  Calls into
      libraries ([repr], [json.dumps], [formatException],
      [record.getMessage]) are parameters of the formatter's model. *)

From Stdlib Require Import List ZArith QArith Qminmax Bool Lia String Ascii
  PrimFloat.
Import ListNotations.
Set Implicit Arguments.

(* ================================================================== *)
(** * Part I: the model *)

(* ------------------------------------------------------------------ *)
(** ** Text and bytes *)

Definition str := list Z.

Definition bytes := list Z.

(** An ASCII literal as a text string. *)
Fixpoint lit (s : string) : str :=
  match s with
  | EmptyString => []
  | String a r => Z.of_N (N_of_ascii a) :: lit r
  end.

Definition NL : Z := 10.

(** [s.replace(old, new)] for a one-character [old]. *)
Definition replace (s : str) (old : Z) (new : str) : str :=
  flat_map (fun c => if Z.eqb c old then new else [c]) s.

(** [s.rstrip(c)] for a one-character set [c]. *)
Fixpoint rstrip (s : str) (c : Z) : str :=
  match s with
  | [] => []
  | x :: r =>
      match rstrip r c with
      | [] => if Z.eqb x c then [] else [x]
      | r' => x :: r'
      end
  end.

(** [s.encode('utf-8')]: [None] stands for [UnicodeEncodeError], raised on a
    surrogate code point (and on a value that is no code point at all). *)
Definition encode_char (c : Z) : option bytes :=
  if (c <? 0)%Z then None
  else if (c <? 0x80)%Z then Some [c]
  else if (c <? 0x800)%Z then
    Some [Z.lor 0xC0 (Z.shiftr c 6); Z.lor 0x80 (Z.land c 0x3F)]
  else if (c <? 0x10000)%Z then
    if ((0xD800 <=? c) && (c <=? 0xDFFF))%Z then None
    else Some [Z.lor 0xE0 (Z.shiftr c 12);
               Z.lor 0x80 (Z.land (Z.shiftr c 6) 0x3F);
               Z.lor 0x80 (Z.land c 0x3F)]
  else if (c <? 0x110000)%Z then
    Some [Z.lor 0xF0 (Z.shiftr c 18);
          Z.lor 0x80 (Z.land (Z.shiftr c 12) 0x3F);
          Z.lor 0x80 (Z.land (Z.shiftr c 6) 0x3F);
          Z.lor 0x80 (Z.land c 0x3F)]
  else None.

Fixpoint encode_utf8 (s : str) : option bytes :=
  match s with
  | [] => Some []
  | c :: r =>
      match encode_char c, encode_utf8 r with
      | Some b, Some br => Some (b ++ br)
      | _, _ => None
      end
  end.

(** A code point that [encode_utf8] accepts: a Unicode scalar value. *)
Definition scalar (c : Z) : Prop :=
  (0 <= c < 0xD800 \/ 0xDFFF < c < 0x110000)%Z.

(* ------------------------------------------------------------------ *)
(** ** Module constants *)

Definition QUEUE_SIZE : Z := 32768.

Definition MIN_DELAY : Q := 1 # 10.

Definition MAX_DELAY : Q := 10 # 1.

Definition LE : str := lit "LE: ".

Definition INVALID_TOKEN : str :=
  [NL; NL] ++ lit "It appears the LOGENTRIES_TOKEN "
           ++ lit "parameter you entered is incorrect!" ++ [NL; NL].

Definition LIBRARY_IDENTIFIER : str := lit "###P01### - Library Initialised".

(** The helpers of [logentries/helpers.py] that the module relies on. *)
Module le_helpers.

(** Modelled from the spec: [helpers.to_unicode] is not among the sources.
    The spec calls the separator a single reserved line-separator
    character and the source's comment names it U+2028; on a Python 3 text
    literal the helper has nothing to decode. *)
Definition to_unicode (ch : str) : str := ch.

(** Modelled from the spec: [helpers.is_unicode] is not among the sources.
    The spec's messages are text lines, so every queued value is a text
    string. *)
Definition is_unicode (ch : str) : bool := true.

(** Modelled from the spec: [helpers.create_unicode] is not among the
    sources; on a text string it is the identity. *)
Definition create_unicode (ch : str) : str := ch.

(** Modelled from the spec: [helpers.create_queue] is not among the
    sources.  The spec's MessageQueue: a FIFO buffer of fixed capacity;
    [put] on a full queue blocks the caller, [get] on an empty queue
    blocks the caller.  [None] stands for a call that blocks. *)
Record Queue := { maxsize : Z; items : list str }.

Definition create_queue (max_size : Z) : Queue :=
  {| maxsize := max_size; items := [] |}.

Definition full (q : Queue) : bool :=
  ((0 <? maxsize q) && (maxsize q <=? Z.of_nat (List.length (items q))))%Z.

Definition put (q : Queue) (m : str) : option Queue :=
  if full q then None
  else Some {| maxsize := maxsize q; items := items q ++ [m] |}.

Definition get (q : Queue) : option (str * Queue) :=
  match items q with
  | [] => None
  | m :: r => Some (m, {| maxsize := maxsize q; items := r |})
  end.

End le_helpers.

(** Unicode line separator character U+2028. *)
Definition LINE_SEP : str := le_helpers.to_unicode [0x2028%Z].

(* ------------------------------------------------------------------ *)
(** ** Exceptions, outcomes and the monad of effectful code *)

Inductive exn :=
| KeyboardInterrupt
| socket_error
| UnicodeEncodeError
| AttributeError
| RuntimeError
| OtherException.

(** [except Exception] catches everything but [KeyboardInterrupt], which
    derives from [BaseException] only. *)
Definition is_Exception (e : exn) : bool :=
  match e with KeyboardInterrupt => false | _ => true end.

Definition is_socket_error (e : exn) : bool :=
  match e with socket_error => true | _ => false end.

Definition is_KeyboardInterrupt (e : exn) : bool :=
  match e with KeyboardInterrupt => true | _ => false end.

(** The outcome of running a piece of code: it returns, it raises, it is
    blocked in a call that has not returned, or the model ran out of fuel. *)
Inductive outcome (A : Type) :=
| Return (a : A)
| Raise (e : exn)
| Blocked
| OutOfFuel.

Arguments Raise {A} e.

Arguments Blocked {A}.

Arguments OutOfFuel {A}.

Definition M (S A : Type) := S -> outcome A * S.

Definition ret {S A} (a : A) : M S A := fun s => (Return a, s).

Definition raise {S A} (e : exn) : M S A := fun s => (Raise e, s).

Definition out_of_fuel {S A} : M S A := fun s => (OutOfFuel, s).

Definition bind {S A B} (m : M S A) (k : A -> M S B) : M S B :=
  fun s =>
    match m s with
    | (Return a, s') => k a s'
    | (Raise e, s') => (Raise e, s')
    | (Blocked, s') => (Blocked, s')
    | (OutOfFuel, s') => (OutOfFuel, s')
    end.

(** [try: m] with the raised exception handed to the [except] clauses. *)
Definition try {S A} (m : M S A) : M S (A + exn) :=
  fun s =>
    match m s with
    | (Return a, s') => (Return (inl a), s')
    | (Raise e, s') => (Return (inr e), s')
    | (Blocked, s') => (Blocked, s')
    | (OutOfFuel, s') => (OutOfFuel, s')
    end.

Declare Scope py_scope.

Delimit Scope py_scope with py.

Notation "x <- m ;; k" := (bind m (fun x => k))
  (at level 61, m at next level, right associativity) : py_scope.

Notation "m ;; k" := (bind m (fun _ => k))
  (at level 61, right associativity) : py_scope.

Open Scope py_scope.

(* ------------------------------------------------------------------ *)
(** ** The socket appender thread *)

(** What the oracle answers to a call. *)
Inductive answer := Returns | Raises (e : exn).

(** The state of the socket object held in [self._conn]. *)
Inductive sock := Unconnected | Connected | Closed.

(** [threading.Thread]: [start] may be called once; [is_alive] holds from
    [start] until [run] terminates. *)
Inductive thread_state := Initial | Started | Stopped.

(** What an execution does that can be observed from outside, in the
    order it happens: lines printed by [dbg], the start of the thread, values
    put on and taken from the queue, and the calls on sockets and
    [time.sleep] with their outcomes. *)
Inductive event :=
| EvPrint (line : str)
| EvStart
| EvPut (msg : str)
| EvSocket (a : answer)
| EvConnect (a : answer)
| EvClose
| EvSleep (seconds : Q) (a : answer)
| EvGet (data : str)
| EvSend (payload : bytes) (a : answer).

Record SocketAppender := {
  daemon : bool;
  _conn : option sock;
  _queue : le_helpers.Queue;
  life : thread_state
}.

(** [SocketAppender.__init__] *)
Definition SocketAppender_init : SocketAppender :=
  {| daemon := true;
     _conn := None;
     _queue := le_helpers.create_queue QUEUE_SIZE;
     life := Initial |}.

(** The thread together with its environment: the oracle's remaining
    answers, the number of random draws made so far and the events so far. *)
Record world := {
  self : SocketAppender;
  oracle : list answer;
  draws : nat;
  trace : list event
}.

Definition set_conn (c : option sock) : M world unit :=
  fun w =>
    (Return tt,
     {| self := {| daemon := daemon (self w); _conn := c;
                   _queue := _queue (self w); life := life (self w) |};
        oracle := oracle w; draws := draws w; trace := trace w |}).

Definition get_conn : M world (option sock) :=
  fun w => (Return (_conn (self w)), w).

Definition log (e : event) : M world unit :=
  fun w =>
    (Return tt,
     {| self := self w; oracle := oracle w; draws := draws w;
        trace := trace w ++ [e] |}).

(** The next answer of the oracle. *)
Definition ask : M world answer :=
  fun w =>
    match oracle w with
    | [] => (Blocked, w)
    | a :: rest =>
        (Return a,
         {| self := self w; oracle := rest; draws := draws w;
            trace := trace w |})
    end.

(** A call whose outcome the environment decides. *)
Definition syscall (ev : answer -> event) : M world unit :=
  a <- ask ;;
  log (ev a) ;;
  match a with
  | Returns => ret tt
  | Raises e => raise e
  end.

(** [dbg]: prints [LE + msg]. *)
Definition dbg (msg : str) : M world unit := log (EvPrint (LE ++ msg)).

Section Dispatcher.

(** [random.random()]: the value of the k-th draw. *)
Variable random : nat -> Q.

(** [random.uniform(a, b)] is [a + (b - a) * random()]. *)
Definition uniform (a b : Q) : M world Q :=
  fun w =>
    (Return (a + (b - a) * random (draws w))%Q,
     {| self := self w; oracle := oracle w; draws := S (draws w);
        trace := trace w |}).

(** [SocketAppender.openConnection]: a new socket is created and stored in
    [self._conn], then connected. *)
Definition openConnection : M world unit :=
  syscall EvSocket ;;
  set_conn (Some Unconnected) ;;
  syscall EvConnect ;;
  set_conn (Some Connected).

(** [SocketAppender.closeConnection] *)
Definition closeConnection : M world unit :=
  c <- get_conn ;;
  match c with
  | Some _ => log EvClose ;; set_conn (Some Closed)
  | None => ret tt
  end.

Definition Qgt_bool (a b : Q) : bool := negb (Qle_bool a b).

(** The [while True] loop of [reopenConnection], with its local variable
    [root_delay].  [except Exception] catches what [openConnection] raises
    unless it is a [KeyboardInterrupt]; the [try] around [time.sleep]
    re-raises. *)
Fixpoint reopen_loop (fuel : nat) (root_delay : Q) : M world unit :=
  match fuel with
  | O => out_of_fuel
  | S fuel' =>
      r <- try openConnection ;;
      match r with
      | inl _ => ret tt
      | inr e =>
          if is_Exception e then
            dbg (lit "Unable to connect to Logentries") ;;
            let root_delay := (root_delay * 2)%Q in
            let root_delay :=
              if Qgt_bool root_delay MAX_DELAY then MAX_DELAY
              else root_delay in
            u <- uniform 0 root_delay ;;
            let wait_for := (root_delay + u)%Q in
            s <- try (syscall (EvSleep wait_for)) ;;
            match s with
            | inl _ => reopen_loop fuel' root_delay
            | inr e' => raise e'
            end
          else raise e
      end
  end.

(** [SocketAppender.reopenConnection] *)
Definition reopenConnection (fuel : nat) : M world unit :=
  closeConnection ;;
  let root_delay := MIN_DELAY in
  reopen_loop fuel root_delay.

(** [self._queue.get(block=True)]: the call waits, and may be interrupted
    while it does; on an empty queue it does not return. *)
Definition queue_get : M world str :=
  a <- ask ;;
  match a with
  | Raises e => raise e
  | Returns =>
      fun w =>
        match le_helpers.get (_queue (self w)) with
        | None => (Blocked, w)
        | Some (data, q) =>
            (Return data,
             {| self := {| daemon := daemon (self w);
                           _conn := _conn (self w);
                           _queue := q; life := life (self w) |};
                oracle := oracle w; draws := draws w;
                trace := trace w ++ [EvGet data] |})
        end
  end.

(** [multiline.encode('utf-8')] *)
Definition encode (s : str) : M world bytes :=
  match encode_utf8 s with
  | Some b => ret b
  | None => raise UnicodeEncodeError
  end.

(** [self._conn.send(data)] *)
Definition conn_send (data : bytes) : M world unit :=
  c <- get_conn ;;
  match c with
  | None => raise AttributeError
  | Some _ => syscall (EvSend data)
  end.

(** The inner [while True] loop of [run]: [break] once [send] has returned,
    [continue] after a reconnect when it raised [socket.error]; anything
    else it raises leaves the loop. *)
Fixpoint send_loop (fuel : nat) (multiline : str) : M world unit :=
  match fuel with
  | O => out_of_fuel
  | S fuel' =>
      r <- try (data <- encode multiline ;; conn_send data) ;;
      match r with
      | inl _ => ret tt
      | inr e =>
          if is_socket_error e then
            reopenConnection fuel' ;;
            send_loop fuel' multiline
          else raise e
      end
  end.

(** The text sent for a queued value: its newlines replaced, a newline
    appended. *)
Definition multiline_of (data : str) : str :=
  let multiline :=
    if negb (le_helpers.is_unicode data) then
      replace (le_helpers.create_unicode data) NL LINE_SEP
    else replace data NL LINE_SEP in
  multiline ++ [NL].

(** The outer [while True] loop of [run]. *)
Fixpoint main_loop (fuel : nat) : M world unit :=
  match fuel with
  | O => out_of_fuel
  | S fuel' =>
      data <- queue_get ;;
      let multiline := multiline_of data in
      send_loop fuel' multiline ;;
      main_loop fuel'
  end.

(** [SocketAppender.run]: only [KeyboardInterrupt] is caught; the final
    [closeConnection] is not reached when another exception leaves the
    loops. *)
Definition run (fuel : nat) : M world unit :=
  r <- try (reopenConnection fuel ;; main_loop fuel) ;;
  match r with
  | inl _ => ret tt
  | inr e =>
      if is_KeyboardInterrupt e then
        dbg (lit "Logentries asynchronous socket client interrupted")
      else raise e
  end ;;
  closeConnection.

End Dispatcher.

(* ------------------------------------------------------------------ *)
(** ** The logging handler *)

(** [Thread.is_alive] *)
Definition is_alive (t : SocketAppender) : bool :=
  match life t with Started => true | _ => false end.

Section Handler.

(** A log record and the formatter collaborator, [self.format]. *)
Variable record : Type.

Variable format : record -> str.

(** [le_helpers.check_token]: the external validity check. *)
Variable check_token : str -> bool.

(** The handler object, with the events it has caused so far. *)
Record LogentriesHandler := {
  token : str;
  good_config : bool;
  _thread : SocketAppender;
  hlog : list event
}.

(** An event caused by the handler. *)
Definition hlog_add (e : event) : M LogentriesHandler unit :=
  fun h =>
    (Return tt,
     {| token := token h; good_config := good_config h;
        _thread := _thread h; hlog := hlog h ++ [e] |}).

(** [dbg], called by the handler. *)
Definition hdbg (msg : str) : M LogentriesHandler unit :=
  hlog_add (EvPrint (LE ++ msg)).

(** [self._thread._queue.put(msg)] *)
Definition queue_put (msg : str) : M LogentriesHandler unit :=
  fun h =>
    match le_helpers.put (_queue (_thread h)) msg with
    | None => (Blocked, h)
    | Some q =>
        (Return tt,
         {| token := token h; good_config := good_config h;
            _thread := {| daemon := daemon (_thread h);
                          _conn := _conn (_thread h);
                          _queue := q; life := life (_thread h) |};
            hlog := hlog h ++ [EvPut msg] |})
    end.

(** [self._thread.start()] *)
Definition thread_start : M LogentriesHandler unit :=
  fun h =>
    match life (_thread h) with
    | Initial =>
        (Return tt,
         {| token := token h; good_config := good_config h;
            _thread := {| daemon := daemon (_thread h);
                          _conn := _conn (_thread h);
                          _queue := _queue (_thread h);
                          life := Started |};
            hlog := hlog h ++ [EvStart] |})
    | _ => (Raise RuntimeError, h)
    end.

(** [self.good_config = b] *)
Definition set_good_config (b : bool) : M LogentriesHandler unit :=
  fun h =>
    (Return tt,
     {| token := token h; good_config := b;
        _thread := _thread h; hlog := hlog h |}).

(** [LogentriesHandler.__init__]: the outcome of the constructor and the
    state of the new object.  The formatter and the level it installs
    belong to the formatting collaborator, [format]. *)
Definition LogentriesHandler_init (tok : str)
  : outcome unit * LogentriesHandler :=
  let new := {| token := tok; good_config := true;
                _thread := SocketAppender_init; hlog := [] |} in
  ((if negb (check_token tok) then
      hdbg INVALID_TOKEN ;;
      set_good_config false
    else ret tt) ;;
   queue_put (tok ++ LIBRARY_IDENTIFIER ++ [NL])) new.

(** The [_started] property. *)
Definition _started (h : LogentriesHandler) : bool := is_alive (_thread h).

(** [LogentriesHandler.emit] *)
Definition emit (r : record) : M LogentriesHandler unit :=
  fun self =>
    ((if negb (_started self) && good_config self then
        hdbg (lit "Starting Logentries Asynchronous Socket Appender") ;;
        thread_start
      else ret tt) ;;
     let msg := rstrip (format r) NL in
     let msg := token self ++ msg in
     queue_put msg) self.

(** Successive submissions by one producer. *)
Fixpoint emits (rs : list record) : M LogentriesHandler unit :=
  match rs with
  | [] => ret tt
  | r :: rest => emit r ;; emits rest
  end.

End Handler.

(** The thread's world when it starts running on behalf of handler [h],
    against the oracle [o]. *)
Definition world_of (h : LogentriesHandler) (o : list answer) : world :=
  {| self := _thread h; oracle := o; draws := 0; trace := [] |}.

(** The handler [h] once its thread, which ran from [world_of h o], has
    left [run] in the world [w']: the socket and the queue are as the
    thread left them, and [threading] reports a thread whose [run] has
    terminated as not alive; it cannot be started again. *)
Definition terminated (h : LogentriesHandler) (w' : world)
  : LogentriesHandler :=
  {| token := token h; good_config := good_config h;
     _thread := {| daemon := daemon (self w'); _conn := _conn (self w');
                   _queue := _queue (self w'); life := Stopped |};
     hlog := hlog h |}.

(* ------------------------------------------------------------------ *)
(** ** The spec's words, for comparison with the code *)

(** The framing of the spec: each embedded newline becomes the single
    separator character U+2028, then one newline terminator is appended. *)
Definition frame_spec (data : str) : str :=
  map (fun c => if Z.eqb c NL then 0x2028%Z else c) data ++ [NL].


(* ------------------------------------------------------------------ *)
(** ** Projections of a trace *)

(** The payloads handed to [send] by calls that returned. *)
Fixpoint delivered (tr : list event) : list bytes :=
  match tr with
  | [] => []
  | EvSend p Returns :: r => p :: delivered r
  | _ :: r => delivered r
  end.

(** Every call of [send], with its outcome. *)
Fixpoint attempted (tr : list event) : list (bytes * answer) :=
  match tr with
  | [] => []
  | EvSend p a :: r => (p, a) :: attempted r
  | _ :: r => attempted r
  end.

(** The values taken from the queue. *)
Fixpoint dequeued (tr : list event) : list str :=
  match tr with
  | [] => []
  | EvGet m :: r => m :: dequeued r
  | _ :: r => dequeued r
  end.

(** The durations passed to [time.sleep]. *)
Fixpoint sleeps (tr : list event) : list Q :=
  match tr with
  | [] => []
  | EvSleep d _ :: r => d :: sleeps r
  | _ :: r => sleeps r
  end.

(** The number of calls of [close]. *)
Fixpoint closes (tr : list event) : nat :=
  match tr with
  | [] => O
  | EvClose :: r => S (closes r)
  | _ :: r => closes r
  end.

(** The lines printed, the thread starts and the values enqueued by the
    handler. *)
Fixpoint printed (tr : list event) : list str :=
  match tr with
  | [] => []
  | EvPrint l :: r => l :: printed r
  | _ :: r => printed r
  end.

Fixpoint starts (tr : list event) : nat :=
  match tr with
  | [] => O
  | EvStart :: r => S (starts r)
  | _ :: r => starts r
  end.

Fixpoint enqueued (tr : list event) : list str :=
  match tr with
  | [] => []
  | EvPut m :: r => m :: enqueued r
  | _ :: r => enqueued r
  end.

(** One line: exactly one newline, at the end. *)
Definition one_line (p : list Z) : Prop :=
  count_occ Z.eq_dec p NL = 1%nat /\ last p 0%Z = NL.

(** The events that happened between two worlds of one execution. *)
Definition news (w w' : world) : list event :=
  skipn (List.length (trace w)) (trace w').

(* ------------------------------------------------------------------ *)
(** ** Predicates on executions of the thread *)

(** A stretch of trace without [send] and without [get]. *)
Definition quiet (tr : list event) : Prop :=
  attempted tr = [] /\ dequeued tr = [].

(** From [w] to [w'] the code consumed the answers [c] and caused the
    events [tr]. *)
Definition effect (w w' : world) (c : list answer) (tr : list event) : Prop :=
  oracle w = c ++ oracle w' /\ trace w' = trace w ++ tr.

Definition KI : answer := Raises KeyboardInterrupt.

(** The answers [c] consumed by a piece of code that ended with [r]: when
    one of them is an interrupt, it is the last one consumed and the code
    ended by raising [KeyboardInterrupt]. *)
Definition interrupt_ends {A} (c : list answer) (r : outcome A) : Prop :=
  In KI c ->
  r = Raise KeyboardInterrupt /\
  exists c0, c = c0 ++ [KI] /\ ~ In KI c0.

(** The sleeps of a reconnect sequence that starts with base delay [d] and
    random draw number [i], as the code computes them. *)
Section Backoff.

Variable random : nat -> Q.

Fixpoint expected_sleeps (d : Q) (i n : nat) : list Q :=
  match n with
  | O => []
  | S n' =>
      let d' := Qmin (d * 2) MAX_DELAY in
      (d' + (0 + (d' - 0) * random i))%Q :: expected_sleeps d' (S i) n'
  end.

End Backoff.

(** What connecting and reconnecting leave untouched: the code consumes
    answers and causes events, but no [send] and no [get]; the queue is the
    same afterwards; an interrupt ends it. *)
Record connects (w w' : world) (r : outcome unit)
       (c : list answer) (tr : list event) : Prop := {
  cn_effect : effect w w' c tr;
  cn_quiet : quiet tr;
  cn_interrupt : interrupt_ends c r;
  cn_queue : _queue (self w') = _queue (self w)
}.

(** What the send loop does for the text [ml]: every payload handed to
    [send] is the encoding of [ml]; the loop returns after exactly one
    call of [send] has returned, and not before. *)
Record sends (ml : str) (w w' : world) (r : outcome unit)
       (c : list answer) (tr : list event) : Prop := {
  sd_effect : effect w w' c tr;
  sd_interrupt : interrupt_ends c r;
  sd_dequeued : dequeued tr = [];
  sd_queue : _queue (self w') = _queue (self w);
  sd_payload :
    forall p a, In (p, a) (attempted tr) -> encode_utf8 ml = Some p;
  sd_returned :
    r = Return tt -> exists p, encode_utf8 ml = Some p /\ delivered tr = [p];
  sd_stopped : r <> Return tt -> delivered tr = []
}.

(** The bytes [p] are what the thread sends for the queued value [m]. *)
Definition framed (m : str) (p : bytes) : Prop :=
  encode_utf8 (multiline_of m) = Some p.

(** What the main loop does: it takes values from the head of the queue, in
    order; every value taken but the one in progress has had its payload
    handed to exactly one [send] that returned; every payload handed to
    [send] is the framing of a value taken. *)
Record drains (q0 : list str) (r : outcome unit)
       (c : list answer) (tr : list event) : Prop := {
  dr_interrupt : interrupt_ends c r;
  dr_fifo : exists left, q0 = dequeued tr ++ left;
  dr_delivered :
    exists done rest,
      dequeued tr = done ++ rest /\ Forall2 framed done (delivered tr) /\
      (List.length rest <= 1)%nat;
  dr_payload :
    forall p a, In (p, a) (attempted tr) ->
                exists m, In m (dequeued tr) /\ framed m p;
  dr_running : r <> Return tt
}.

(** The same facts about a whole trace, without the way it ended. *)
Record deliveries (q0 : list str) (tr : list event) : Prop := {
  dv_fifo : exists left, q0 = dequeued tr ++ left;
  dv_delivered :
    exists done rest,
      dequeued tr = done ++ rest /\ Forall2 framed done (delivered tr) /\
      (List.length rest <= 1)%nat;
  dv_payload :
    forall p a, In (p, a) (attempted tr) ->
                exists m, In m (dequeued tr) /\ framed m p
}.

(** The line printed when the thread is interrupted. *)
Definition interrupted_line : event :=
  EvPrint (LE ++ lit "Logentries asynchronous socket client interrupted").

(** No socket is left open. *)
Definition closed (s : SocketAppender) : Prop :=
  _conn s = None \/ _conn s = Some Closed.

(** How [run] ends when it is interrupted: the interrupt is the last answer
    it consumes, it prints one line, closes the socket and returns. *)
Record run_ends (w' : world) (r : outcome unit)
       (c : list answer) (tr : list event) : Prop := {
  re_interrupted :
    In KI c ->
    r = Return tt /\
    (exists c0, c = c0 ++ [KI] /\ ~ In KI c0) /\
    closed (self w') /\
    exists tr0, tr = tr0 ++ [interrupted_line]
                \/ tr = tr0 ++ [interrupted_line; EvClose];
  re_confined : r <> Raise KeyboardInterrupt
}.

(** The code went from [w] to [w'] without running out of fuel; it did not
    give answers back to the oracle, and it consumed one when it returned. *)
Definition spends (w w' : world) (r : outcome unit) : Prop :=
  r <> OutOfFuel /\
  (List.length (oracle w') <= List.length (oracle w))%nat /\
  (r = Return tt -> (List.length (oracle w') < List.length (oracle w))%nat).

(* ------------------------------------------------------------------ *)
(** ** Environments in which the connection comes back *)

(** A failed attempt to connect: [socket.socket] raises, or it returns and
    [connect] raises; the sleep that follows returns. *)
Inductive failure := SocketFails (e : exn) | ConnectFails (e : exn).

Definition recoverable (f : failure) : Prop :=
  match f with
  | SocketFails e | ConnectFails e => is_Exception e = true
  end.

Definition failed_attempt (f : failure) : list answer :=
  match f with
  | SocketFails e => [Raises e; Returns]
  | ConnectFails e => [Returns; Raises e; Returns]
  end.

(** The answers to a reconnect sequence whose attempts fail as [fs] says
    and then succeed. *)
Definition reconnect_script (fs : list failure) : list answer :=
  flat_map failed_attempt fs ++ [Returns; Returns].

(** The answers to a send loop: each element of [rs] is a [send] that
    raises [socket.error], with the reconnect sequence that follows; then
    [send] returns. *)
Definition send_script (rs : list (list failure)) : list answer :=
  flat_map (fun fs => Raises socket_error :: reconnect_script fs) rs
  ++ [Returns].

(** From [w] to [w'] with the queue untouched, a socket at hand, the
    answers [o] left and the events [tr] caused. *)
Record reaches (w w' : world) (o : list answer) (tr : list event) : Prop := {
  rc_oracle : oracle w' = o;
  rc_queue : _queue (self w') = _queue (self w);
  rc_conn : _conn (self w') <> None;
  rc_trace : trace w' = trace w ++ tr
}.

Definition successful (l : list (bytes * answer)) : list bytes :=
  flat_map (fun pa => match snd pa with Returns => [fst pa] | _ => [] end) l.

(* ------------------------------------------------------------------ *)
(** ** States of the handler *)

(** The priming message put on the queue by the constructor. *)
Definition priming (tok : str) : str := tok ++ LIBRARY_IDENTIFIER ++ [NL].

Section HandlerStates.

Variable record : Type.

Variable format : record -> str.

Variable check_token : str -> bool.

(** What [emit] enqueues for a record. *)
Definition message (tok : str) (r : record) : str :=
  tok ++ rstrip (format r) NL.

(** The handler after the values [ms] have been accepted by its queue. *)
Definition accept (h : LogentriesHandler) (ms : list str)
  : LogentriesHandler :=
  {| token := token h; good_config := good_config h;
     _thread := {| daemon := daemon (_thread h);
                   _conn := _conn (_thread h);
                   _queue :=
                     {| le_helpers.maxsize :=
                          le_helpers.maxsize (_queue (_thread h));
                        le_helpers.items :=
                          le_helpers.items (_queue (_thread h)) ++ ms |};
                   life := life (_thread h) |};
     hlog := hlog h ++ map EvPut ms |}.

(** The handler as [__init__] leaves it. *)
Definition fresh (tok : str) : LogentriesHandler :=
  {| token := tok; good_config := check_token tok;
     _thread := {| daemon := true; _conn := None;
                   _queue := {| le_helpers.maxsize := QUEUE_SIZE;
                                le_helpers.items := [priming tok] |};
                   life := Initial |};
     hlog := (if check_token tok then []
              else [EvPrint (LE ++ INVALID_TOKEN)])
             ++ [EvPut (priming tok)] |}.

(** The queue of [h] has room for [n] more values. *)
Definition room (h : LogentriesHandler) (n : nat) : Prop :=
  (Z.of_nat (List.length (le_helpers.items (_queue (_thread h)))) +
     Z.of_nat n <= le_helpers.maxsize (_queue (_thread h)))%Z.

(** No start is due: the token was rejected or the thread is alive. *)
Definition settled (h : LogentriesHandler) : Prop :=
  negb (_started h) && good_config h = false.

(** The handler once [emit] has started the thread. *)
Definition starting_line : event :=
  EvPrint (LE ++ lit "Starting Logentries Asynchronous Socket Appender").

Definition started (h : LogentriesHandler) : LogentriesHandler :=
  {| token := token h; good_config := good_config h;
     _thread := {| daemon := daemon (_thread h);
                   _conn := _conn (_thread h);
                   _queue := _queue (_thread h);
                   life := Started |};
     hlog := hlog h ++ [starting_line; EvStart] |}.

(** Construction followed by the submissions [rs]. *)
Definition session (tok : str) (rs : list record)
  : outcome unit * LogentriesHandler :=
  let (r0, h0) := LogentriesHandler_init check_token tok in
  match r0 with
  | Return _ => emits format rs h0
  | _ => (r0, h0)
  end.

End HandlerStates.

(* ------------------------------------------------------------------ *)
(** ** The backoff read off a trace *)

Section BackoffOnTraces.

Variable random : nat -> Q.





End BackoffOnTraces.

(* ------------------------------------------------------------------ *)
(** ** Sample inputs *)

Definition sample_token : str := lit "2bfbea1e-10c3-4419-bdad-7e6435882e1f".

(** A string that is not a token. *)
Definition bad_token : str := lit "not a token".

(** A validity check for the samples: the shape of a UUID written in
    lower-case hexadecimal, eight, four, four, four and twelve digits
    separated by dashes. *)
Definition is_hex (c : Z) : bool :=
  ((48 <=? c) && (c <=? 57) || (97 <=? c) && (c <=? 102))%Z.

Fixpoint shaped (dashes : list bool) (s : str) : bool :=
  match dashes, s with
  | [], [] => true
  | dash :: ds, c :: r =>
      (if dash then Z.eqb c 45 else is_hex c) && shaped ds r
  | _, _ => false
  end.

Definition uuid_shaped (tok : str) : bool :=
  shaped (repeat false 8 ++ [true] ++ repeat false 4 ++ [true]
          ++ repeat false 4 ++ [true] ++ repeat false 4 ++ [true]
          ++ repeat false 12) tok.

(** The formatter of a record that is its own text. *)
Definition as_is (r : str) : str := r.

Definition half (k : nat) : Q := 1 # 2.

(** A handler with a valid token after one submission of two lines. *)
Definition sample_handler : LogentriesHandler :=
  snd (session as_is uuid_shaped sample_token
               [lit "hello" ++ [NL] ++ lit "world"]).

(** Its thread in an environment where the first [send] of the second
    message fails and the first reconnect attempt fails too. *)
Definition sample_world : world :=
  world_of sample_handler
           [Returns; Returns; Returns; Returns; Returns;
            Raises socket_error; Returns; Raises socket_error; Returns;
            Returns; Returns; Returns].

Definition sample_payload : bytes :=
  Eval vm_compute in
    nth 1 (delivered (trace (snd (run half 20 sample_world)))) [].

Definition retry_world : world :=
  {| self := {| daemon := true; _conn := Some Connected;
                _queue := {| le_helpers.maxsize := QUEUE_SIZE;
                             le_helpers.items :=
                               [lit "first" ++ [NL] ++ lit "line";
                                lit "second"] |};
                life := Started |};
     oracle := Returns
               :: send_script [[ConnectFails socket_error]; []] ++ [Returns];
     draws := 0%nat;
     trace := [] |}.

Definition retry_payload : bytes :=
  Eval vm_compute in
    match encode_utf8 (multiline_of (lit "first" ++ [NL] ++ lit "line")) with
    | Some p => p
    | None => []
    end.

(** The thread of the sample handler in an environment where three
    attempts to connect fail before one succeeds. *)
Definition backoff_world : world :=
  world_of sample_handler
           (reconnect_script [ConnectFails socket_error;
                              SocketFails OtherException;
                              ConnectFails socket_error]).


Definition first_line : bytes :=
  Eval vm_compute in
    nth 0 (delivered (trace (snd (run half 20 sample_world)))) [].

(* ------------------------------------------------------------------ *)
(** ** Exceptions, sockets and whole queues *)

(** The sockets created: the calls of [socket.socket] that returned. *)
Fixpoint created (tr : list event) : nat :=
  match tr with
  | [] => O
  | EvSocket Returns :: r => S (created r)
  | _ :: r => created r
  end.

(** The attempts in which a socket was created and [connect] failed. *)
Definition abandoned (fs : list failure) : nat :=
  List.length
    (filter (fun f => match f with ConnectFails _ => true | _ => false end) fs).

(** The exception [e] is the last of the answers [c]: the code that
    consumed them did not raise it itself, its environment did. *)
Definition from_environment (c : list answer) (e : exn) : Prop :=
  exists c0, c = c0 ++ [Raises e].

(** The text of the value [m] cannot be encoded. *)
Definition unencodable (m : str) : Prop :=
  encode_utf8 (multiline_of m) = None.

(** What connecting and reconnecting pass on: an exception they raise was
    raised by the environment, and a socket object once stored stays
    stored. *)
Record passes (w w' : world) (r : outcome unit)
       (c : list answer) (tr : list event) : Prop := {
  ps_effect : effect w w' c tr;
  ps_raised : forall e, r = Raise e -> from_environment c e;
  ps_conn : _conn (self w) <> None -> _conn (self w') <> None
}.

(** The answers to as many turns of the main loop as [rss] is long: in each
    turn [get] returns and the sends go as the element of [rss] says. *)
Definition turns_script (rss : list (list (list failure))) : list answer :=
  flat_map (fun rs => Returns :: send_script rs) rss.

(** A decision procedure for [scalar]. *)
Definition is_scalar (c : Z) : bool :=
  ((0 <=? c) && (c <? 0xD800) || (0xDFFF <? c) && (c <? 0x110000))%Z.

(* ------------------------------------------------------------------ *)
(** ** Values, dictionaries and log records *)

Set Warnings "-register-all".

(** A Python value, as far as the formatter looks at it: the formatter
    tests the type of a value and its truth value, and hands it on.  A
    float is an IEEE 754 double; [VObject] is an instance of any other
    class, with its identity and the truth value its class gives it. *)
Inductive value :=
| VNone
| VBool (b : bool)
| VInt (n : Z)
| VFloat (x : float)
| VStr (s : str)
| VList (l : list value)
| VTuple (l : list value)
| VDict (d : list (value * value))
| VObject (id : Z) (truth : bool).

(** [bool(v)] *)
Definition truthy (v : value) : bool :=
  match v with
  | VNone => false
  | VBool b => b
  | VInt n => negb (Z.eqb n 0)
  | VFloat x => negb (PrimFloat.eqb x 0%float)
  | VStr s => negb (Nat.eqb (List.length s) 0)
  | VList l | VTuple l => negb (Nat.eqb (List.length l) 0)
  | VDict d => negb (Nat.eqb (List.length d) 0)
  | VObject _ truth => truth
  end.

(** [a == b] on text strings. *)
Fixpoint str_eqb (a b : str) : bool :=
  match a, b with
  | [], [] => true
  | x :: a', y :: b' => Z.eqb x y && str_eqb a' b'
  | _, _ => false
  end.

(** A dictionary whose keys are text strings: its items in the order of
    insertion.  In a dictionary every key occurs once. *)
Definition dict := list (str * value).

Definition keys (d : dict) : list str := map fst d.

(** [d.get(key)]: the value stored under [key], if any. *)
Fixpoint getitem (d : dict) (key : str) : option value :=
  match d with
  | [] => None
  | (k, v) :: r => if str_eqb k key then Some v else getitem r key
  end.

(** [d[key] = v]: the value of a key that is present is replaced where it
    stands, a new key goes last. *)
Fixpoint setitem (d : dict) (key : str) (v : value) : dict :=
  match d with
  | [] => [(key, v)]
  | (k, x) :: r =>
      if str_eqb k key then (k, v) :: r else (k, x) :: setitem r key v
  end.

(** [d.update(other)]: the items of [other] are stored in [d] one after the
    other. *)
Definition update (d other : dict) : dict :=
  fold_left (fun acc kv => setitem acc (fst kv) (snd kv)) other d.

(** A [logging.LogRecord]: its attributes, held in [record.__dict__], and
    what a call of its method [getMessage] returns or raises. *)
Record LogRecord := {
  __dict__ : dict;
  getMessage : outcome str
}.

(** [record.name]: the attributes of a record are instance attributes;
    reading one that the record does not have raises [AttributeError]. *)
Definition attr {S} (record : LogRecord) (name : str) : M S value :=
  match getitem (__dict__ record) name with
  | Some v => ret v
  | None => raise AttributeError
  end.

(** [getattr(record, name, default)] *)
Definition getattr (record : LogRecord) (name : str) (default : value)
  : value :=
  match getitem (__dict__ record) name with
  | Some v => v
  | None => default
  end.

(** The outcome of a call into a library, as the outcome of the caller's
    statement. *)
Definition call {S A} (r : outcome A) : M S A := fun s => (r, s).

(* ------------------------------------------------------------------ *)
(** ** The JSON formatter *)

Module LogentriesFormatter.

(** The formatter object. *)
Record instance := { host : str }.

(** [LogentriesFormatter.__init__]: [socket.gethostname()] answers
    [gethostname]. *)
Definition __init__ (gethostname : str) : instance :=
  {| host := gethostname |}.

(** The attributes of a record that [get_extra_fields] passes over. *)
Definition skip_list : list str :=
  [lit "args"; lit "asctime"; lit "created"; lit "exc_info"; lit "exc_text";
   lit "filename"; lit "funcName"; lit "id"; lit "levelname"; lit "levelno";
   lit "lineno"; lit "module"; lit "msecs"; lit "msecs"; lit "message";
   lit "msg"; lit "name"; lit "pathname"; lit "process"; lit "processName";
   lit "relativeCreated"; lit "thread"; lit "threadName"; lit "extra"].

(** [isinstance(value, easy_types)] with the types of Python 3:
    [str], [bool], [dict], [float], [int], [list] and [type(None)]. *)
Definition easy_types (v : value) : bool :=
  match v with
  | VStr _ | VBool _ | VDict _ | VFloat _ | VInt _ | VList _ | VNone => true
  | VTuple _ | VObject _ _ => false
  end.

Section Methods.

(** The built-in [repr]. *)
Variable repr : value -> str.

(** [logging.Formatter.formatException], inherited. *)
Variable formatException : value -> outcome str.

(** [json.dumps] *)
Variable json_dumps : dict -> outcome str.

(** The body of the loop of [get_extra_fields], for one item of
    [record.__dict__]. *)
Definition extra_field (fields : dict) (key : str) (value : value) : dict :=
  if negb (existsb (str_eqb key) skip_list) then
    if easy_types value then setitem fields key value
    else setitem fields key (VStr (repr value))
  else fields.

(** [LogentriesFormatter.get_extra_fields]: the loop over
    [record.__dict__.items()], started with the empty dictionary. *)
Definition get_extra_fields (record : LogRecord) : dict :=
  fold_left (fun fields kv => extra_field fields (fst kv) (snd kv))
            (__dict__ record) [].

(** [LogentriesFormatter.get_debug_fields] *)
Definition get_debug_fields (record : LogRecord) : M instance dict :=
  exc_info <- attr record (lit "exc_info") ;;
  text <- call (formatException exc_info) ;;
  lineno <- attr record (lit "lineno") ;;
  process <- attr record (lit "process") ;;
  threadName <- attr record (lit "threadName") ;;
  let fields := [(lit "exc_info", VStr text);
                 (lit "lineno", lineno);
                 (lit "process", process);
                 (lit "threadName", threadName)] in
  fields <-
    (if negb (truthy (getattr record (lit "funcName") VNone)) then
       funcName <- attr record (lit "funcName") ;;
       ret (setitem fields (lit "funcName") funcName)
     else ret fields) ;;
  fields <-
    (if negb (truthy (getattr record (lit "processName") VNone)) then
       processName <- attr record (lit "processName") ;;
       ret (setitem fields (lit "processName") processName)
     else ret fields) ;;
  ret fields.

(** [LogentriesFormatter.format], up to the call of [json.dumps]: the
    dictionary [message] that is serialised. *)
Definition message_of (record : LogRecord) : M instance dict :=
  fun self =>
    (msg <- call (getMessage record) ;;
     pathname <- attr record (lit "pathname") ;;
     levelname <- attr record (lit "levelname") ;;
     name <- attr record (lit "name") ;;
     let message := [(lit "message", VStr msg);
                     (lit "host", VStr (host self));
                     (lit "path", pathname);
                     (lit "levelname", levelname);
                     (lit "logger", name)] in
     let message := update message (get_extra_fields record) in
     exc_info <- attr record (lit "exc_info") ;;
     if truthy exc_info then
       fields <- get_debug_fields record ;;
       ret (update message fields)
     else ret message) self.

(** [LogentriesFormatter.format] *)
Definition format (record : LogRecord) : M instance str :=
  message <- message_of record ;;
  call (json_dumps message).

End Methods.

End LogentriesFormatter.

(** The attribute [key] is one that [get_extra_fields] passes over. *)
Definition skipped (key : str) : bool :=
  existsb (str_eqb key) LogentriesFormatter.skip_list.

(** Every attribute of the record that [get_extra_fields] does not pass
    over has a value of an easy type: its loop takes the first branch for
    each of them and never calls [repr]. *)
Definition plain (record : LogRecord) : bool :=
  forallb (fun kv => skipped (fst kv)
                     || LogentriesFormatter.easy_types (snd kv))
          (__dict__ record).

(** What [get_extra_fields] stores for the value of an attribute: the
    value itself when it is of an easy type, otherwise its [repr]. *)
Definition stored (repr : value -> str) (v : value) : value :=
  if LogentriesFormatter.easy_types v then v else VStr (repr v).

(** The dictionary that [get_debug_fields] returns, given the formatted
    exception and the attributes it reads. *)
Definition debug_fields (text : str)
           (lineno process threadName funcName processName : value) : dict :=
  [(lit "exc_info", VStr text);
   (lit "lineno", lineno);
   (lit "process", process);
   (lit "threadName", threadName)]
  ++ (if truthy funcName then [] else [(lit "funcName", funcName)])
  ++ (if truthy processName then [] else [(lit "processName", processName)]).

(** The dictionary [message] of [format] before the fields of an exception
    are added to it. *)
Definition base_message (repr : value -> str)
           (self : LogentriesFormatter.instance) (record : LogRecord)
           (msg : str) (pathname levelname name : value) : dict :=
  update [(lit "message", VStr msg);
          (lit "host", VStr (LogentriesFormatter.host self));
          (lit "path", pathname);
          (lit "levelname", levelname);
          (lit "logger", name)]
         (LogentriesFormatter.get_extra_fields repr record).

(** The record has the attributes [names]. *)
Definition has_attributes (record : LogRecord) (names : list str) : Prop :=
  Forall (fun name => getitem (__dict__ record) name <> None) names.

(** A decision procedure for [NoDup] on keys. *)
Fixpoint distinct (l : list str) : bool :=
  match l with
  | [] => true
  | k :: r => negb (existsb (str_eqb k) r) && distinct r
  end.

(* ------------------------------------------------------------------ *)
(** ** Further sample inputs *)

(** The thread of the sample handler, interrupted while it waits for its
    second message. *)
Definition interrupted_world : world :=
  world_of sample_handler
           [Returns; Returns; Returns; Returns; Raises KeyboardInterrupt;
            Returns].

(** A handler with a valid token after the submission of a text that holds
    a lone surrogate, and its thread in an environment without failures. *)
Definition surrogate_handler : LogentriesHandler :=
  snd (session as_is uuid_shaped sample_token [lit "caf" ++ [0xD800%Z]]).

Definition surrogate_world : world :=
  world_of surrogate_handler
           [Returns; Returns; Returns; Returns; Returns; Returns].

(** Two submissions, the first of two lines, and an environment in which
    the first attempt to connect fails and the first [send] of the second
    queued value fails. *)
Definition sample_records : list str :=
  [lit "hello" ++ [NL] ++ lit "world"; lit "second"].

Definition pipeline_world : world :=
  world_of (snd (session as_is uuid_shaped sample_token sample_records))
           (reconnect_script [ConnectFails socket_error]
            ++ turns_script [[]; [[]]; []]).

(** The sample handler once its thread has terminated. *)
Definition stopped_handler : LogentriesHandler :=
  {| token := token sample_handler;
     good_config := good_config sample_handler;
     _thread := {| daemon := daemon (_thread sample_handler);
                   _conn := Some Closed;
                   _queue := _queue (_thread sample_handler);
                   life := Stopped |};
     hlog := hlog sample_handler |}.

(** [repr] and [formatException] on the values of the samples. *)
Definition sample_repr (v : value) : str :=
  match v with
  | VTuple [] => lit "()"
  | _ => lit "<object>"
  end.

Definition sample_formatException (exc_info : value) : outcome str :=
  Return (lit "Traceback (most recent call last): ...").

Definition sample_formatter : LogentriesFormatter.instance :=
  LogentriesFormatter.__init__ (lit "build-7").

(** The attributes of a record as [logging] creates it for a call
    [logger.info("started", extra={"user": ..., "host": "web-1"})], where
    the user is an object of a class of the application. *)
Definition sample_attributes : dict :=
  [(lit "name", VStr (lit "app"));
   (lit "msg", VStr (lit "started"));
   (lit "args", VTuple []);
   (lit "levelname", VStr (lit "INFO"));
   (lit "levelno", VInt 20);
   (lit "pathname", VStr (lit "/srv/app.py"));
   (lit "filename", VStr (lit "app.py"));
   (lit "module", VStr (lit "app"));
   (lit "exc_info", VNone);
   (lit "exc_text", VNone);
   (lit "stack_info", VNone);
   (lit "lineno", VInt 12);
   (lit "funcName", VStr (lit "main"));
   (lit "created", VFloat 1.5%float);
   (lit "msecs", VFloat 500%float);
   (lit "relativeCreated", VFloat 2%float);
   (lit "thread", VInt 1);
   (lit "threadName", VStr (lit "MainThread"));
   (lit "processName", VNone);
   (lit "process", VInt 4242);
   (lit "user", VObject 1 true);
   (lit "host", VStr (lit "web-1"))].

Definition sample_record : LogRecord :=
  {| __dict__ := sample_attributes;
     getMessage := Return (lit "started") |}.

(** The same record, logged with the information of an exception. *)
Definition sample_exc_info : value :=
  VTuple [VObject 2 true; VObject 3 true; VObject 4 true].

Definition failed_record : LogRecord :=
  {| __dict__ := setitem sample_attributes (lit "exc_info") sample_exc_info;
     getMessage := Return (lit "started") |}.

(** The same record when the user is given by name. *)
Definition plain_record : LogRecord :=
  {| __dict__ := setitem sample_attributes (lit "user") (VStr (lit "ann"));
     getMessage := Return (lit "started") |}.

Definition sample_message : dict :=
  Eval vm_compute in
    match fst (LogentriesFormatter.message_of
                 sample_repr sample_formatException sample_record
                 sample_formatter) with
    | Return message => message
    | _ => []
    end.

Definition failed_message : dict :=
  Eval vm_compute in
    match fst (LogentriesFormatter.message_of
                 sample_repr sample_formatException failed_record
                 sample_formatter) with
    | Return message => message
    | _ => []
    end.

Definition failed_fields : dict :=
  Eval vm_compute in
    match fst (LogentriesFormatter.get_debug_fields
                 sample_formatException failed_record sample_formatter) with
    | Return fields => fields
    | _ => []
    end.

(* ================================================================== *)
(** * Part II: lemmas and theorems *)

(* ------------------------------------------------------------------ *)
(** ** Text: replacement, stripping and UTF-8 *)

Lemma replace_map (s : str) :
  replace s NL LINE_SEP = map (fun c => if Z.eqb c NL then 0x2028%Z else c) s.
Proof.
  unfold replace, LINE_SEP, le_helpers.to_unicode.
  induction s as [|c s IH]; simpl; [reflexivity|].
  rewrite IH. destruct (Z.eqb c NL); reflexivity.
Qed.

Lemma multiline_of_spec (data : str) : multiline_of data = frame_spec data.
Proof.
  unfold multiline_of, frame_spec, le_helpers.is_unicode. simpl.
  now rewrite replace_map.
Qed.

Lemma replace_no_newline (s : str) : ~ In NL (replace s NL LINE_SEP).
Proof.
  rewrite replace_map, in_map_iff. intros (c & Hc & _).
  destruct (Z.eqb_spec c NL) as [Heq|Hne].
  - discriminate Hc.
  - now apply Hne.
Qed.

Lemma lor_high_bit_not_newline (x : Z) : Z.lor 0x80 x <> NL.
Proof.
  intro H. apply (f_equal (fun z => Z.testbit z 7)) in H.
  rewrite Z.lor_spec in H. discriminate H.
Qed.

Lemma lor_lead_not_newline (h x : Z) :
  Z.testbit h 7 = true -> Z.lor h x <> NL.
Proof.
  intros Hh H. apply (f_equal (fun z => Z.testbit z 7)) in H.
  rewrite Z.lor_spec, Hh in H. discriminate H.
Qed.

Lemma Some_inj (A : Type) (x y : A) : Some x = Some y -> x = y.
Proof. now intros [= ->]. Qed.

Lemma encode_char_newline (c : Z) (bs : bytes) :
  encode_char c = Some bs -> In NL bs -> c = NL.
Proof.
  unfold encode_char.
  repeat match goal with
         | |- context [if ?b then _ else _] => destruct b eqn:?
         end; intros H Hin; try discriminate H;
    apply Some_inj in H; subst bs.
  all: repeat (destruct Hin as [Hin|Hin]); try assumption; exfalso.
  all: first [ exact Hin
             | now apply lor_high_bit_not_newline in Hin
             | apply lor_lead_not_newline in Hin;
               [exact Hin | reflexivity] ].
Qed.

Lemma encode_utf8_app (a b : str) :
  encode_utf8 (a ++ b) =
  match encode_utf8 a, encode_utf8 b with
  | Some x, Some y => Some (x ++ y)
  | _, _ => None
  end.
Proof.
  induction a as [|c a IH]; simpl.
  - now destruct (encode_utf8 b).
  - rewrite IH.
    destruct (encode_char c), (encode_utf8 a), (encode_utf8 b);
      try reflexivity.
    now rewrite app_assoc.
Qed.

Lemma encode_utf8_no_newline (s : str) (bs : bytes) :
  encode_utf8 s = Some bs -> ~ In NL s -> ~ In NL bs.
Proof.
  revert bs. induction s as [|c s IH]; simpl; intros bs.
  - intros [= <-] _ [].
  - destruct (encode_char c) as [b|] eqn:Hc; [|discriminate].
    destruct (encode_utf8 s) as [br|] eqn:Hs; [|discriminate].
    intros [= <-] Hnot Hin. apply in_app_or in Hin as [Hin|Hin].
    + apply Hnot. left. eapply encode_char_newline; eauto.
    + eapply IH; eauto.
Qed.

Lemma encode_char_scalar (c : Z) :
  scalar c -> exists bs, encode_char c = Some bs.
Proof.
  unfold scalar, encode_char. intros H.
  destruct (Z.ltb_spec c 0); [lia|].
  destruct (Z.ltb_spec c 0x80); [eauto|].
  destruct (Z.ltb_spec c 0x800); [eauto|].
  destruct (Z.ltb_spec c 0x10000).
  - destruct (Z.leb_spec 0xD800 c), (Z.leb_spec c 0xDFFF); simpl; eauto; lia.
  - destruct (Z.ltb_spec c 0x110000); [eauto|lia].
Qed.

Lemma encode_utf8_scalar (s : str) :
  Forall scalar s -> exists bs, encode_utf8 s = Some bs.
Proof.
  induction 1 as [|c s Hc _ [br IH]]; simpl; [eauto|].
  destruct (encode_char_scalar Hc) as [b ->]. rewrite IH. eauto.
Qed.

Lemma frame_spec_scalar (data : str) :
  Forall scalar data -> Forall scalar (frame_spec data).
Proof.
  intros H. unfold frame_spec. apply Forall_app. split.
  - apply Forall_map. eapply Forall_impl; [|exact H]. simpl.
    intros c Hc. destruct (Z.eqb c NL); [|exact Hc].
    unfold scalar. lia.
  - constructor; [|constructor]. unfold scalar, NL. lia.
Qed.

Lemma one_line_snoc (body : list Z) :
  ~ In NL body -> one_line (body ++ [NL]).
Proof.
  intros H. split.
  - rewrite count_occ_app, (proj1 (count_occ_not_In Z.eq_dec body NL) H).
    simpl.
    now destruct (Z.eq_dec NL NL).
  - apply last_last.
Qed.

(** The bytes of a framed message: the encoding of the message with its
    newlines replaced, followed by the one byte of the terminator. *)
Lemma encode_frame (data : str) (p : bytes) :
  encode_utf8 (multiline_of data) = Some p ->
  exists body,
    encode_utf8 (replace data NL LINE_SEP) = Some body /\
    p = body ++ [NL] /\ ~ In NL body.
Proof.
  unfold multiline_of, le_helpers.is_unicode. simpl.
  rewrite encode_utf8_app. simpl.
  destruct (encode_utf8 (replace data NL LINE_SEP)) as [body|] eqn:Hb;
    [|discriminate].
  intros [= <-]. exists body. repeat split.
  eapply encode_utf8_no_newline; eauto using replace_no_newline.
Qed.

Lemma encode_frame_one_line (data : str) (p : bytes) :
  encode_utf8 (multiline_of data) = Some p -> one_line p.
Proof.
  intros H. destruct (encode_frame _ H) as (body & _ & -> & Hb).
  now apply one_line_snoc.
Qed.

(* ------------------------------------------------------------------ *)
(** ** Projections and concatenation *)

Lemma attempted_app (a b : list event) :
  attempted (a ++ b) = attempted a ++ attempted b.
Proof.
  induction a as [|[] a IH]; simpl; rewrite ?IH; reflexivity.
Qed.

Lemma dequeued_app (a b : list event) :
  dequeued (a ++ b) = dequeued a ++ dequeued b.
Proof.
  induction a as [|[] a IH]; simpl; rewrite ?IH; reflexivity.
Qed.

Lemma delivered_app (a b : list event) :
  delivered (a ++ b) = delivered a ++ delivered b.
Proof.
  induction a as [|[| | | | | | | |p []] a IH]; simpl; rewrite ?IH;
    reflexivity.
Qed.

Lemma sleeps_app (a b : list event) : sleeps (a ++ b) = sleeps a ++ sleeps b.
Proof.
  induction a as [|[] a IH]; simpl; rewrite ?IH; reflexivity.
Qed.

Lemma quiet_nil : quiet [].
Proof. split; reflexivity. Qed.

Lemma quiet_app (a b : list event) : quiet a -> quiet b -> quiet (a ++ b).
Proof.
  intros [Ha1 Ha2] [Hb1 Hb2]. split.
  - now rewrite attempted_app, Ha1, Hb1.
  - now rewrite dequeued_app, Ha2, Hb2.
Qed.

Lemma quiet_delivered (tr : list event) : attempted tr = [] -> delivered tr = [].
Proof.
  induction tr as [|[| | | | | | | |p []] tr IH]; simpl; auto; discriminate.
Qed.

(* ------------------------------------------------------------------ *)
(** ** What a piece of the thread's code does to its world *)

Lemma effect_refl (w : world) : effect w w [] [].
Proof. split; simpl; [reflexivity | now rewrite app_nil_r]. Qed.

Lemma effect_trans (w1 w2 w3 : world) c1 c2 t1 t2 :
  effect w1 w2 c1 t1 -> effect w2 w3 c2 t2 ->
  effect w1 w3 (c1 ++ c2) (t1 ++ t2).
Proof.
  intros [Ho1 Ht1] [Ho2 Ht2]. split.
  - now rewrite Ho1, Ho2, app_assoc.
  - now rewrite Ht2, Ht1, app_assoc.
Qed.

Lemma interrupt_ends_nil {A} (r : outcome A) : interrupt_ends [] r.
Proof. intros []. Qed.

Lemma interrupt_ends_seq {A} (c1 c2 : list answer) (r : outcome A) :
  ~ In KI c1 -> interrupt_ends c2 r -> interrupt_ends (c1 ++ c2) r.
Proof.
  intros H1 H2 Hin. apply in_app_or in Hin as [Hin|Hin]; [easy|].
  destruct (H2 Hin) as (-> & c0 & -> & Hc0). split; [reflexivity|].
  exists (c1 ++ c0). split; [now rewrite app_assoc|].
  intros Hin'. apply in_app_or in Hin' as [?|?]; easy.
Qed.

Lemma interrupt_ends_return {A} (c : list answer) (a : A) :
  interrupt_ends c (Return a) -> ~ In KI c.
Proof. intros H Hin. now destruct (H Hin) as [? _]. Qed.

Lemma interrupt_ends_one {A} (a : answer) (r : outcome A) :
  (a = KI -> r = Raise KeyboardInterrupt) -> interrupt_ends [a] r.
Proof.
  intros H [->|[]]. split; [now apply H|]. exists []. now split.
Qed.

(* ------------------------------------------------------------------ *)
(** ** Connecting and reconnecting *)

Lemma Qgt_bool_min (a b : Q) : (if Qgt_bool a b then b else a) = Qmin a b.
Proof.
  unfold Qgt_bool, Qle_bool, Qmin, GenericMinMax.gmin, Qcompare.
  destruct (Z.leb_spec (Qnum a * QDen b) (Qnum b * QDen a)) as [H|H]; simpl.
  - destruct (Z.compare_spec (Qnum a * QDen b) (Qnum b * QDen a));
      try reflexivity; lia.
  - apply Z.lt_gt in H. unfold Z.gt in H. now rewrite H.
Qed.

Lemma connects_trans (w1 w2 w3 : world) (a : unit) (r : outcome unit)
      c1 c2 t1 t2 :
  connects w1 w2 (Return a) c1 t1 -> connects w2 w3 r c2 t2 ->
  connects w1 w3 r (c1 ++ c2) (t1 ++ t2).
Proof.
  intros [E1 Q1 I1 K1] [E2 Q2 I2 K2]. split.
  - eapply effect_trans; eauto.
  - now apply quiet_app.
  - apply interrupt_ends_seq; [|assumption].
    eapply interrupt_ends_return; eauto.
  - congruence.
Qed.

Ltac world_goal :=
  match goal with
  | |- effect _ _ _ _ =>
      split; simpl; [reflexivity | now rewrite <- ?app_assoc, ?app_nil_r]
  | |- quiet _ => split; reflexivity
  | |- interrupt_ends [] _ => apply interrupt_ends_nil
  | |- interrupt_ends [_] _ => apply interrupt_ends_one; now intros [= ->]
  | |- interrupt_ends (Returns :: ?c) _ =>
      apply (@interrupt_ends_seq _ [Returns] c);
      [intros [H|[]]; discriminate H | world_goal]
  | |- _ /\ _ => split; world_goal
  | |- connects _ _ _ _ _ => split; simpl; world_goal
  | |- _ => simpl; easy
  end.

Lemma openConnection_spec (w w' : world) (r : outcome unit) :
  openConnection w = (r, w') ->
  exists c tr,
    connects w w' r c tr /\ sleeps tr = [] /\ draws w' = draws w /\
    r <> OutOfFuel /\
    (r = Return tt -> _conn (self w') = Some Connected).
Proof.
  unfold openConnection, syscall, bind, ask, log, set_conn, ret, raise.
  destruct w as [s o d t]. simpl.
  destruct o as [|[|e] [|[|e'] o]]; simpl; intros [= <- <-];
    [ exists [], []
    | exists [Returns], [EvSocket Returns]
    | exists [Returns; Returns], [EvSocket Returns; EvConnect Returns]
    | exists [Returns; Raises e'], [EvSocket Returns; EvConnect (Raises e')]
    | exists [Raises e], [EvSocket (Raises e)] ..];
    world_goal.
Qed.

Lemma closeConnection_spec (w w' : world) (r : outcome unit) :
  closeConnection w = (r, w') ->
  r = Return tt /\
  exists tr,
    connects w w' r [] tr /\ sleeps tr = [] /\ draws w' = draws w /\
    _conn (self w') =
      match _conn (self w) with Some _ => Some Closed | None => None end /\
    tr = match _conn (self w) with Some _ => [EvClose] | None => [] end.
Proof.
  unfold closeConnection, bind, get_conn, log, set_conn, ret.
  destruct w as [[dm cn q l] o d t]. simpl.
  destruct cn; simpl; intros [= <- <-]; (split; [reflexivity|]);
    [exists [EvClose] | exists []]; repeat (split; [world_goal|]); auto.
Qed.

Lemma syscall_spec (ev : answer -> event) (w w' : world) (r : outcome unit) :
  syscall ev w = (r, w') ->
  (r = Blocked /\ w' = w /\ oracle w = []) \/
  (exists a,
      oracle w = a :: oracle w' /\ trace w' = trace w ++ [ev a] /\
      self w' = self w /\ draws w' = draws w /\
      r = match a with Returns => Return tt | Raises e => Raise e end).
Proof.
  unfold syscall, bind, ask, log, ret, raise. destruct w as [s o d t]. simpl.
  destruct o as [|[|e] o]; simpl; intros [= <- <-]; simpl; eauto 10.
Qed.

Lemma connects_then (w1 w2 w3 : world) (r1 r : outcome unit) c1 c2 t1 t2 :
  connects w1 w2 r1 c1 t1 -> r1 <> Raise KeyboardInterrupt ->
  connects w2 w3 r c2 t2 ->
  connects w1 w3 r (c1 ++ c2) (t1 ++ t2).
Proof.
  intros [E1 Q1 I1 K1] Hr [E2 Q2 I2 K2]. split.
  - eapply effect_trans; eauto.
  - now apply quiet_app.
  - apply interrupt_ends_seq; [|assumption].
    intros Hin. now destruct (I1 Hin).
  - congruence.
Qed.

Lemma connects_result (w w' : world) (r r' : outcome unit) c tr :
  connects w w' r c tr -> (In KI c -> r' = r) -> connects w w' r' c tr.
Proof.
  intros [E Q I K] Hr. split; auto.
  intros Hin. rewrite (Hr Hin). now apply I.
Qed.

Section DispatcherFacts.

Variable random : nat -> Q.

Lemma reopen_loop_spec (fuel : nat) :
  forall (d : Q) (w w' : world) (r : outcome unit),
    reopen_loop random fuel d w = (r, w') ->
    exists c tr,
      connects w w' r c tr /\
      sleeps tr =
        expected_sleeps random d (draws w) (List.length (sleeps tr)) /\
      (r = Return tt -> _conn (self w') = Some Connected).
Proof.
  induction fuel as [|fuel IH]; intros d w w' r H.
  - injection H as <- <-. exists [], []. world_goal.
  - cbn [reopen_loop] in H. unfold bind at 1, try at 1 in H.
    destruct (openConnection w) as [ro w1] eqn:Ho.
    destruct (openConnection_spec _ Ho) as (c1 & t1 & C1 & S1 & D1 & F1 & K1).
    assert (Hstop : forall r0 : outcome unit,
               r0 <> Return tt -> connects w w1 r0 c1 t1 ->
               exists c tr,
                 connects w w1 r0 c tr /\
                 sleeps tr =
                   expected_sleeps random d (draws w) (List.length (sleeps tr)) /\
                 (r0 = Return tt -> _conn (self w1) = Some Connected)).
    { intros r0 Hr0 C0. exists c1, t1. rewrite S1.
      split; [exact C0 | split; [reflexivity | now intros ->]]. }
    destruct ro as [[]|e| |];
      [ injection H as <- <-; exists c1, t1; rewrite S1; now auto
      | | injection H as <- <-; now apply Hstop ..].
    destruct (is_Exception e) eqn:He;
      [|injection H as <- <-; now apply Hstop].
    unfold bind at 1, dbg at 1, log at 1 in H.
    unfold bind at 1, uniform at 1 in H.
    unfold bind at 1, try at 1 in H. cbn [draws self oracle trace] in H.
    rewrite Qgt_bool_min, D1 in H.
    set (d' := Qmin (d * 2) MAX_DELAY) in *.
    set (wait_for := (d' + (0 + (d' - 0) * random (draws w)))%Q) in *.
    set (pr := EvPrint (LE ++ lit "Unable to connect to Logentries")) in *.
    assert (He' : Raise (A:=unit) e <> Raise KeyboardInterrupt)
      by (intros [= ->]; discriminate He).
    destruct (syscall _ _) as [rs w2] eqn:Hs.
    apply syscall_spec in Hs as [(-> & -> & Ho2)|(a & Ho2 & Ht2 & Hs2 & Hd2 & ->)];
      cbn [draws self oracle trace] in *.
    + injection H as <- <-. exists (c1 ++ []), (t1 ++ [pr]).
      split; [|split].
      * eapply connects_then; eauto. world_goal.
      * rewrite sleeps_app, S1. reflexivity.
      * discriminate.
    + assert (C2 : forall r0, (a = KI -> r0 = Raise KeyboardInterrupt) ->
                     connects w1 w2 r0 [a] [pr; EvSleep wait_for a]).
      { intros r0 Hr0. split.
        - split; [assumption|]. rewrite Ht2. now rewrite <- app_assoc.
        - split; reflexivity.
        - now apply interrupt_ends_one.
        - now rewrite Hs2. }
      destruct a as [|e2].
      * apply IH in H as (c3 & t3 & C3 & S3 & K3).
        exists (c1 ++ [Returns] ++ c3), (t1 ++ [pr; EvSleep wait_for Returns] ++ t3).
        split; [|split].
        -- eapply connects_then; eauto.
           eapply connects_then; [apply (C2 (Return tt)) | | eassumption]; discriminate.
        -- rewrite !sleeps_app, S1. subst pr. cbn [sleeps app List.length].
           rewrite S3 at 1. rewrite Hd2. reflexivity.
        -- assumption.
      * injection H as <- <-.
        exists (c1 ++ [Raises e2]), (t1 ++ [pr; EvSleep wait_for (Raises e2)]).
        split; [|split].
        -- eapply connects_then; eauto. apply C2. now intros [= ->].
        -- rewrite !sleeps_app, S1. subst pr.
           reflexivity.
        -- discriminate.
Qed.

Lemma reopenConnection_spec (fuel : nat) (w w' : world) (r : outcome unit) :
  reopenConnection random fuel w = (r, w') ->
  exists c tr,
    connects w w' r c tr /\
    sleeps tr =
      expected_sleeps random MIN_DELAY (draws w) (List.length (sleeps tr)) /\
    (r = Return tt -> _conn (self w') = Some Connected).
Proof.
  unfold reopenConnection. unfold bind at 1.
  destruct (closeConnection w) as [rc w1] eqn:Hc.
  apply closeConnection_spec in Hc as (-> & t1 & C1 & S1 & D1 & _ & _).
  intros H. apply reopen_loop_spec in H as (c2 & t2 & C2 & S2 & K2).
  exists ([] ++ c2), (t1 ++ t2). split; [|split].
  - eapply connects_then; eauto. discriminate.
  - rewrite sleeps_app, S1. simpl. now rewrite <- D1.
  - assumption.
Qed.

Lemma sends_nothing (ml : str) (w : world) (r : outcome unit) :
  r <> Return tt -> sends ml w w r [] [].
Proof.
  intros Hr. split; auto using effect_refl, interrupt_ends_nil.
  - intros p a [].
  - intros ->. now elim Hr.
Qed.

Lemma send_loop_spec (ml : str) (fuel : nat) :
  forall (w w' : world) (r : outcome unit),
    send_loop random fuel ml w = (r, w') ->
    exists c tr, sends ml w w' r c tr.
Proof.
  induction fuel as [|fuel IH]; intros w w' r H.
  - injection H as <- <-. exists [], []. now apply sends_nothing.
  - cbn [send_loop] in H. unfold bind at 1, try at 1 in H.
    unfold bind at 1, encode at 1 in H.
    destruct (encode_utf8 ml) as [p|] eqn:Hp;
      [|injection H as <- <-; exists [], []; now apply sends_nothing].
    unfold ret at 1, conn_send, bind at 1, get_conn at 1 in H.
    destruct (_conn (self w)) as [cn|] eqn:Hcn;
      [|injection H as <- <-; exists [], []; now apply sends_nothing].
    destruct (syscall (EvSend p) w) as [rs w1] eqn:Hs.
    apply syscall_spec in Hs
      as [(-> & -> & Ho)|(a & Ho & Ht & Hs & Hd & ->)].
    + injection H as <- <-. exists [], []. now apply sends_nothing.
    + assert (E1 : effect w w1 [a] [EvSend p a]) by now split.
      destruct a as [|e].
      * injection H as <- <-. exists [Returns], [EvSend p Returns].
        split; auto; try world_goal.
        -- now rewrite Hs.
        -- now intros ? ? [[= <- <-]|[]].
        -- intros _. now exists p.
      * assert (Hone : forall r0 : outcome unit,
                   r0 <> Return tt ->
                   (Raises e = KI -> r0 = Raise KeyboardInterrupt) ->
                   sends ml w w1 r0 [Raises e] [EvSend p (Raises e)]).
        { intros r0 Hr0 Hki. split; auto.
          - now apply interrupt_ends_one.
          - now rewrite Hs.
          - now intros ? ? [[= <- <-]|[]].
          - intros ->. now elim Hr0. }
        destruct (is_socket_error e) eqn:He;
          [|injection H as <- <-; eexists _, _; apply Hone;
            [discriminate | now intros [= ->]]].
        destruct e; try discriminate He. clear He.
        unfold bind at 1 in H.
        destruct (reopenConnection random fuel w1) as [rr w2] eqn:Hr.
        apply reopenConnection_spec in Hr as (c2 & t2 & [E2 [Q2a Q2b] I2 K2] & _ & _).
        assert (Hquit : forall r0 : outcome unit,
                   r0 <> Return tt -> interrupt_ends c2 r0 ->
                   sends ml w w2 r0 ([Raises socket_error] ++ c2)
                         ([EvSend p (Raises socket_error)] ++ t2)).
        { intros r0 Hr0 Hi. split.
          - eapply effect_trans; eauto.
          - apply interrupt_ends_seq; [|assumption].
            intros [Hk|[]]; discriminate Hk.
          - now rewrite dequeued_app, Q2b.
          - now rewrite K2, Hs.
          - intros q a. rewrite attempted_app, Q2a. now intros [[= <- <-]|[]].
          - intros ->. now elim Hr0.
          - intros _. rewrite delivered_app, (quiet_delivered _ Q2a). reflexivity. }
        destruct rr as [[]|e| |];
          [|injection H as <- <-; eexists _, _; now apply Hquit ..].
        apply IH in H as (c3 & t3 & [E3 I3 Q3 K3 P3 R3 S3]).
        exists ([Raises socket_error] ++ c2 ++ c3),
               ([EvSend p (Raises socket_error)] ++ t2 ++ t3).
        split.
        -- eapply effect_trans; eauto. eapply effect_trans; eauto.
        -- apply interrupt_ends_seq; [intros [Hk|[]]; discriminate Hk|].
           apply interrupt_ends_seq; [|assumption].
           eapply interrupt_ends_return; eauto.
        -- now rewrite !dequeued_app, Q2b, Q3.
        -- now rewrite K3, K2, Hs.
        -- intros q a. rewrite !attempted_app, Q2a.
           intros [[= <- <-]|Hin]; [assumption|]. eapply P3; eauto.
        -- intros Hr. destruct (R3 Hr) as (q & Hq & Hd3). exists q.
           split; [assumption|].
           now rewrite !delivered_app, (quiet_delivered _ Q2a).
        -- intros Hr. rewrite !delivered_app, (quiet_delivered _ Q2a).
           now rewrite (S3 Hr).
Qed.

Lemma queue_get_spec (w w' : world) (r : outcome str) :
  queue_get w = (r, w') ->
  exists c,
    oracle w = c ++ oracle w' /\ interrupt_ends c r /\
    ((exists data,
         r = Return data /\ trace w' = trace w ++ [EvGet data] /\
         le_helpers.items (_queue (self w)) =
           data :: le_helpers.items (_queue (self w')) /\
         _conn (self w') = _conn (self w)) \/
     ((forall data, r <> Return data) /\ trace w' = trace w /\
      self w' = self w)).
Proof.
  unfold queue_get, bind, ask, raise, le_helpers.get.
  destruct w as [[dm cn [mx q] l] o d t]. simpl.
  destruct o as [|[|e] o]; simpl.
  - intros [= <- <-]. exists []. split; [reflexivity|].
    split; [apply interrupt_ends_nil|]. right. now repeat split.
  - destruct q as [|m q]; intros [= <- <-]; exists [Returns]; simpl;
      (split; [reflexivity|]); (split; [now apply interrupt_ends_one|]).
    + right. now repeat split.
    + left. exists m. now repeat split.
  - intros [= <- <-]. exists [Raises e]. split; [reflexivity|].
    split; [apply interrupt_ends_one; now intros [= ->]|].
    right. now repeat split.
Qed.

End DispatcherFacts.

Section MainLoopFacts.

Variable random : nat -> Q.

Lemma main_loop_spec (fuel : nat) :
  forall (w w' : world) (r : outcome unit),
    main_loop random fuel w = (r, w') ->
    exists c tr,
      effect w w' c tr /\
      drains (le_helpers.items (_queue (self w))) r c tr.
Proof.
  induction fuel as [|fuel IH]; intros w w' r H.
  - injection H as <- <-. exists [], []. split; [apply effect_refl|].
    split; simpl; eauto using interrupt_ends_nil; try easy.
    exists [], []. now repeat constructor.
  - cbn [main_loop] in H. unfold bind at 1 in H.
    destruct (queue_get w) as [rg w1] eqn:Hg.
    apply queue_get_spec in Hg as (c1 & Ho1 & I1 & Hg).
    destruct Hg as [(data & -> & Ht1 & Hq1 & _)|(Hn & Ht1 & Hs1)].
    2: { destruct rg as [a|e| |]; [now elim (Hn a)|..]; injection H as <- <-;
           exists c1, [];
           (split; [split; [assumption|now rewrite app_nil_r]|]);
           (split; simpl;
            [ intros Hin; destruct (I1 Hin) as (Hr & Hc);
              try discriminate Hr; injection Hr as ->; now split
            | now exists (le_helpers.items (_queue (self w)))
            | exists [], []; now repeat constructor
            | now intros ? ? []
            | discriminate ]). }
    unfold bind at 1 in H.
    destruct (send_loop random fuel (multiline_of data) w1) as [rs w2] eqn:Hs.
    apply send_loop_spec in Hs as (c2 & t2 & [E2 I2 Q2 K2 P2 R2 S2]).
    assert (E1 : effect w w1 c1 [EvGet data]) by now split.
    assert (N1 : ~ In KI c1) by (eapply interrupt_ends_return; eauto).
    assert (Hpay : forall p a, In (p, a) (attempted ([EvGet data] ++ t2)) ->
                               exists m, In m (dequeued ([EvGet data] ++ t2))
                                         /\ framed m p).
    { intros p a Hin. simpl in Hin. exists data. split; [now left|].
      eapply P2; eauto. }
    destruct rs as [[]|e| |].
    2-4: injection H as <- <-; exists (c1 ++ c2), ([EvGet data] ++ t2);
      (split; [eapply effect_trans; eauto|]);
      (split; [now apply interrupt_ends_seq
              | exists (le_helpers.items (_queue (self w1)));
                simpl; now rewrite Q2
              | exists [], [data]; simpl; rewrite Q2, S2 by discriminate;
                now repeat constructor
              | assumption
              | discriminate ]).
    destruct (R2 eq_refl) as (p & Hp & Hd2).
    apply IH in H as (c3 & t3 & E3 & [I3 [left F3] (done & rest & D3a & D3b & D3c) P3 R3]).
    exists (c1 ++ c2 ++ c3), ([EvGet data] ++ t2 ++ t3).
    split; [eapply effect_trans; eauto; eapply effect_trans; eauto|].
    split.
    + apply interrupt_ends_seq; [assumption|].
      apply interrupt_ends_seq; [|assumption].
      eapply interrupt_ends_return; eauto.
    + exists left. simpl. rewrite dequeued_app, Q2. simpl.
      rewrite Hq1, <- K2. now f_equal.
    + exists (data :: done), rest. simpl.
      rewrite dequeued_app, delivered_app, Q2, Hd2. simpl.
      split; [now f_equal|]. split; [|assumption]. now constructor.
    + intros q a. rewrite app_assoc, attempted_app.
      intros Hin. apply in_app_or in Hin as [Hin|Hin].
      * destruct (Hpay _ _ Hin) as (m & Hm & Hf). exists m. split; [|assumption].
        rewrite dequeued_app. now apply in_or_app; left.
      * destruct (P3 _ _ Hin) as (m & Hm & Hf). exists m. split; [|assumption].
        rewrite dequeued_app. now apply in_or_app; right.
    + assumption.
Qed.

End MainLoopFacts.

Lemma deliveries_nil (q0 : list str) : deliveries q0 [].
Proof.
  split; simpl.
  - now exists q0.
  - exists [], []. now repeat constructor.
  - now intros ? ? [].
Qed.

Lemma drains_deliveries (q0 : list str) r c tr :
  drains q0 r c tr -> deliveries q0 tr.
Proof. intros [I F D P R]. now split. Qed.

Lemma deliveries_quiet (q0 : list str) (a tr b : list event) :
  quiet a -> quiet b -> deliveries q0 tr -> deliveries q0 (a ++ tr ++ b).
Proof.
  intros [Qa1 Qa2] [Qb1 Qb2] [F D P].
  assert (Hd : dequeued (a ++ tr ++ b) = dequeued tr)
    by now rewrite !dequeued_app, Qa2, Qb2, app_nil_r.
  assert (Ha : attempted (a ++ tr ++ b) = attempted tr)
    by now rewrite !attempted_app, Qa1, Qb1, app_nil_r.
  assert (Hv : delivered (a ++ tr ++ b) = delivered tr)
    by now rewrite !delivered_app, (quiet_delivered _ Qa1),
         (quiet_delivered _ Qb1), app_nil_r.
  split; rewrite ?Hd, ?Ha, ?Hv; assumption.
Qed.

Section RunFacts.

Variable random : nat -> Q.

Lemma run_body_spec (fuel : nat) (w w' : world) (r : outcome unit) :
  (reopenConnection random fuel ;; main_loop random fuel) w = (r, w') ->
  exists c tr,
    effect w w' c tr /\ interrupt_ends c r /\ r <> Return tt /\
    deliveries (le_helpers.items (_queue (self w))) tr.
Proof.
  unfold bind at 1.
  destruct (reopenConnection random fuel w) as [rr w1] eqn:Hr.
  apply reopenConnection_spec in Hr as (c1 & t1 & [E1 Q1 I1 K1] & _ & _).
  destruct rr as [[]|e| |].
  2-4: intros [= <- <-]; exists c1, t1;
    (split; [assumption|]); (split; [assumption|]);
    (split; [discriminate|]);
    rewrite <- (app_nil_r t1); apply (@deliveries_quiet _ t1 [] []);
    auto using quiet_nil, deliveries_nil.
  intros H. apply main_loop_spec in H as (c2 & t2 & E2 & D2).
  exists (c1 ++ c2), (t1 ++ t2). split; [eapply effect_trans; eauto|].
  split; [|split].
  - apply interrupt_ends_seq; [|apply D2].
    eapply interrupt_ends_return; eauto.
  - apply D2.
  - rewrite <- (app_nil_r t2), <- K1.
    apply deliveries_quiet; auto using quiet_nil.
    eapply drains_deliveries; eauto.
Qed.

Lemma run_spec (fuel : nat) (w w' : world) (r : outcome unit) :
  run random fuel w = (r, w') ->
  exists c tr,
    effect w w' c tr /\ run_ends w' r c tr /\
    deliveries (le_helpers.items (_queue (self w))) tr.
Proof.
  unfold run. unfold bind at 1, try at 1.
  destruct ((reopenConnection random fuel ;; main_loop random fuel) w)
    as [rb w1] eqn:Hb.
  apply run_body_spec in Hb as (c1 & t1 & E1 & I1 & R1 & D1).
  assert (Hstop : forall r0 : outcome unit,
             r0 <> Return tt -> r0 <> Raise KeyboardInterrupt ->
             interrupt_ends c1 r0 ->
             exists c tr,
               effect w w1 c tr /\ run_ends w1 r0 c tr /\
               deliveries (le_helpers.items (_queue (self w))) tr).
  { intros r0 N1 N2 I0. exists c1, t1. split; [assumption|].
    split; [|assumption]. split; [|assumption].
    intros Hin. now destruct (I0 Hin). }
  destruct rb as [[]|e| |]; [now elim R1| |intros [= <- <-]; now apply Hstop ..].
  destruct (is_KeyboardInterrupt e) eqn:He.
  2: { unfold bind at 1, raise at 1. intros [= <- <-]. apply Hstop; try easy.
       intros [= ->]. discriminate He. }
  destruct e; try discriminate He. clear He Hstop.
  unfold bind at 1, dbg at 1, log at 1.
  set (w2 := {| self := self w1; oracle := oracle w1; draws := draws w1;
                trace := trace w1 ++ _ |}).
  intros Hc.
  apply closeConnection_spec in Hc
    as (-> & t3 & [E3 Q3 _ K3] & _ & _ & C3 & T3).
  assert (E2 : effect w1 w2 [] [interrupted_line]) by now split.
  exists (c1 ++ [] ++ []), (t1 ++ [interrupted_line] ++ t3).
  split; [eapply effect_trans; eauto; eapply effect_trans; eauto|].
  split.
  - rewrite !app_nil_r. split; [|discriminate].
    intros Hin. split; [reflexivity|]. split; [now destruct (I1 Hin)|].
    split.
    + unfold closed. rewrite C3. destruct (_conn (self w2)); auto.
    + exists t1. rewrite T3. destruct (_conn (self w2)); auto.
  - apply (@deliveries_quiet _ [] t1 ([interrupted_line] ++ t3));
      auto using quiet_nil, quiet_app.
Qed.

End RunFacts.

(* ------------------------------------------------------------------ *)
(** ** Fuel *)

Section FuelFacts.

Variable random : nat -> Q.

Ltac spent :=
  unfold spends in *; cbn [oracle]; repeat split;
  try (intros; discriminate); intros; try lia.

Lemma openConnection_spends (w w' : world) (r : outcome unit) :
  openConnection w = (r, w') ->
  spends w w' r /\
  (forall e, r = Raise e ->
             (List.length (oracle w') < List.length (oracle w))%nat).
Proof.
  unfold openConnection, syscall, bind, ask, log, set_conn, ret, raise, spends.
  destruct w as [s o d t]. simpl.
  destruct o as [|[|e] [|[|e'] o]]; simpl; intros [= <- <-]; simpl;
    repeat split; try (intros; discriminate); intros; simpl; lia.
Qed.

Lemma reopen_loop_spends (fuel : nat) :
  forall (d : Q) (w w' : world) (r : outcome unit),
    (List.length (oracle w) < fuel)%nat ->
    reopen_loop random fuel d w = (r, w') -> spends w w' r.
Proof.
  induction fuel as [|fuel IH]; intros d w w' r Hf H; [inversion Hf|].
  cbn [reopen_loop] in H. unfold bind at 1, try at 1 in H.
  destruct (openConnection w) as [ro w1] eqn:Ho.
  apply openConnection_spends in Ho as [(F1 & L1 & R1) E1].
  destruct ro as [[]|e| |]; try (injection H as <- <-; spent; auto).
  specialize (E1 e eq_refl).
  destruct (is_Exception e);
    [|injection H as <- <-; spent].
  unfold bind at 1, dbg at 1, log at 1 in H.
  unfold bind at 1, uniform at 1 in H.
  unfold bind at 1, try at 1 in H. cbn [draws self oracle trace] in H.
  destruct (syscall _ _) as [rs w2] eqn:Hs.
  apply syscall_spec in Hs
    as [(-> & -> & _)|(a & O2 & _ & _ & _ & ->)];
    cbn [draws self oracle trace] in *.
  - injection H as <- <-. spent.
  - assert (L2 : (S (List.length (oracle w2)) = List.length (oracle w1))%nat)
      by (rewrite O2; reflexivity).
    destruct a as [|e2].
    + apply IH in H as (F3 & L3 & R3); [|lia].
      repeat split; [assumption | lia | intros Hr; specialize (R3 Hr); lia].
    + injection H as <- <-.
      spent.
Qed.

Lemma reopenConnection_spends (fuel : nat) (w w' : world) (r : outcome unit) :
  (List.length (oracle w) < fuel)%nat ->
  reopenConnection random fuel w = (r, w') -> spends w w' r.
Proof.
  intros Hf. unfold reopenConnection. unfold bind at 1.
  destruct (closeConnection w) as [rc w1] eqn:Hc.
  apply closeConnection_spec in Hc as (-> & t1 & [[E1 _] _ _ _] & _).
  simpl in E1. intros H. apply reopen_loop_spends in H; [|now rewrite <- E1].
  unfold spends in *. now rewrite E1.
Qed.

Lemma send_loop_spends (ml : str) (fuel : nat) :
  forall (w w' : world) (r : outcome unit),
    (List.length (oracle w) < fuel)%nat ->
    send_loop random fuel ml w = (r, w') -> spends w w' r.
Proof.
  induction fuel as [|fuel IH]; intros w w' r Hf H; [inversion Hf|].
  assert (Hstay : forall e : exn, spends w w (Raise e))
    by (intros e; spent).
  cbn [send_loop] in H. unfold bind at 1, try at 1 in H.
  unfold bind at 1, encode at 1 in H.
  destruct (encode_utf8 ml) as [p|]; [|injection H as <- <-; apply Hstay].
  unfold ret at 1, conn_send, bind at 1, get_conn at 1 in H.
  destruct (_conn (self w)) as [cn|]; [|injection H as <- <-; apply Hstay].
  destruct (syscall (EvSend p) w) as [rs w1] eqn:Hs.
  apply syscall_spec in Hs
    as [(-> & -> & _)|(a & O1 & _ & _ & _ & ->)].
  - injection H as <- <-. spent.
  - assert (L1 : (S (List.length (oracle w1)) = List.length (oracle w))%nat)
      by (rewrite O1; reflexivity).
    destruct a as [|e];
      [injection H as <- <-; spent|].
    destruct (is_socket_error e);
      [|injection H as <- <-; spent].
    unfold bind at 1 in H.
    destruct (reopenConnection random fuel w1) as [rr w2] eqn:Hr.
    apply reopenConnection_spends in Hr as (F2 & L2 & R2); [|lia].
    destruct rr as [[]|e'| |]; [|injection H as <- <-; spent; auto ..].
    apply IH in H as (F3 & L3 & R3); [|lia].
    repeat split; [assumption | lia | intros Hr; specialize (R3 Hr); lia].
Qed.

Lemma main_loop_spends (fuel : nat) :
  forall (w w' : world) (r : outcome unit),
    (List.length (oracle w) < fuel)%nat ->
    main_loop random fuel w = (r, w') -> r <> OutOfFuel.
Proof.
  induction fuel as [|fuel IH]; intros w w' r Hf H; [inversion Hf|].
  cbn [main_loop] in H. unfold bind at 1 in H.
  destruct (queue_get w) as [rg w1] eqn:Hg.
  assert (G : rg <> OutOfFuel /\
              (forall data, rg = Return data ->
                 (List.length (oracle w1) < List.length (oracle w))%nat)).
  { revert Hg. unfold queue_get, bind, ask, raise, le_helpers.get.
    destruct w as [[dm cn [mx q] l] o d t]. simpl.
    destruct o as [|[|e] o]; simpl; try (intros [= <- <-]; now split).
    destruct q as [|m q]; intros [= <- <-]; split; try discriminate.
    intros; simpl; lia. }
  destruct G as [G1 G2].
  destruct rg as [data|e| |]; try (injection H as <- <-; discriminate).
  2: now elim G1.
  specialize (G2 data eq_refl).
  unfold bind at 1 in H.
  destruct (send_loop random fuel (multiline_of data) w1) as [rs w2] eqn:Hs.
  apply send_loop_spends in Hs as (F2 & L2 & R2); [|lia].
  destruct rs as [[]|e| |]; try (injection H as <- <-; discriminate).
  - eapply IH; [|exact H]. lia.
  - now elim F2.
Qed.

(** With more fuel than the oracle has answers, [run] does not run out of
    fuel: it returns, raises or is blocked in a call. *)
Lemma run_fuel_suffices (fuel : nat) (w : world) :
  (List.length (oracle w) < fuel)%nat ->
  fst (run random fuel w) <> OutOfFuel.
Proof.
  intros Hf. unfold run. unfold bind at 1, try at 1. unfold bind at 1.
  destruct (reopenConnection random fuel w) as [rr w1] eqn:Hr.
  apply reopenConnection_spends in Hr as (F1 & L1 & R1); [|exact Hf].
  assert (Hclose : forall (m : M world unit) (w0 : world),
             fst (m w0) <> OutOfFuel ->
             fst ((m ;; closeConnection) w0) <> OutOfFuel).
  { intros m w0 Hm. unfold bind. destruct (m w0) as [[[]|e| |] w2]; simpl in *;
      try discriminate; [|now elim Hm].
    destruct (closeConnection w2) as [rc w3] eqn:Hc.
    apply closeConnection_spec in Hc as (-> & _). discriminate. }
  destruct rr as [[]|e| |]; [| | discriminate | now elim F1].
  - destruct (main_loop random fuel w1) as [rm w2] eqn:Hm.
    apply main_loop_spends in Hm; [|lia].
    destruct rm as [[]|e| |]; [| | discriminate | now elim Hm].
    + apply Hclose. discriminate.
    + apply Hclose. destruct (is_KeyboardInterrupt e); discriminate.
  - apply Hclose. destruct (is_KeyboardInterrupt e); discriminate.
Qed.

End FuelFacts.

(* ------------------------------------------------------------------ *)
(** ** Environments in which the connection comes back *)

Lemma closes_app (a b : list event) :
  closes (a ++ b) = (closes a + closes b)%nat.
Proof.
  induction a as [|[] a IH]; simpl; rewrite ?IH; reflexivity.
Qed.

Lemma delivered_attempted (tr : list event) :
  delivered tr = successful (attempted tr).
Proof.
  induction tr as [|[| | | | | | | |p []] tr IH]; simpl; rewrite ?IH;
    reflexivity.
Qed.

Lemma delivered_of_attempts (p : bytes) (k : nat) (tr : list event) :
  attempted tr = repeat (p, Raises socket_error) k ++ [(p, Returns)] ->
  delivered tr = [p].
Proof.
  intros H. rewrite delivered_attempted, H. clear H.
  induction k as [|k IH]; simpl; [reflexivity | exact IH].
Qed.

Section Recovery.

Variable random : nat -> Q.

Lemma reopen_loop_attempt (f : failure) (fuel : nat) (d : Q) (w : world)
      (o : list answer) :
  recoverable f -> oracle w = failed_attempt f ++ o ->
  exists w1 tr,
    reopen_loop random (S fuel) d w =
      reopen_loop random fuel (Qmin (d * 2) MAX_DELAY) w1 /\
    oracle w1 = o /\ _queue (self w1) = _queue (self w) /\
    trace w1 = trace w ++ tr /\ quiet tr /\ closes tr = O.
Proof.
  destruct w as [s orc dr t]. simpl. intros Hf ->.
  cbn [reopen_loop].
  unfold bind at 1, try at 1, openConnection, syscall, bind, ask, log,
    set_conn, ret, raise, dbg, uniform.
  destruct f as [e|e]; simpl in *; rewrite Hf, Qgt_bool_min;
    eexists _, _; (split; [reflexivity|]); simpl;
    repeat split; try reflexivity;
    rewrite <- ?app_assoc; simpl; reflexivity.
Qed.

Lemma reopen_loop_recovers (fs : list failure) :
  forall (fuel : nat) (d : Q) (w : world) (o : list answer),
    Forall recoverable fs ->
    oracle w = reconnect_script fs ++ o ->
    (List.length fs < fuel)%nat ->
    exists w' tr,
      reopen_loop random fuel d w = (Return tt, w') /\
      reaches w w' o tr /\ quiet tr /\ closes tr = O.
Proof.
  unfold reconnect_script.
  induction fs as [|f fs IH]; intros fuel d w o Hfs Ho Hfuel.
  - destruct fuel as [|fuel]; [inversion Hfuel|].
    destruct w as [s orc dr t]. simpl in Ho. subst orc.
    eexists _, _. cbn [reopen_loop].
    unfold bind at 1, try at 1, openConnection, syscall, bind, ask, log,
      set_conn, ret, raise. simpl.
    split; [reflexivity|]. split; [split; simpl; try reflexivity; try easy|].
    + rewrite <- app_assoc. reflexivity.
    + split; [split|]; reflexivity.
  - destruct fuel as [|fuel]; [inversion Hfuel|].
    inversion Hfs as [|? ? Hf Hfs']; subst.
    simpl in Ho. rewrite <- !app_assoc in Ho.
    destruct (reopen_loop_attempt f fuel d w _ Hf Ho)
      as (w1 & t1 & -> & Ho1 & Hq1 & Ht1 & Q1 & C1).
    destruct (IH fuel (Qmin (d * 2) MAX_DELAY) w1 o Hfs') as (w' & t2 & -> & [Ro Rq Rc Rt] & Q2 & C2).
    + now rewrite Ho1, <- app_assoc.
    + simpl in Hfuel. lia.
    + exists w', (t1 ++ t2). split; [reflexivity|]. split; [split|].
      * assumption.
      * congruence.
      * assumption.
      * now rewrite Rt, Ht1, app_assoc.
      * split; [now apply quiet_app|]. now rewrite closes_app, C1, C2.
Qed.

Lemma reopenConnection_recovers (fs : list failure) (fuel : nat)
      (w : world) (o : list answer) :
  Forall recoverable fs ->
  oracle w = reconnect_script fs ++ o ->
  (List.length fs < fuel)%nat ->
  exists w' tr,
    reopenConnection random fuel w = (Return tt, w') /\
    reaches w w' o tr /\ quiet tr /\
    closes tr = match _conn (self w) with Some _ => 1%nat | None => O end.
Proof.
  intros Hfs Ho Hfuel. unfold reopenConnection. unfold bind at 1.
  destruct (closeConnection w) as [rc w1] eqn:Hc.
  apply closeConnection_spec in Hc
    as (-> & t1 & [[E1 T1] Q1 _ K1] & _ & _ & C1 & S1).
  simpl in E1.
  destruct (@reopen_loop_recovers fs fuel MIN_DELAY w1 o Hfs)
    as (w' & t2 & -> & [Ro Rq Rc Rt] & Q2 & C2); [congruence|assumption|].
  exists w', (t1 ++ t2). split; [reflexivity|]. split; [split|].
  - assumption.
  - congruence.
  - assumption.
  - now rewrite Rt, T1, app_assoc.
  - split; [now apply quiet_app|]. rewrite closes_app, C2, S1.
    now destruct (_conn (self w)).
Qed.

Lemma reconnect_script_length (fs : list failure) :
  (List.length fs < List.length (reconnect_script fs))%nat.
Proof.
  unfold reconnect_script. rewrite length_app. simpl.
  induction fs as [|[e|e] fs IH]; simpl; rewrite ?length_app; simpl; lia.
Qed.

Lemma send_loop_recovers (ml : str) (p : bytes) (rs : list (list failure)) :
  encode_utf8 ml = Some p ->
  forall (fuel : nat) (w : world) (o : list answer),
    Forall (Forall recoverable) rs ->
    _conn (self w) <> None ->
    oracle w = send_script rs ++ o ->
    (List.length (send_script rs) < fuel)%nat ->
    exists w' tr,
      send_loop random fuel ml w = (Return tt, w') /\
      reaches w w' o tr /\ dequeued tr = [] /\
      attempted tr =
        repeat (p, Raises socket_error) (List.length rs) ++ [(p, Returns)] /\
      closes tr = List.length rs.
Proof.
  intros Hp. unfold send_script.
  induction rs as [|fs rs IH]; intros fuel w o Hrs Hcn Ho Hfuel;
    (destruct fuel as [|fuel]; [inversion Hfuel|]);
    cbn [send_loop]; unfold bind at 1, try at 1;
    unfold bind at 1, encode at 1; rewrite Hp;
    unfold ret at 1, conn_send, bind at 1, get_conn at 1;
    destruct (_conn (self w)) as [cn|] eqn:Hc; try (now elim Hcn);
    destruct w as [s orc dr t]; simpl in Ho, Hc; subst orc;
    unfold syscall, bind, ask, log, ret, raise; simpl.
  - eexists _, [EvSend p Returns]. split; [reflexivity|].
    split; [split; simpl; try reflexivity; congruence|]. now repeat split.
  - inversion Hrs as [|? ? Hfs Hrs']; subst.
    cbn [flat_map app List.length] in Hfuel.
    rewrite !length_app in Hfuel. cbn [List.length] in Hfuel.
    pose proof (reconnect_script_length fs) as Hlen.
    rewrite <- !app_assoc.
    set (w1 := {| self := s; oracle := _; draws := dr; trace := _ |}).
    destruct (@reopenConnection_recovers fs fuel w1 (flat_map
                 (fun fs => Raises socket_error :: reconnect_script fs) rs
                 ++ [Returns] ++ o) Hfs)
      as (w2 & t2 & -> & [Ro Rq Rc Rt] & [Q2a Q2b] & C2);
      [reflexivity | lia |].
    destruct (IH fuel w2 o Hrs' Rc) as (w' & t3 & -> & [Ro3 Rq3 Rc3 Rt3] & D3 & A3 & C3).
    + now rewrite Ro, <- app_assoc.
    + rewrite length_app. simpl. lia.
    + exists w', ([EvSend p (Raises socket_error)] ++ t2 ++ t3).
      split; [reflexivity|]. split; [split|].
      * assumption.
      * now rewrite Rq3, Rq.
      * assumption.
      * rewrite Rt3, Rt. simpl. now rewrite <- !app_assoc.
      * rewrite !dequeued_app, !attempted_app, !closes_app, Q2a, Q2b, D3, A3,
          C2, C3.
        simpl. rewrite Hc. now repeat split.
Qed.

(** One turn of the main loop in such an environment: the head of the
    queue is taken, sent until [send] returns, and the loop goes on with
    the rest of the queue. *)
Lemma main_loop_turn (m : str) (p : bytes) (rs : list (list failure))
      (fuel : nat) (w : world) (q : list str) (o : list answer) :
  framed m p ->
  le_helpers.items (_queue (self w)) = m :: q ->
  Forall (Forall recoverable) rs ->
  _conn (self w) <> None ->
  oracle w = Returns :: send_script rs ++ o ->
  (List.length (send_script rs) < fuel)%nat ->
  exists w' tr,
    main_loop random (S fuel) w = main_loop random fuel w' /\
    oracle w' = o /\ _conn (self w') <> None /\
    le_helpers.items (_queue (self w')) = q /\
    trace w' = trace w ++ tr /\
    dequeued tr = [m] /\
    attempted tr =
      repeat (p, Raises socket_error) (List.length rs) ++ [(p, Returns)] /\
    delivered tr = [p] /\
    closes tr = List.length rs.
Proof.
  intros Hp Hq Hrs Hcn Ho Hfuel.
  cbn [main_loop]. unfold bind at 1, queue_get, bind at 1, ask, le_helpers.get.
  destruct w as [[dm cn [mx qi] l] orc dr t]. simpl in *. subst orc qi.
  cbn [self oracle draws trace _queue _conn daemon life le_helpers.items
       le_helpers.maxsize].
  set (w1 := {| self := _; oracle := _; draws := dr; trace := _ |}).
  destruct (@send_loop_recovers (multiline_of m) p rs Hp fuel w1 o Hrs)
    as (w' & t2 & Hs & [Ro Rq Rc Rt] & D2 & A2 & C2);
    [assumption | reflexivity | assumption |].
  exists w', ([EvGet m] ++ t2). unfold bind at 1. rewrite Hs.
  split; [reflexivity|]. split; [exact Ro|]. split; [exact Rc|].
  split; [now rewrite Rq|].
  split; [rewrite Rt; simpl; now rewrite <- app_assoc|].
  split; [simpl; now rewrite D2|]. split; [exact A2|].
  split; [|exact C2]. simpl. eapply delivered_of_attempts; eauto.
Qed.

End Recovery.

(* ------------------------------------------------------------------ *)
(** ** The backoff delays *)







(* ------------------------------------------------------------------ *)
(** ** The handler: construction and submissions *)

Lemma rstrip_spec (s : str) (c : Z) :
  exists k,
    s = rstrip s c ++ repeat c k /\ (rstrip s c = [] \/ last (rstrip s c) c <> c).
Proof.
  induction s as [|x s (k & Hs & Hl)]; simpl.
  - exists O. auto.
  - destruct (rstrip s c) as [|y r] eqn:Hr.
    + destruct (Z.eqb_spec x c) as [->|Hx].
      * exists (S k). simpl in *. split; [now f_equal|now left].
      * exists k. simpl in *. split; [now f_equal|now right].
    + exists k. split; [simpl in *; now f_equal|]. right.
      destruct Hl as [Hl|Hl]; [discriminate|exact Hl].
Qed.

Lemma rstrip_id (s : str) (c : Z) : last s c <> c -> rstrip s c = s.
Proof.
  induction s as [|x s IH]; simpl; [reflexivity|].
  destruct s as [|y s].
  - simpl. intros Hx. destruct (Z.eqb_spec x c); [contradiction|reflexivity].
  - intros Hl. rewrite (IH Hl). reflexivity.
Qed.

Section HandlerFacts.

Variable record : Type.

Variable format : record -> str.

Variable check_token : str -> bool.

Lemma accept_accept (h : LogentriesHandler) (a b : list str) :
  accept (accept h a) b = accept h (a ++ b).
Proof.
  unfold accept. simpl. now rewrite <- !app_assoc, map_app.
Qed.

Lemma init_fresh (tok : str) :
  LogentriesHandler_init check_token tok = (Return tt, fresh check_token tok).
Proof.
  unfold LogentriesHandler_init, fresh, priming.
  destruct (check_token tok); reflexivity.
Qed.

Lemma queue_put_room (h : LogentriesHandler) (m : str) :
  room h 1 -> queue_put m h = (Return tt, accept h [m]).
Proof.
  unfold room, queue_put, le_helpers.put, le_helpers.full.
  intros H.
  destruct (Z.ltb_spec 0 (le_helpers.maxsize (_queue (_thread h))));
    destruct (Z.leb_spec (le_helpers.maxsize (_queue (_thread h)))
                (Z.of_nat (List.length (le_helpers.items (_queue (_thread h))))));
    simpl; try reflexivity; lia.
Qed.

Lemma queue_put_full (h : LogentriesHandler) (m : str) :
  (0 < le_helpers.maxsize (_queue (_thread h)))%Z ->
  ~ room h 1 -> queue_put m h = (Blocked, h).
Proof.
  unfold room, queue_put, le_helpers.put, le_helpers.full.
  intros Hm H.
  destruct (Z.ltb_spec 0 (le_helpers.maxsize (_queue (_thread h))));
    destruct (Z.leb_spec (le_helpers.maxsize (_queue (_thread h)))
                (Z.of_nat (List.length (le_helpers.items (_queue (_thread h))))));
    simpl; try reflexivity; lia.
Qed.

Lemma emit_settled (h : LogentriesHandler) (r : record) :
  settled h -> emit format r h = queue_put (message format (token h) r) h.
Proof.
  unfold settled, emit. intros ->. reflexivity.
Qed.

Lemma settled_accept (h : LogentriesHandler) (ms : list str) :
  settled h -> settled (accept h ms).
Proof. exact (fun H => H). Qed.

Lemma room_accept (h : LogentriesHandler) (ms : list str) (n : nat) :
  room h (List.length ms + n) -> room (accept h ms) n.
Proof.
  unfold room, accept. simpl. rewrite length_app. lia.
Qed.

Lemma emits_settled_room (rs : list record) :
  forall h : LogentriesHandler,
    settled h -> room h (List.length rs) ->
    emits format rs h =
      (Return tt, accept h (map (message format (token h)) rs)).
Proof.
  induction rs as [|r rs IH]; intros h Hs Hr.
  - simpl. unfold ret, accept. simpl. rewrite !app_nil_r.
    now destruct h as [? ? [? ? [] ?] ?].
  - cbn [emits]. unfold bind. rewrite (emit_settled _ Hs).
    rewrite queue_put_room by (unfold room in *; simpl in Hr; lia).
    rewrite IH.
    + now rewrite accept_accept.
    + now apply settled_accept.
    + apply room_accept. exact Hr.
Qed.

Lemma emits_settled_overflow (rs : list record) :
  forall h : LogentriesHandler,
    settled h -> (0 < le_helpers.maxsize (_queue (_thread h)))%Z ->
    room h 0 -> ~ room h (List.length rs) ->
    exists k, (k < List.length rs)%nat /\
      emits format rs h =
        (Blocked, accept h (map (message format (token h)) (firstn k rs))) /\
      room (accept h (map (message format (token h)) (firstn k rs))) 0 /\
      ~ room (accept h (map (message format (token h)) (firstn k rs))) 1.
Proof.
  induction rs as [|r rs IH]; intros h Hs Hm H0 Hr.
  - now elim Hr.
  - cbn [emits]. unfold bind. rewrite (emit_settled _ Hs).
    destruct (Z_le_gt_dec
                (Z.of_nat (List.length (le_helpers.items (_queue (_thread h)))) + 1)
                (le_helpers.maxsize (_queue (_thread h)))) as [Hfit|Hfull].
    + rewrite queue_put_room by exact Hfit.
      destruct (IH (accept h [message format (token h) r])) as (k & Hk & He & Hz & Hf);
        try assumption.
      * apply room_accept. exact Hfit.
      * intros Hc. apply Hr. unfold room, accept in *. simpl in *.
        rewrite length_app in Hc. simpl in Hc. lia.
      * exists (S k). split; [simpl; lia|]. rewrite He.
        cbn [firstn map token accept]. rewrite accept_accept in *.
        split; [reflexivity | split; [exact Hz | exact Hf]].
    + exists O. split; [simpl; lia|]. simpl.
      assert (Hn : ~ room h 1) by (unfold room; simpl; lia).
      rewrite (queue_put_full _ Hm Hn). unfold accept. simpl.
      rewrite !app_nil_r. split; [|split].
      * now destruct h as [? ? [? ? [] ?] ?].
      * exact H0.
      * unfold room in *. simpl. rewrite ?app_nil_r. exact Hn.
Qed.

Lemma emit_first (h : LogentriesHandler) (r : record) :
  good_config h = true -> life (_thread h) = Initial -> room h 1 ->
  emit format r h =
    (Return tt, accept (started h) [message format (token h) r]).
Proof.
  intros Hg Hl Hr. unfold emit, _started, is_alive. rewrite Hg, Hl. simpl.
  unfold bind at 1. unfold bind at 1, hdbg, hlog_add, thread_start. simpl.
  rewrite Hl.
  set (h1 := {| token := token h; good_config := good_config h;
                _thread := _; hlog := _ |}).
  assert (E : h1 = started h).
  { unfold h1, started. simpl. now rewrite <- app_assoc. }
  rewrite E. apply queue_put_room. exact Hr.
Qed.

Lemma emit_alive (h h' : LogentriesHandler) (r : record) (res : outcome unit) :
  is_alive (_thread h) = true ->
  emit format r h = (res, h') ->
  (res = Return tt /\ h' = accept h [message format (token h) r]) \/
  (res = Blocked /\ h' = h).
Proof.
  intros Ha. rewrite emit_settled by (unfold settled, _started; now rewrite Ha).
  unfold queue_put, accept. destruct (le_helpers.put _ _) as [q|] eqn:Hq.
  - unfold le_helpers.put in Hq.
    destruct (le_helpers.full _); [discriminate|]. injection Hq as <-.
    intros [= <- <-]. now left.
  - intros [= <- <-]. now right.
Qed.

Lemma session_fresh (tok : str) (rs : list record) :
  session format check_token tok rs = emits format rs (fresh check_token tok).
Proof. unfold session. now rewrite init_fresh. Qed.

Lemma room_fresh (tok : str) (n : nat) :
  room (fresh check_token tok) n <-> (Z.of_nat n < QUEUE_SIZE)%Z.
Proof.
  unfold room, fresh, QUEUE_SIZE.
  cbn [_thread _queue le_helpers.items le_helpers.maxsize List.length].
  lia.
Qed.

Lemma settled_invalid (tok : str) :
  check_token tok = false -> settled (fresh check_token tok).
Proof.
  intros H. unfold settled, fresh. simpl. now rewrite H.
Qed.

End HandlerFacts.

(* ------------------------------------------------------------------ *)
(** ** Properties of the delivery pipeline *)

Lemma effect_news (w w' : world) c tr : effect w w' c tr -> news w w' = tr.
Proof.
  intros [_ H]. unfold news. rewrite H, skipn_app, skipn_all, Nat.sub_diag.
  reflexivity.
Qed.

Lemma Forall2_nth_error {A B} (R : A -> B -> Prop) (l : list A) (l' : list B) :
  Forall2 R l l' ->
  forall i b, nth_error l' i = Some b ->
              exists a, nth_error l i = Some a /\ R a b.
Proof.
  induction 1 as [|a b l l' Hab _ IH]; intros [|i] y; simpl; try discriminate.
  - intros [= <-]. eauto.
  - apply IH.
Qed.

Lemma deliveries_nth (q0 : list str) (tr : list event) (i : nat) (p : bytes) :
  deliveries q0 tr -> nth_error (delivered tr) i = Some p ->
  exists data,
    nth_error (dequeued tr) i = Some data /\ nth_error q0 i = Some data /\
    framed data p.
Proof.
  intros [[left F] (done & rest & Hd & Hf & _) _] Hp.
  destruct (Forall2_nth_error Hf _ Hp) as (data & Hdata & Hfr).
  exists data. assert (Hi : nth_error (dequeued tr) i = Some data).
  { rewrite Hd, nth_error_app1; [assumption|].
    apply nth_error_Some. congruence. }
  repeat split; try assumption.
  rewrite F, nth_error_app1; [assumption|].
  apply nth_error_Some. congruence.
Qed.

(** C3. For every message the thread takes from the queue, the bytes it
    transmits are the UTF-8 encoding of the message with each embedded
    newline replaced by the one separator character U+2028, followed by
    exactly one newline terminator; the transmitted bytes are one line.
    Stated for every execution of [run]: the i-th payload for which [send]
    returned belongs to the i-th value taken from the queue. *)
Theorem framing_of_dequeued_messages
        (random : nat -> Q) (fuel : nat) (w : world) (i : nat) (p : bytes) :
  nth_error (delivered (news w (snd (run random fuel w)))) i = Some p ->
  exists data,
    nth_error (dequeued (news w (snd (run random fuel w)))) i = Some data /\
    encode_utf8 (frame_spec data) = Some p /\
    one_line p.
Proof.
  destruct (run random fuel w) as [r w'] eqn:Hrun. simpl.
  apply run_spec in Hrun as (c & tr & E & _ & D).
  rewrite (effect_news E). intros Hp.
  destruct (deliveries_nth _ D Hp) as (data & Hd & _ & Hf).
  exists data. split; [assumption|]. split.
  - now rewrite <- multiline_of_spec.
  - eapply encode_frame_one_line; eauto.
Qed.

Lemma framing_of_dequeued_messages_witness :
  exists data,
    nth_error (dequeued (news sample_world (snd (run half 20 sample_world)))) 1
      = Some data /\
    encode_utf8 (frame_spec data) = Some sample_payload /\
    one_line sample_payload.
Proof.
  apply (@framing_of_dequeued_messages half 20 sample_world 1).
  vm_compute. reflexivity.
Defined.

(** C1. When [send] fails for a dequeued message, the thread reconnects and
    sends the same bytes again, until [send] returns, and only then goes on
    to the next message.  First part: in every execution of [run], every
    value taken from the queue, except the one in progress, has had its
    framing handed to exactly one [send] that returned, in queue order, and
    every payload handed to [send] is the framing of a value taken.  Second
    part: with the message [m] at the head of the queue, in an environment
    where [send] raises [socket.error] as many times as [rs] is long, each
    time followed by a reconnect sequence that succeeds in the end, and then
    returns: with enough fuel one turn of the main loop takes [m], calls
    [send] with the framing of [m] once per failure and once more, calls
    [close] once per failure, and goes on with the rest of the queue. *)
Theorem send_failure_retries_same_message (random : nat -> Q) :
  (forall (fuel : nat) (w : world),
      let tr := news w (snd (run random fuel w)) in
      exists done rest,
        dequeued tr = done ++ rest /\
        Forall2 framed done (delivered tr) /\
        (List.length rest <= 1)%nat /\
        forall p a, In (p, a) (attempted tr) ->
                    exists m, In m (dequeued tr) /\ framed m p) /\
  (forall (m : str) (p : bytes) (rs : list (list failure)) (fuel : nat)
          (w : world) (q : list str) (o : list answer),
      framed m p ->
      le_helpers.items (_queue (self w)) = m :: q ->
      Forall (Forall recoverable) rs ->
      _conn (self w) <> None ->
      oracle w = Returns :: send_script rs ++ o ->
      (List.length (send_script rs) < fuel)%nat ->
      exists w',
        main_loop random (S fuel) w = main_loop random fuel w' /\
        oracle w' = o /\
        le_helpers.items (_queue (self w')) = q /\
        dequeued (news w w') = [m] /\
        attempted (news w w') =
          repeat (p, Raises socket_error) (List.length rs) ++ [(p, Returns)] /\
        delivered (news w w') = [p] /\
        closes (news w w') = List.length rs).
Proof.
  split.
  - intros fuel w. destruct (run random fuel w) as [r w'] eqn:Hrun. simpl.
    apply run_spec in Hrun as (c & tr & E & _ & [_ (done & rest & D) P]).
    rewrite (effect_news E). exists done, rest.
    destruct D as (D1 & D2 & D3). auto.
  - intros m p rs fuel w q o Hp Hq Hrs Hc Ho Hfuel.
    destruct (@main_loop_turn random m p rs fuel w q o Hp Hq Hrs Hc Ho Hfuel)
      as (w' & tr & Hm & Ho' & _ & Hq' & Ht & Hd & Ha & Hv & Hcl).
    exists w'. assert (E : effect w w' (Returns :: send_script rs) tr).
    { split; [|assumption]. now rewrite Ho, Ho'. }
    rewrite (effect_news E). auto 10.
Qed.

Lemma send_failure_retries_same_message_witness :
  exists w',
    main_loop half 12 retry_world = main_loop half 11 w' /\
    oracle w' = [Returns] /\
    le_helpers.items (_queue (self w')) = [lit "second"] /\
    dequeued (news retry_world w') = [lit "first" ++ [NL] ++ lit "line"] /\
    attempted (news retry_world w') =
      repeat (retry_payload, Raises socket_error) 2
      ++ [(retry_payload, Returns)] /\
    delivered (news retry_world w') = [retry_payload] /\
    closes (news retry_world w') = 2%nat.
Proof.
  apply (proj2 (send_failure_retries_same_message half)
               (lit "first" ++ [NL] ++ lit "line") retry_payload
               [[ConnectFails socket_error]; []] 11%nat retry_world
               [lit "second"] [Returns]).
  - reflexivity.
  - reflexivity.
  - repeat constructor.
  - discriminate.
  - reflexivity.
  - vm_compute. lia.
Defined.

(* ------------------------------------------------------------------ *)
(** ** Properties of the handler *)

Lemma starts_puts (l : list event) (ms : list str) :
  starts (l ++ map EvPut ms) = starts l.
Proof.
  induction l as [|[] l IH]; simpl; rewrite ?IH; try reflexivity.
  induction ms as [|m ms IHm]; simpl; auto.
Qed.

Lemma printed_puts (l : list event) (ms : list str) :
  printed (l ++ map EvPut ms) = printed l.
Proof.
  induction l as [|[] l IH]; simpl; rewrite ?IH; try reflexivity.
  induction ms as [|m ms IHm]; simpl; auto.
Qed.

Lemma starts_app (a b : list event) :
  starts (a ++ b) = (starts a + starts b)%nat.
Proof.
  induction a as [|[] a IH]; simpl; rewrite ?IH; reflexivity.
Qed.

Lemma enqueued_app (a b : list event) :
  enqueued (a ++ b) = enqueued a ++ enqueued b.
Proof.
  induction a as [|[] a IH]; simpl; rewrite ?IH; reflexivity.
Qed.

Section Submissions.

Variable record : Type.

Variable format : record -> str.

Variable check_token : str -> bool.

(** Submissions to a handler on which no start is due only ever append
    to its queue, and end by returning or by blocking on a full queue. *)
Lemma emits_settled (rs : list record) (h : LogentriesHandler) :
  settled h -> (0 < le_helpers.maxsize (_queue (_thread h)))%Z ->
  room h 0 ->
  exists ms,
    snd (emits format rs h) = accept h ms /\
    ((fst (emits format rs h) = Return tt /\
      ms = map (message format (token h)) rs) \/
     (fst (emits format rs h) = Blocked /\ ~ room h (List.length rs))).
Proof.
  intros Hs Hm H0.
  destruct (Z_le_gt_dec
              (Z.of_nat (List.length (le_helpers.items (_queue (_thread h))))
               + Z.of_nat (List.length rs))
              (le_helpers.maxsize (_queue (_thread h)))) as [Hfit|Hover].
  - rewrite (emits_settled_room format rs Hs Hfit). simpl. eauto.
  - assert (Hn : ~ room h (List.length rs)) by (unfold room; lia).
    destruct (emits_settled_overflow format rs Hs Hm H0 Hn)
      as (k & _ & -> & _ & _).
    simpl. eauto.
Qed.

End Submissions.

Section HandlerProperties.

Variable record : Type.

Variable format : record -> str.

Variable check_token : str -> bool.

Lemma fresh_maxsize (tok : str) :
  (0 < le_helpers.maxsize (_queue (_thread (fresh check_token tok))))%Z.
Proof. reflexivity. Qed.

Lemma fresh_room0 (tok : str) : room (fresh check_token tok) 0.
Proof. apply room_fresh. reflexivity. Qed.

(** What [emit] does when it returns: one value is appended to the
    queue. *)
Lemma emit_returns (h h' : LogentriesHandler) (r : record) :
  emit format r h = (Return tt, h') ->
  le_helpers.items (_queue (_thread h')) =
    le_helpers.items (_queue (_thread h)) ++ [message format (token h) r] /\
  enqueued (hlog h') = enqueued (hlog h) ++ [message format (token h) r].
Proof.
  unfold emit. unfold bind at 1.
  destruct (negb (_started h) && good_config h).
  - unfold bind at 1, hdbg, hlog_add, thread_start. simpl.
    destruct (life (_thread h)); try discriminate.
    unfold queue_put, le_helpers.put. simpl.
    destruct (le_helpers.full _); [discriminate|].
    intros [= <-]. simpl. rewrite !enqueued_app. simpl.
    now rewrite !app_nil_r.
  - unfold ret, queue_put, le_helpers.put. simpl.
    destruct (le_helpers.full _); [discriminate|].
    intros [= <-]. simpl. now rewrite enqueued_app.
Qed.

(** C7 (as the code has it).  For every submitted record, when [emit]
    returns, the string it has appended to the queue is the access token
    followed by the formatted text with its trailing newlines removed:
    [emit] applies [rstrip('\n')] to the formatted text before it prepends
    the token.  The formatted text is the enqueued suffix followed by
    newlines only; a formatted text that does not end in a newline is
    enqueued unchanged after the token. *)
Theorem emit_enqueues_token_and_stripped_text
        (h h' : LogentriesHandler) (r : record) :
  emit format r h = (Return tt, h') ->
  le_helpers.items (_queue (_thread h')) =
    le_helpers.items (_queue (_thread h))
    ++ [token h ++ rstrip (format r) NL] /\
  enqueued (hlog h') = enqueued (hlog h) ++ [token h ++ rstrip (format r) NL] /\
  (exists k,
      format r = rstrip (format r) NL ++ repeat NL k /\
      (rstrip (format r) NL = [] \/ last (rstrip (format r) NL) NL <> NL)) /\
  (last (format r) NL <> NL -> rstrip (format r) NL = format r).
Proof.
  intros H. apply emit_returns in H as [Hq Hl].
  split; [exact Hq|]. split; [exact Hl|]. split.
  - apply rstrip_spec.
  - apply rstrip_id.
Qed.

(** The handler of a rejected token after any submissions. *)
Lemma session_invalid (tok : str) (rs : list record) :
  check_token tok = false ->
  exists ms,
    snd (session format check_token tok rs) = accept (fresh check_token tok) ms /\
    ((fst (session format check_token tok rs) = Return tt /\
      ms = map (message format tok) rs) \/
     (fst (session format check_token tok rs) = Blocked /\
      (QUEUE_SIZE <= Z.of_nat (List.length rs))%Z)).
Proof.
  intros Hc. rewrite session_fresh.
  destruct (emits_settled format rs (settled_invalid check_token tok Hc)
                          (fresh_maxsize tok) (@fresh_room0 tok))
    as (ms & Hs & [[Hr Hm]|[Hr Hm]]).
  - exists ms. split; [exact Hs|]. left. now split.
  - exists ms. split; [exact Hs|]. right. split; [exact Hr|].
    rewrite room_fresh in Hm. lia.
Qed.

Lemma session_invalid_overflow (tok : str) (rs : list record) :
  check_token tok = false ->
  (QUEUE_SIZE <= Z.of_nat (List.length rs))%Z ->
  fst (session format check_token tok rs) = Blocked /\
  Z.of_nat
    (List.length
       (le_helpers.items
          (_queue (_thread (snd (session format check_token tok rs))))))
  = QUEUE_SIZE.
Proof.
  intros Hc Hn. rewrite session_fresh.
  assert (Hr : ~ room (fresh check_token tok) (List.length rs))
    by (rewrite room_fresh; lia).
  destruct (emits_settled_overflow format rs
              (settled_invalid check_token tok Hc) (fresh_maxsize tok)
              (@fresh_room0 tok) Hr) as (k & Hk & -> & Hz & Hfull).
  split; [reflexivity|].
  unfold room in Hz, Hfull. cbn [fst snd] in *.
  change (le_helpers.maxsize
            (_queue (_thread (accept (fresh check_token tok)
               (map (message format (token (fresh check_token tok)))
                    (firstn k rs))))))
    with QUEUE_SIZE in *.
  lia.
Qed.

(** C4 (as the code has it).  When the token fails the validity check at
    construction, no number of submissions starts the thread, no submission
    raises an error, exactly one diagnostic line is printed (by the
    constructor), and every submission made while the queue has a free slot
    is accepted: the constructor's priming message takes one of the
    [QUEUE_SIZE] slots, so the first [QUEUE_SIZE - 1] submissions are
    accepted, in order. *)
Theorem invalid_token_never_starts (tok : str) (rs : list record) :
  check_token tok = false ->
  let res := fst (session format check_token tok rs) in
  let h := snd (session format check_token tok rs) in
  life (_thread h) = Initial /\
  starts (hlog h) = O /\
  printed (hlog h) = [LE ++ INVALID_TOKEN] /\
  (forall e, res <> Raise e) /\
  ((Z.of_nat (List.length rs) < QUEUE_SIZE)%Z ->
   res = Return tt /\
   le_helpers.items (_queue (_thread h)) =
     priming tok :: map (fun r => tok ++ rstrip (format r) NL) rs).
Proof.
  intros Hc. cbv zeta.
  destruct (@session_invalid tok rs Hc) as (ms & -> & Hres).
  unfold accept, fresh. simpl. rewrite Hc.
  rewrite starts_puts, printed_puts. simpl.
  repeat split.
  - intros e He. destruct Hres as [[Hr _]|[Hr _]]; congruence.
  - destruct Hres as [[Hr _]|[_ Hr]]; [exact Hr | lia].
  - destruct Hres as [[_ ->]|[_ Hr]]; [reflexivity | lia].
Qed.

(** C10.  With a rejected token the thread never starts and never takes
    anything from the queue, so acceptance is bounded by the capacity: after
    [QUEUE_SIZE - 1] submissions (one slot is taken by the priming message)
    the queue holds [QUEUE_SIZE] values, and the next submission blocks and
    leaves the handler as it was, so it blocks again however often it is
    retried. *)
Theorem invalid_token_queue_fills (tok : str) (rs : list record) (r : record) :
  check_token tok = false ->
  Z.of_nat (List.length rs) = (QUEUE_SIZE - 1)%Z ->
  let h := snd (session format check_token tok rs) in
  fst (session format check_token tok rs) = Return tt /\
  Z.of_nat (List.length (le_helpers.items (_queue (_thread h)))) = QUEUE_SIZE /\
  life (_thread h) = Initial /\
  emit format r h = (Blocked, h).
Proof.
  intros Hc Hn. cbv zeta.
  destruct (@session_invalid tok rs Hc) as (ms & Hs & [[Hr ->]|[_ Hr]]);
    [|lia].
  rewrite Hs. split; [exact Hr|].
  assert (Hlen : Z.of_nat
                   (List.length
                      (le_helpers.items
                         (_queue (_thread (accept (fresh check_token tok)
                                                  (map (message format tok) rs))))))
                 = QUEUE_SIZE).
  { unfold accept, fresh. simpl. rewrite length_map. lia. }
  split; [exact Hlen|]. split; [reflexivity|].
  rewrite emit_settled by (apply settled_accept, settled_invalid, Hc).
  apply queue_put_full; [reflexivity|].
  unfold room. rewrite Hlen. simpl. unfold QUEUE_SIZE. lia.
Qed.

(** The handler of an accepted token after a first submission and any
    further ones. *)
Lemma session_valid (tok : str) (r : record) (rs : list record) :
  check_token tok = true ->
  exists ms,
    snd (session format check_token tok (r :: rs)) =
      accept (started (fresh check_token tok)) (message format tok r :: ms) /\
    (fst (session format check_token tok (r :: rs)) = Return tt \/
     fst (session format check_token tok (r :: rs)) = Blocked).
Proof.
  intros Hc. rewrite session_fresh. cbn [emits]. unfold bind.
  rewrite emit_first;
    [| unfold fresh; simpl; exact Hc | reflexivity
     | apply room_fresh; reflexivity ].
  set (h1 := accept (started (fresh check_token tok)) _).
  assert (Hs : settled h1) by reflexivity.
  assert (Hm : (0 < le_helpers.maxsize (_queue (_thread h1)))%Z) by reflexivity.
  assert (H0 : room h1 0).
  { unfold room, h1, accept, started, fresh, QUEUE_SIZE.
    cbn [_thread _queue le_helpers.items le_helpers.maxsize List.length app].
    lia. }
  destruct (emits_settled format rs Hs Hm H0) as (ms & -> & Hres).
  exists ms. unfold h1. rewrite accept_accept. split; [reflexivity|].
  destruct Hres as [[Hr _]|[Hr _]]; auto.
Qed.

(** [start] is only ever performed on a thread in its initial state. *)
Lemma emit_starts (h : LogentriesHandler) (r : record) :
  life (_thread h) <> Initial ->
  starts (hlog (snd (emit format r h))) = starts (hlog h).
Proof.
  intros Hl. unfold emit. unfold bind at 1.
  destruct (negb (_started h) && good_config h).
  - unfold bind at 1, hdbg, hlog_add, thread_start. simpl.
    destruct (life (_thread h)); [now elim Hl|..]; simpl;
      rewrite starts_app; simpl; lia.
  - unfold ret, queue_put. destruct (le_helpers.put _ _); simpl;
      [rewrite starts_app; simpl; lia | reflexivity].
Qed.

(** Once the thread has terminated, [_started] is false again and [emit]
    calls [start] on it, which [threading] refuses. *)
Lemma emit_after_exit (h : LogentriesHandler) (r : record) :
  life (_thread h) = Stopped -> good_config h = true ->
  fst (emit format r h) = Raise RuntimeError.
Proof.
  intros Hl Hg. unfold emit, _started, is_alive. rewrite Hl, Hg. simpl.
  unfold bind, hdbg, hlog_add, thread_start. simpl. now rewrite Hl.
Qed.

(** C6.  The thread is not started by the constructor; with an accepted
    token it is started by the first submission, once: whatever the number
    of further submissions, none of them raises, the handler's events
    contain one start, it precedes the first enqueued message, and nothing
    but the enqueuing of messages follows it.  A submission to a handler
    whose thread is alive makes no call of [start]: it prints nothing, and
    either it enqueues its message and returns or it waits on the full
    queue with the handler unchanged; no submission starts a thread that
    has been started before. *)
Theorem thread_started_once_on_first_submission :
  (forall tok,
      let h := snd (LogentriesHandler_init check_token tok) in
      life (_thread h) = Initial /\ starts (hlog h) = O) /\
  (forall tok r rs,
      check_token tok = true ->
      let h := snd (session format check_token tok (r :: rs)) in
      life (_thread h) = Started /\
      starts (hlog h) = 1%nat /\
      exists l,
        hlog h =
          [EvPut (priming tok); starting_line; EvStart;
           EvPut (message format tok r)] ++ l /\
        starts l = O) /\
  (forall tok r rs,
      check_token tok = true ->
      (forall e, fst (session format check_token tok (r :: rs)) <> Raise e) /\
      exists ms,
        hlog (snd (session format check_token tok (r :: rs))) =
          [EvPut (priming tok); starting_line; EvStart]
          ++ map EvPut (message format tok r :: ms)) /\
  (forall h r,
      is_alive (_thread h) = true ->
      let h' := snd (emit format r h) in
      is_alive (_thread h') = true /\ starts (hlog h') = starts (hlog h)) /\
  (forall h r,
      is_alive (_thread h) = true ->
      emit format r h =
        (Return tt,
         {| token := token h; good_config := good_config h;
            _thread :=
              {| daemon := daemon (_thread h); _conn := _conn (_thread h);
                 _queue :=
                   {| le_helpers.maxsize :=
                        le_helpers.maxsize (_queue (_thread h));
                      le_helpers.items :=
                        le_helpers.items (_queue (_thread h))
                        ++ [token h ++ rstrip (format r) NL] |};
                 life := life (_thread h) |};
            hlog := hlog h ++ [EvPut (token h ++ rstrip (format r) NL)] |})
      \/ emit format r h = (Blocked, h)) /\
  (forall h r,
      life (_thread h) <> Initial ->
      starts (hlog (snd (emit format r h))) = starts (hlog h)).
Proof.
  split; [|split; [|split; [|split; [|split; [|exact emit_starts]]]]].
  - intros tok. rewrite init_fresh. unfold fresh. simpl.
    split; [reflexivity|]. now destruct (check_token tok).
  - intros tok r rs Hc. cbv zeta.
    destruct (@session_valid tok r rs Hc) as (ms & -> & _).
    unfold accept, started, fresh. simpl. rewrite Hc. simpl.
    split; [reflexivity|].
    assert (Hz : starts (map EvPut ms) = O)
      by (clear; induction ms; simpl; auto).
    split; [now rewrite Hz|]. exists (map EvPut ms). now split.
  - intros tok r rs Hc.
    destruct (@session_valid tok r rs Hc) as (ms & Hs & Hres).
    split.
    + intros e He. destruct Hres as [H|H]; rewrite H in He; discriminate.
    + exists ms. rewrite Hs. unfold accept, started, fresh. simpl.
      now rewrite Hc.
  - intros h r Ha. cbv zeta.
    destruct (emit format r h) as [res h'] eqn:He. simpl.
    destruct (@emit_alive record format h h' r res Ha He) as [[_ ->]|[_ ->]].
    + unfold accept. simpl. split; [exact Ha|].
      apply (starts_puts (hlog h) [message format (token h) r]).
    + now split.
  - intros h r Ha.
    destruct (emit format r h) as [res h'] eqn:He.
    destruct (@emit_alive record format h h' r res Ha He)
      as [[-> ->]|[-> ->]]; [left|right]; reflexivity.
Qed.

End HandlerProperties.

(** A formatted text that ends in a newline: [emit] does not enqueue the
    token followed by that text. *)
Lemma emit_keeps_trailing_newline_counterexample :
  ~ (forall (format : str -> str) (h h' : LogentriesHandler) (r : str),
        emit format r h = (Return tt, h') ->
        last (le_helpers.items (_queue (_thread h'))) [] = token h ++ format r).
Proof.
  intros H.
  pose (h := fresh uuid_shaped sample_token).
  pose (r := lit "a" ++ [NL]).
  assert (E : emit as_is r h = (Return tt, snd (emit as_is r h)))
    by (vm_compute; reflexivity).
  apply H in E. vm_compute in E. discriminate E.
Qed.

Lemma emit_enqueues_token_and_stripped_text_witness :
  let h := fresh uuid_shaped sample_token in
  let r := lit "a" ++ [NL] in
  let h' := snd (emit as_is r h) in
  emit as_is r h = (Return tt, h') /\
  le_helpers.items (_queue (_thread h')) =
    le_helpers.items (_queue (_thread h)) ++ [token h ++ rstrip (as_is r) NL].
Proof.
  cbv zeta. split; [vm_compute; reflexivity|].
  apply (@emit_enqueues_token_and_stripped_text str as_is
           (fresh uuid_shaped sample_token)
           (snd (emit as_is (lit "a" ++ [NL])
                      (fresh uuid_shaped sample_token)))
           (lit "a" ++ [NL])).
  vm_compute. reflexivity.
Defined.

(** With a rejected token, the submission that finds the queue full is not
    accepted: of [QUEUE_SIZE] submissions the last one blocks. *)
Lemma invalid_token_submission_blocks_counterexample :
  let rs := repeat (lit "x") (Z.to_nat QUEUE_SIZE) in
  uuid_shaped bad_token = false /\
  fst (session as_is uuid_shaped bad_token rs) = Blocked /\
  Z.of_nat
    (List.length
       (le_helpers.items
          (_queue (_thread (snd (session as_is uuid_shaped bad_token rs))))))
  = QUEUE_SIZE.
Proof.
  cbv zeta. split; [reflexivity|].
  apply session_invalid_overflow; [reflexivity|].
  rewrite repeat_length, Z2Nat.id; [apply Z.le_refl | discriminate].
Qed.

Lemma invalid_token_never_starts_witness :
  let rs := [lit "a"; lit "b" ++ [NL]] in
  let res := fst (session as_is uuid_shaped bad_token rs) in
  let h := snd (session as_is uuid_shaped bad_token rs) in
  uuid_shaped bad_token = false /\
  (Z.of_nat (List.length rs) < QUEUE_SIZE)%Z /\
  life (_thread h) = Initial /\
  starts (hlog h) = O /\
  printed (hlog h) = [LE ++ INVALID_TOKEN] /\
  res = Return tt /\
  le_helpers.items (_queue (_thread h)) =
    priming bad_token
    :: map (fun r => bad_token ++ rstrip (as_is r) NL) rs.
Proof.
  cbv zeta. split; [reflexivity|]. split; [reflexivity|].
  destruct (@invalid_token_never_starts str as_is uuid_shaped bad_token
              [lit "a"; lit "b" ++ [NL]] eq_refl)
    as (H1 & H2 & H3 & _ & H5).
  destruct (H5 eq_refl) as [H6 H7]. auto 10.
Defined.

Lemma invalid_token_queue_fills_witness :
  let rs := repeat (lit "x") (Z.to_nat (QUEUE_SIZE - 1)) in
  let h := snd (session as_is uuid_shaped bad_token rs) in
  uuid_shaped bad_token = false /\
  Z.of_nat (List.length rs) = (QUEUE_SIZE - 1)%Z /\
  fst (session as_is uuid_shaped bad_token rs) = Return tt /\
  Z.of_nat (List.length (le_helpers.items (_queue (_thread h)))) = QUEUE_SIZE /\
  life (_thread h) = Initial /\
  emit as_is (lit "one more") h = (Blocked, h).
Proof.
  cbv zeta. split; [reflexivity|].
  assert (Hn : Z.of_nat
                 (List.length (repeat (lit "x") (Z.to_nat (QUEUE_SIZE - 1))))
               = (QUEUE_SIZE - 1)%Z)
    by (rewrite repeat_length; apply Z2Nat.id; discriminate).
  split; [exact Hn|].
  exact (@invalid_token_queue_fills str as_is uuid_shaped bad_token
           (repeat (lit "x") (Z.to_nat (QUEUE_SIZE - 1))) (lit "one more")
           eq_refl Hn).
Defined.

Lemma thread_started_once_on_first_submission_witness :
  let h := snd (session as_is uuid_shaped sample_token
                        [lit "a"; lit "b"; lit "c"]) in
  uuid_shaped sample_token = true /\
  life (_thread h) = Started /\ starts (hlog h) = 1%nat.
Proof.
  cbv zeta. split; [reflexivity|].
  destruct (proj1 (proj2 (@thread_started_once_on_first_submission
                            str as_is uuid_shaped))
                  sample_token (lit "a") [lit "b"; lit "c"] eq_refl)
    as (H1 & H2 & _).
  split; assumption.
Defined.

(* ------------------------------------------------------------------ *)
(** ** The reconnect backoff *)

Section BackoffTrace.

Variable random : nat -> Q.













End BackoffTrace.



(* ------------------------------------------------------------------ *)
(** ** Interruption *)

Lemma first_interrupt (pre post c0 rest : list answer) :
  pre ++ KI :: post = c0 ++ KI :: rest ->
  ~ In KI pre -> ~ In KI c0 -> pre = c0 /\ post = rest.
Proof.
  revert c0. induction pre as [|a pre IH]; intros [|b c0]; simpl.
  - now intros [= ->].
  - intros [= <- _] _ H. elim H. now left.
  - intros [= -> _] H _. elim H. now left.
  - intros [= -> H] Hp Hc. destruct (IH c0 H) as [-> ->]; auto.
Qed.

Lemma consumed_interrupt (pre post c rest : list answer) :
  pre ++ KI :: post = c ++ rest ->
  (List.length rest <= List.length post)%nat -> In KI c.
Proof.
  intros H Hlen.
  assert (Hl : (List.length pre < List.length c)%nat).
  { apply (f_equal (@List.length answer)) in H.
    rewrite !length_app in H. simpl in H. lia. }
  assert (Hn : nth_error (pre ++ KI :: post) (List.length pre) = Some KI)
    by (rewrite nth_error_app2, Nat.sub_diag; [reflexivity | lia]).
  rewrite H, nth_error_app1 in Hn by exact Hl.
  eapply nth_error_In; eauto.
Qed.

(** What [emit] does for a handler with an accepted token whose thread has
    terminated. *)
Lemma emit_stopped (record : Type) (format : record -> str)
      (h : LogentriesHandler) (r : record) :
  life (_thread h) = Stopped -> good_config h = true ->
  emit format r h =
    (Raise RuntimeError,
     {| token := token h; good_config := good_config h;
        _thread := _thread h; hlog := hlog h ++ [starting_line] |}).
Proof.
  destruct h as [tok g [dm cn q l] lg]. simpl. intros -> ->.
  unfold emit, _started, is_alive. simpl.
  unfold bind, hdbg, hlog_add, thread_start. reflexivity.
Qed.

(** C8.  [KeyboardInterrupt] never leaves [run].  When it is raised by a
    call on which the thread waits ([socket.socket], [connect],
    [time.sleep], [Queue.get] or [send]: whichever call consumes the first
    interrupt of the environment), no loop retries: that answer is the last
    one the thread consumes, [run] prints one line, closes the socket if
    there is one and returns normally.  The producers do not stay
    unaffected: once the thread of a handler with an accepted token has
    ended in this way, [_started] is false again, and the next submission
    prints the starting line and calls [start] a second time, which raises
    [RuntimeError] in the producer; the message is not put on the queue,
    which stays as the thread left it. *)
Theorem interrupt_ends_the_thread (random : nat -> Q) :
  (forall (fuel : nat) (w : world),
      fst (run random fuel w) <> Raise KeyboardInterrupt) /\
  (forall (fuel : nat) (w : world) (pre post : list answer),
      oracle w = pre ++ Raises KeyboardInterrupt :: post ->
      ~ In (Raises KeyboardInterrupt) pre ->
      (List.length (oracle (snd (run random fuel w))) <= List.length post)%nat ->
      fst (run random fuel w) = Return tt /\
      oracle (snd (run random fuel w)) = post /\
      closed (self (snd (run random fuel w))) /\
      exists tr0,
        news w (snd (run random fuel w)) = tr0 ++ [interrupted_line] \/
        news w (snd (run random fuel w)) = tr0 ++ [interrupted_line; EvClose]) /\
  (forall (record : Type) (format : record -> str) (h : LogentriesHandler)
          (fuel : nat) (pre post : list answer) (r : record),
      good_config h = true ->
      ~ In (Raises KeyboardInterrupt) pre ->
      let w := world_of h (pre ++ Raises KeyboardInterrupt :: post) in
      (List.length (oracle (snd (run random fuel w))) <= List.length post)%nat ->
      let h' := terminated h (snd (run random fuel w)) in
      fst (run random fuel w) = Return tt /\
      is_alive (_thread h') = false /\
      emit format r h' =
        (Raise RuntimeError,
         {| token := token h; good_config := good_config h;
            _thread := _thread h'; hlog := hlog h ++ [starting_line] |}) /\
      _queue (_thread (snd (emit format r h')))
        = _queue (self (snd (run random fuel w))) /\
      enqueued (hlog (snd (emit format r h'))) = enqueued (hlog h)).
Proof.
  assert (Hint : forall (fuel : nat) (w : world) (pre post : list answer),
      oracle w = pre ++ Raises KeyboardInterrupt :: post ->
      ~ In (Raises KeyboardInterrupt) pre ->
      (List.length (oracle (snd (run random fuel w))) <= List.length post)%nat ->
      fst (run random fuel w) = Return tt /\
      oracle (snd (run random fuel w)) = post /\
      closed (self (snd (run random fuel w))) /\
      exists tr0,
        news w (snd (run random fuel w)) = tr0 ++ [interrupted_line] \/
        news w (snd (run random fuel w)) = tr0 ++ [interrupted_line; EvClose]);
    [|split; [|split; [exact Hint|]]].
  3: { intros record format h fuel pre post r Hg Hpre w Hlen h'.
       destruct (Hint fuel w pre post eq_refl Hpre Hlen) as (Hr & _).
       split; [exact Hr|]. split; [reflexivity|].
       assert (He : emit format r h' =
                      (Raise RuntimeError,
                       {| token := token h; good_config := good_config h;
                          _thread := _thread h';
                          hlog := hlog h ++ [starting_line] |}))
         by (apply (@emit_stopped record format h' r); [reflexivity|exact Hg]).
       split; [exact He|]. rewrite He. cbn [snd _thread hlog].
       split; [reflexivity|].
       rewrite enqueued_app. simpl. apply app_nil_r. }
  2: { intros fuel w. destruct (run random fuel w) as [r w'] eqn:Hrun. simpl.
       apply run_spec in Hrun as (c & tr & _ & [_ H] & _). exact H. }
  - intros fuel w pre post Ho Hpre.
    destruct (run random fuel w) as [r w'] eqn:Hrun. simpl. intros Hlen.
    apply run_spec in Hrun as (c & tr & E & [H _] & _).
    rewrite (effect_news E). destruct E as [Ec _].
    rewrite Ho in Ec.
    destruct (H (consumed_interrupt _ _ _ _ Ec Hlen))
      as (-> & (c0 & -> & Hc0) & Hcl & Htr).
    rewrite <- app_assoc in Ec. simpl in Ec.
    destruct (first_interrupt _ _ _ _ Ec Hpre Hc0) as [_ ->].
    auto.
Qed.

(** An interrupt at each of the calls on which the thread waits: in
    [connect], in the backoff sleep, in [Queue.get] and in [send]. *)
Lemma interrupt_ends_the_thread_witness :
  let at_connect := world_of sample_handler [Returns; KI; Returns] in
  let at_sleep :=
    world_of sample_handler [Returns; Raises socket_error; KI; Returns] in
  let at_get := world_of sample_handler [Returns; Returns; KI; Returns] in
  let at_send :=
    world_of sample_handler [Returns; Returns; Returns; KI; Returns] in
  (fst (run half 9 at_connect) = Return tt /\
   oracle (snd (run half 9 at_connect)) = [Returns] /\
   closed (self (snd (run half 9 at_connect)))) /\
  (fst (run half 9 at_sleep) = Return tt /\
   oracle (snd (run half 9 at_sleep)) = [Returns] /\
   closed (self (snd (run half 9 at_sleep)))) /\
  (fst (run half 9 at_get) = Return tt /\
   oracle (snd (run half 9 at_get)) = [Returns] /\
   closed (self (snd (run half 9 at_get)))) /\
  (fst (run half 9 at_send) = Return tt /\
   oracle (snd (run half 9 at_send)) = [Returns] /\
   closed (self (snd (run half 9 at_send)))) /\
  fst (emit as_is (lit "next")
            (terminated sample_handler (snd (run half 9 at_get))))
    = Raise RuntimeError.
Proof.
  cbv zeta.
  assert (G : fst (emit as_is (lit "next")
                        (terminated sample_handler
                           (snd (run half 9
                                   (world_of sample_handler
                                      ([Returns; Returns] ++ KI :: [Returns]))))))
              = Raise RuntimeError).
  { destruct (proj2 (proj2 (interrupt_ends_the_thread half))
                    str as_is sample_handler 9%nat [Returns; Returns]
                    [Returns] (lit "next"))
      as (_ & _ & He & _);
      [ reflexivity | simpl; intuition discriminate | vm_compute; lia |].
    exact (f_equal fst He). }
  assert (H : forall pre : list answer,
             ~ In KI pre ->
             (List.length
                (oracle (snd (run half 9
                                  (world_of sample_handler
                                            (pre ++ KI :: [Returns])))))
              <= 1)%nat ->
             let w := world_of sample_handler (pre ++ KI :: [Returns]) in
             fst (run half 9 w) = Return tt /\
             oracle (snd (run half 9 w)) = [Returns] /\
             closed (self (snd (run half 9 w)))).
  { intros pre Hpre Hlen. cbv zeta.
    destruct (proj1 (proj2 (interrupt_ends_the_thread half)) 9%nat
                    (world_of sample_handler (pre ++ KI :: [Returns]))
                    pre [Returns] eq_refl Hpre Hlen)
      as (H1 & H2 & H3 & _).
    auto. }
  split; [|split; [|split; [|split; [|exact G]]]].
  all: first
         [ apply (H [Returns])
         | apply (H [Returns; Raises socket_error])
         | apply (H [Returns; Returns])
         | apply (H [Returns; Returns; Returns]) ];
    [ simpl; intuition discriminate | vm_compute; lia ].
Defined.

(* ------------------------------------------------------------------ *)
(** ** The priming message and the first line *)

Lemma replace_app (a b : str) (old : Z) (new : str) :
  replace (a ++ b) old new = replace a old new ++ replace b old new.
Proof. apply flat_map_app. Qed.

Lemma replace_absent (s : str) (old : Z) (new : str) :
  ~ In old s -> replace s old new = s.
Proof.
  induction s as [|c s IH]; simpl; [reflexivity|]. intros H.
  destruct (Z.eqb_spec c old) as [->|_]; [elim H; now left|].
  simpl. f_equal. apply IH. intros Hin. apply H. now right.
Qed.

Lemma multiline_of_priming (tok : str) :
  multiline_of (priming tok) =
  replace tok NL LINE_SEP ++ LIBRARY_IDENTIFIER ++ [0x2028%Z; NL].
Proof.
  unfold multiline_of, priming, le_helpers.is_unicode. simpl negb. cbv iota.
  rewrite !replace_app, <- !app_assoc. reflexivity.
Qed.

(** The bytes sent for the priming message. *)
Lemma priming_frame (tok : str) (p : bytes) :
  framed (priming tok) p ->
  exists b,
    encode_utf8 (replace tok NL LINE_SEP ++ LIBRARY_IDENTIFIER) = Some b /\
    p = b ++ [0xE2%Z; 0x80%Z; 0xA8%Z; NL].
Proof.
  unfold framed. rewrite multiline_of_priming, app_assoc, encode_utf8_app.
  destruct (encode_utf8 (replace tok NL LINE_SEP ++ LIBRARY_IDENTIFIER))
    as [b|]; [|discriminate].
  intros [= <-]. now exists b.
Qed.

Lemma session_queue_head (record : Type) (format : record -> str)
      (check_token : str -> bool) (tok : str) (rs : list record) :
  exists more,
    le_helpers.items
      (_queue (_thread (snd (session format check_token tok rs))))
    = priming tok :: more.
Proof.
  destruct (check_token tok) eqn:Hc.
  - destruct rs as [|r rs].
    + rewrite session_fresh. simpl. eauto.
    + destruct (@session_valid record format check_token tok r rs Hc)
        as (ms & -> & _).
      simpl. eauto.
  - destruct (@session_invalid record format check_token tok rs Hc)
      as (ms & -> & _).
    simpl. eauto.
Qed.

(** The first payload for which [send] returns is the framing of the head
    of the queue the thread started with. *)
Lemma first_delivery (random : nat -> Q) (fuel : nat) (w : world)
      (m : str) (q : list str) (p : bytes) :
  le_helpers.items (_queue (self w)) = m :: q ->
  nth_error (delivered (news w (snd (run random fuel w)))) 0 = Some p ->
  framed m p.
Proof.
  intros Hq. destruct (run random fuel w) as [r w'] eqn:Hrun. cbn [snd].
  apply run_spec in Hrun as (c & tr & E & _ & D).
  rewrite (effect_news E). intros Hp.
  destruct (deliveries_nth _ D Hp) as (data & _ & Hd & Hf).
  rewrite Hq in Hd. now injection Hd as <-.
Qed.

(** C9.  Every payload the thread hands to [send] holds exactly one newline,
    its last byte.  The priming message is enqueued with a newline of its
    own, which the send loop replaces by the separator before it appends the
    terminator: the text sent for it ends with U+2028 followed by the
    newline, and the first line transmitted for a handler ends with the
    three bytes of U+2028 followed by the newline. *)
Theorem payloads_are_single_lines :
  (forall (random : nat -> Q) (fuel : nat) (w : world) (p : bytes)
          (a : answer),
      In (p, a) (attempted (news w (snd (run random fuel w)))) ->
      one_line p) /\
  (forall tok : str,
      multiline_of (priming tok) =
      replace tok NL LINE_SEP ++ LIBRARY_IDENTIFIER ++ [0x2028%Z; NL]) /\
  (forall (record : Type) (format : record -> str)
          (check_token : str -> bool) (tok : str) (rs : list record)
          (random : nat -> Q) (fuel : nat) (o : list answer) (p : bytes),
      nth_error
        (delivered
           (trace (snd (run random fuel
                            (world_of (snd (session format check_token tok rs))
                                      o))))) 0 = Some p ->
      one_line p /\
      exists body, p = body ++ [0xE2%Z; 0x80%Z; 0xA8%Z; NL]).
Proof.
  split; [|split].
  - intros random fuel w p a.
    destruct (run random fuel w) as [r w'] eqn:Hrun. simpl.
    apply run_spec in Hrun as (c & tr & E & _ & [_ _ P]).
    rewrite (effect_news E). intros Hin.
    destruct (P _ _ Hin) as (m & _ & Hf).
    eapply encode_frame_one_line; eauto.
  - apply multiline_of_priming.
  - intros record format check_token tok rs random fuel o p Hp.
    destruct (session_queue_head format check_token tok rs) as (more & Hq).
    assert (Hf : framed (priming tok) p).
    { eapply (@first_delivery random fuel
                (world_of (snd (session format check_token tok rs)) o)).
      - exact Hq.
      - unfold news. simpl. exact Hp. }
    split.
    + eapply encode_frame_one_line; eauto.
    + destruct (@priming_frame tok p Hf) as (b & _ & ->). now exists b.
Qed.

Lemma payloads_are_single_lines_witness :
  nth_error (delivered (trace (snd (run half 20 sample_world)))) 0
    = Some first_line /\
  one_line first_line /\
  exists body, first_line = body ++ [0xE2%Z; 0x80%Z; 0xA8%Z; NL].
Proof.
  assert (E : nth_error (delivered (trace (snd (run half 20 sample_world)))) 0
              = Some first_line) by (vm_compute; reflexivity).
  split; [exact E|].
  exact (proj2 (proj2 payloads_are_single_lines) str as_is uuid_shaped
               sample_token [lit "hello" ++ [NL] ++ lit "world"] half 20%nat
               _ first_line E).
Defined.

(** In an environment where the connection is established, after the
    failed attempts [fs], and the first [send] returns, after the failures
    [rss], the framing of the head of the queue is the first payload
    transmitted, whatever happens afterwards. *)
Lemma run_delivers_head (random : nat -> Q) (fs : list failure)
      (rss : list (list failure)) (fuel : nat) (w : world)
      (m : str) (q : list str) (p : bytes) (o : list answer) :
  le_helpers.items (_queue (self w)) = m :: q ->
  framed m p ->
  Forall recoverable fs -> Forall (Forall recoverable) rss ->
  oracle w = reconnect_script fs ++ Returns :: send_script rss ++ o ->
  (List.length fs + List.length (send_script rss) + 1 < fuel)%nat ->
  nth_error (delivered (news w (snd (run random fuel w)))) 0 = Some p.
Proof.
  intros Hq Hp Hfs Hrss Ho Hfuel.
  destruct fuel as [|fuel]; [inversion Hfuel|].
  destruct (@reopenConnection_recovers random fs (S fuel) w
              (Returns :: send_script rss ++ o) Hfs Ho)
    as (w1 & t1 & Hre & [Ro Rq Rc Rt] & [Q1 _] & _); [lia|].
  destruct (@main_loop_turn random m p rss fuel w1 q o Hp)
    as (w2 & t2 & Hm & _ & _ & _ & Ht2 & _ & _ & Hd2 & _);
    [now rewrite Rq | exact Hrss | exact Rc | exact Ro | lia |].
  destruct (main_loop random fuel w2) as [r3 w3] eqn:Hm3.
  destruct (main_loop_spec _ _ _ Hm3) as (c3 & t3 & [_ Ht3] & D3).
  assert (Hrun : exists tl,
             trace (snd (run random (S fuel) w)) = trace w3 ++ tl).
  { unfold run. unfold bind at 1, try at 1. unfold bind at 1.
    rewrite Hre. cbv beta iota. rewrite Hm. cbv beta iota.
    destruct r3 as [[]|e| |]; [now elim (dr_running D3) | |
      exists []; simpl; now rewrite app_nil_r ..].
    destruct (is_KeyboardInterrupt e);
      [|exists []; simpl; now rewrite app_nil_r].
    unfold bind at 1, dbg, log.
    destruct (closeConnection _) as [rc w5] eqn:Hc.
    apply closeConnection_spec in Hc as (_ & t5 & [[_ T5] _ _ _] & _).
    simpl in *. rewrite T5, <- app_assoc. eauto. }
  destruct Hrun as (tl & Hrun).
  unfold news. rewrite Hrun, Ht3, Ht2, Rt, <- !app_assoc.
  rewrite skipn_app, skipn_all, Nat.sub_diag. simpl.
  rewrite !delivered_app, (quiet_delivered _ Q1), Hd2. reflexivity.
Qed.

Lemma lit_scalar (s : string) : Forall scalar (lit s).
Proof.
  induction s as [|a s IH]; simpl; constructor; [|exact IH].
  unfold scalar. left.
  pose proof (N_ascii_bounded a) as H. lia.
Qed.

Lemma priming_encodes (tok : str) :
  Forall scalar tok -> exists p, framed (priming tok) p.
Proof.
  intros H. unfold framed. rewrite multiline_of_spec.
  apply encode_utf8_scalar, frame_spec_scalar.
  unfold priming. apply Forall_app. split; [exact H|].
  apply Forall_app. split; [apply lit_scalar|].
  constructor; [|constructor]. unfold scalar, NL. lia.
Qed.

(** The first line the code transmits starts with the token, not with the
    library identifier: for the sample handler it does not begin with the
    identifier followed by the token. *)
Lemma first_line_identifier_then_token_counterexample :
  uuid_shaped sample_token = true /\
  nth_error (delivered (trace (snd (run half 20 sample_world)))) 0
    = Some first_line /\
  exists b,
    encode_utf8 (LIBRARY_IDENTIFIER ++ sample_token) = Some b /\
    firstn (List.length b) first_line <> b.
Proof.
  split; [reflexivity|]. split; [vm_compute; reflexivity|].
  eexists. split; [vm_compute; reflexivity|].
  vm_compute. discriminate.
Qed.

(** C5 (as the code has it).  The constructor puts one priming message on
    the queue, the token followed by the library identifier and a newline,
    before any submitted message.  After the first submission to a handler
    with an accepted token the thread is started, and in every execution of
    the thread the first line transmitted, if there is one, is the framing
    of the priming message: the UTF-8 encoding of the access token, each
    newline in it replaced by U+2028, followed by the fixed library
    identifier string (in that order), then U+2028 and the terminating
    newline; a token without a newline is sent as it is.  The second line
    transmitted, if there is one, is the first submitted message.  When the
    token can be encoded, in an environment where the connection is
    established and the first [send] returns, both after any number of
    recoverable failures, that first line is transmitted. *)
Theorem priming_message_is_first_line :
  (forall (check_token : str -> bool) (tok : str),
      le_helpers.items
        (_queue (_thread (snd (LogentriesHandler_init check_token tok))))
      = [tok ++ LIBRARY_IDENTIFIER ++ [NL]]) /\
  (forall (record : Type) (format : record -> str)
          (check_token : str -> bool) (tok : str) (r : record)
          (rs : list record),
      check_token tok = true ->
      let h := snd (session format check_token tok (r :: rs)) in
      life (_thread h) = Started /\
      (forall (random : nat -> Q) (fuel : nat) (o : list answer) (p : bytes),
          nth_error
            (delivered (trace (snd (run random fuel (world_of h o))))) 0
            = Some p ->
          exists b,
            encode_utf8 (replace tok NL LINE_SEP ++ LIBRARY_IDENTIFIER)
              = Some b /\
            p = b ++ [0xE2%Z; 0x80%Z; 0xA8%Z; NL]) /\
      (~ In NL tok -> replace tok NL LINE_SEP = tok) /\
      (forall (random : nat -> Q) (fuel : nat) (o : list answer) (p : bytes),
          nth_error
            (delivered (trace (snd (run random fuel (world_of h o))))) 1
            = Some p ->
          framed (tok ++ rstrip (format r) NL) p) /\
      (forall (random : nat -> Q) (fs : list failure)
              (rss : list (list failure)) (o : list answer) (fuel : nat),
          Forall scalar tok ->
          Forall recoverable fs -> Forall (Forall recoverable) rss ->
          (List.length fs + List.length (send_script rss) + 1 < fuel)%nat ->
          exists p,
            nth_error
              (delivered
                 (trace (snd (run random fuel
                                  (world_of h (reconnect_script fs
                                               ++ Returns
                                               :: send_script rss ++ o))))))
              0 = Some p)).
Proof.
  split.
  - intros check_token tok. now rewrite init_fresh.
  - intros record format check_token tok r rs Hc. cbv zeta.
    destruct (@session_valid record format check_token tok r rs Hc)
      as (ms & Hs & _).
    rewrite Hs.
    set (h := accept (started (fresh check_token tok))
                     (message format tok r :: ms)).
    assert (Hq : le_helpers.items (_queue (self (world_of h [])))
                 = priming tok :: message format tok r :: ms) by reflexivity.
    split; [reflexivity|]. split; [|split; [|split]].
    + intros random fuel o p Hp.
      assert (Hf : framed (priming tok) p).
      { eapply (@first_delivery random fuel (world_of h o)); [exact Hq|].
        exact Hp. }
      destruct (@priming_frame tok p Hf) as (b & Hb & ->). now exists b.
    + apply replace_absent.
    + intros random fuel o p Hp.
      destruct (run random fuel (world_of h o)) as [res w'] eqn:Hrun.
      cbn [snd] in Hp.
      apply run_spec in Hrun as (c & tr & [_ Ht] & _ & D).
      simpl in Ht. rewrite Ht in Hp.
      destruct (deliveries_nth _ D Hp) as (data & _ & Hd & Hf).
      simpl in Hd. now injection Hd as <-.
    + intros random fs rss o fuel Htok Hfs Hrss Hfuel.
      destruct (priming_encodes Htok) as (p & Hp). exists p.
      apply (@run_delivers_head random fs rss fuel
               (world_of h (reconnect_script fs
                            ++ Returns :: send_script rss ++ o))
               (priming tok) (message format tok r :: ms) p o);
        auto.
Qed.

Lemma priming_message_is_first_line_witness :
  uuid_shaped sample_token = true /\
  ~ In NL sample_token /\
  nth_error (delivered (trace (snd (run half 20 sample_world)))) 0
    = Some first_line /\
  exists b,
    encode_utf8 (sample_token ++ LIBRARY_IDENTIFIER) = Some b /\
    first_line = b ++ [0xE2%Z; 0x80%Z; 0xA8%Z; NL].
Proof.
  assert (Hnl : ~ In NL sample_token)
    by (vm_compute; intuition discriminate).
  assert (E : nth_error (delivered (trace (snd (run half 20 sample_world)))) 0
              = Some first_line) by (vm_compute; reflexivity).
  split; [reflexivity|]. split; [exact Hnl|]. split; [exact E|].
  destruct (proj2 priming_message_is_first_line str as_is uuid_shaped
                  sample_token (lit "hello" ++ [NL] ++ lit "world") []
                  eq_refl) as (_ & H & Hr & _).
  rewrite <- (Hr Hnl). exact (H half 20%nat _ first_line E).
Defined.

(* ------------------------------------------------------------------ *)
(** ** How the thread ends *)

Lemma from_environment_app (c1 c2 : list answer) (e : exn) :
  from_environment c2 e -> from_environment (c1 ++ c2) e.
Proof. intros (c0 & ->). exists (c1 ++ c0). now rewrite app_assoc. Qed.

Lemma from_environment_one (e : exn) : from_environment [Raises e] e.
Proof. now exists []. Qed.

Lemma created_app (a b : list event) :
  created (a ++ b) = (created a + created b)%nat.
Proof.
  induction a as [|[| | |[|]| | | | |] a IH]; simpl; auto.
Qed.

Lemma passes_then (w1 w2 w3 : world) (r : outcome unit) c1 c2 t1 t2 :
  effect w1 w2 c1 t1 ->
  (_conn (self w1) <> None -> _conn (self w2) <> None) ->
  passes w2 w3 r c2 t2 ->
  passes w1 w3 r (c1 ++ c2) (t1 ++ t2).
Proof.
  intros E1 K1 [E2 R2 K2]. split.
  - eapply effect_trans; eauto.
  - intros e He. apply from_environment_app. now apply R2.
  - auto.
Qed.

Lemma openConnection_passes (w w' : world) (r : outcome unit) :
  openConnection w = (r, w') ->
  exists c tr, passes w w' r c tr /\ closes tr = O.
Proof.
  unfold openConnection, syscall, bind, ask, log, set_conn, ret, raise.
  destruct w as [s o d t]. simpl.
  destruct o as [|[|e] [|[|e'] o]]; simpl; intros [= <- <-];
    [ exists [], []
    | exists [Returns], [EvSocket Returns]
    | exists [Returns; Returns], [EvSocket Returns; EvConnect Returns]
    | exists [Returns; Raises e'], [EvSocket Returns; EvConnect (Raises e')]
    | exists [Raises e], [EvSocket (Raises e)] ..];
    (split; [split; simpl|reflexivity]);
    try (split; simpl; [reflexivity | now rewrite <- ?app_assoc, ?app_nil_r]);
    try discriminate; try (intros; discriminate); auto.
  all: intros e0 [= <-]; first [now exists [Returns] | now exists []].
Qed.

Section Origins.

Variable random : nat -> Q.

Lemma reopen_loop_passes (fuel : nat) :
  forall (d : Q) (w w' : world) (r : outcome unit),
    reopen_loop random fuel d w = (r, w') ->
    exists c tr, passes w w' r c tr /\ closes tr = O.
Proof.
  induction fuel as [|fuel IH]; intros d w w' r H.
  - injection H as <- <-. exists [], [].
    split; [split; auto using effect_refl; discriminate | reflexivity].
  - cbn [reopen_loop] in H. unfold bind at 1, try at 1 in H.
    destruct (openConnection w) as [ro w1] eqn:Ho.
    destruct (openConnection_passes _ Ho) as (c1 & t1 & [E1 R1 K1] & C1).
    assert (Hstop : forall r0 : outcome unit,
               (forall e, r0 = Raise e -> ro = Raise e) ->
               exists c tr, passes w w1 r0 c tr /\ closes tr = O).
    { intros r0 Hr0. exists c1, t1. split; [split|]; auto. }
    destruct ro as [[]|e| |];
      [ injection H as <- <-; apply Hstop; discriminate
      | | injection H as <- <-; apply Hstop; discriminate ..].
    destruct (is_Exception e) eqn:He;
      [|injection H as <- <-; now apply Hstop].
    unfold bind at 1, dbg at 1, log at 1 in H.
    unfold bind at 1, uniform at 1 in H.
    unfold bind at 1, try at 1 in H. cbn [draws self oracle trace] in H.
    set (d' := if Qgt_bool (d * 2) MAX_DELAY then MAX_DELAY else (d * 2)%Q) in *.
    set (wait_for := (d' + _)%Q) in *.
    set (pr := EvPrint (LE ++ lit "Unable to connect to Logentries")) in *.
    destruct (syscall _ _) as [rs w2] eqn:Hs.
    apply syscall_spec in Hs as [(-> & -> & Ho2)|(a & Ho2 & Ht2 & Hs2 & Hd2 & ->)];
      cbn [draws self oracle trace] in *.
    + injection H as <- <-. exists (c1 ++ []), (t1 ++ [pr]).
      split; [|now rewrite closes_app, C1].
      eapply passes_then; eauto. split; simpl; auto; try discriminate.
      split; simpl; auto.
    + assert (E2 : effect w1 w2 [a] [pr; EvSleep wait_for a]).
      { split; [assumption|]. rewrite Ht2. now rewrite <- app_assoc. }
      assert (K2 : _conn (self w1) <> None -> _conn (self w2) <> None)
        by now rewrite Hs2.
      destruct a as [|e2].
      * apply IH in H as (c3 & t3 & P3 & C3).
        exists (c1 ++ [Returns] ++ c3), (t1 ++ [pr; EvSleep wait_for Returns] ++ t3).
        split; [|rewrite !closes_app, C1, C3; reflexivity].
        eapply passes_then; eauto. eapply passes_then; eauto.
      * injection H as <- <-.
        exists (c1 ++ [Raises e2]), (t1 ++ [pr; EvSleep wait_for (Raises e2)]).
        split; [|rewrite !closes_app, C1; reflexivity].
        eapply passes_then; eauto. split; auto.
        intros e0 [= <-]. apply from_environment_one.
Qed.

Lemma reopenConnection_passes (fuel : nat) (w w' : world) (r : outcome unit) :
  reopenConnection random fuel w = (r, w') ->
  exists c tr,
    passes w w' r c tr /\
    closes tr = match _conn (self w) with Some _ => 1%nat | None => O end.
Proof.
  unfold reopenConnection. unfold bind at 1.
  destruct (closeConnection w) as [rc w1] eqn:Hc.
  apply closeConnection_spec in Hc as (-> & t1 & [E1 _ _ _] & _ & _ & K1 & T1).
  intros H. apply reopen_loop_passes in H as (c2 & t2 & P2 & C2).
  exists ([] ++ c2), (t1 ++ t2). split.
  - eapply passes_then; eauto. rewrite K1. now destruct (_conn (self w)).
  - rewrite closes_app, C2, T1. now destruct (_conn (self w)).
Qed.

Lemma queue_get_passes (w w' : world) (r : outcome str) :
  queue_get w = (r, w') ->
  exists c,
    oracle w = c ++ oracle w' /\
    (forall e, r = Raise e -> from_environment c e) /\
    ((exists data,
         r = Return data /\ trace w' = trace w ++ [EvGet data] /\
         _conn (self w') = _conn (self w)) \/
     ((forall data, r <> Return data) /\ trace w' = trace w)).
Proof.
  unfold queue_get, bind, ask, raise, le_helpers.get.
  destruct w as [[dm cn [mx q] l] o d t]. simpl.
  destruct o as [|[|e] o]; simpl.
  - intros [= <- <-]. exists []. split; [reflexivity|].
    split; [discriminate|]. right. now split.
  - destruct q as [|m q]; intros [= <- <-]; exists [Returns]; simpl;
      (split; [reflexivity|]); (split; [discriminate|]).
    + right. now split.
    + left. exists m. now repeat split.
  - intros [= <- <-]. exists [Raises e]. split; [reflexivity|].
    split; [intros e0 [= <-]; apply from_environment_one|].
    right. now split.
Qed.

Lemma send_loop_passes (ml : str) (fuel : nat) :
  forall (w w' : world) (r : outcome unit),
    _conn (self w) <> None ->
    send_loop random fuel ml w = (r, w') ->
    exists c tr,
      effect w w' c tr /\ dequeued tr = [] /\ _conn (self w') <> None /\
      forall e, r = Raise e ->
                from_environment c e \/
                (e = UnicodeEncodeError /\ encode_utf8 ml = None).
Proof.
  induction fuel as [|fuel IH]; intros w w' r Hcn H.
  - injection H as <- <-. exists [], [].
    split; [apply effect_refl|]. split; [reflexivity|].
    split; [assumption|discriminate].
  - cbn [send_loop] in H. unfold bind at 1, try at 1 in H.
    unfold bind at 1, encode at 1 in H.
    destruct (encode_utf8 ml) as [p|] eqn:Hp.
    2: { injection H as <- <-. exists [], [].
         split; [apply effect_refl|]. split; [reflexivity|].
         split; [assumption|]. intros e [= <-]. auto. }
    unfold ret at 1, conn_send, bind at 1, get_conn at 1 in H.
    destruct (_conn (self w)) as [cn|] eqn:Hc; [|now elim Hcn].
    destruct (syscall (EvSend p) w) as [rs w1] eqn:Hs.
    apply syscall_spec in Hs
      as [(-> & -> & Ho)|(a & Ho & Ht & Hs & Hd & ->)].
    + injection H as <- <-. exists [], [].
      split; [apply effect_refl|]. split; [reflexivity|].
      split; [congruence|discriminate].
    + assert (E1 : effect w w1 [a] [EvSend p a]) by now split.
      assert (K1 : _conn (self w1) <> None) by (rewrite Hs; congruence).
      destruct a as [|e].
      * injection H as <- <-. exists [Returns], [EvSend p Returns].
        split; [assumption|]. split; [reflexivity|].
        split; [assumption|discriminate].
      * destruct (is_socket_error e) eqn:He.
        2: { injection H as <- <-. exists [Raises e], [EvSend p (Raises e)].
             split; [assumption|]. split; [reflexivity|].
             split; [assumption|].
             intros e0 [= <-]. left. apply from_environment_one. }
        unfold bind at 1 in H.
        destruct (reopenConnection random fuel w1) as [rr w2] eqn:Hr.
        apply reopenConnection_spec in Hr as Hq.
        destruct Hq as (c2' & t2' & [[_ T2'] [_ Q2] _ _] & _ & _).
        apply reopenConnection_passes in Hr as (c2 & t2 & [E2 R2 K2] & _).
        assert (Q2' : dequeued t2 = []).
        { destruct E2 as [_ T2]. rewrite T2' in T2.
          apply app_inv_head in T2. now subst t2'. }
        assert (Hquit : forall r0 : outcome unit,
                   (forall e0, r0 = Raise e0 -> rr = Raise e0) ->
                   exists c tr,
                     effect w w2 c tr /\ dequeued tr = [] /\
                     _conn (self w2) <> None /\
                     forall e0, r0 = Raise e0 ->
                                from_environment c e0 \/
                                (e0 = UnicodeEncodeError /\ Some p = None)).
        { intros r0 Hr0. exists ([Raises e] ++ c2), ([EvSend p (Raises e)] ++ t2).
          split; [eapply effect_trans; eauto|].
          split; [now rewrite dequeued_app, Q2'|]. split; [auto|].
          intros e0 He0. left. apply from_environment_app. auto. }
        destruct rr as [[]|e1| |];
          [|injection H as <- <-; apply Hquit; auto; discriminate ..].
        apply IH in H as (c3 & t3 & E3 & Q3 & K3 & R3); [|auto].
        exists ([Raises e] ++ c2 ++ c3), ([EvSend p (Raises e)] ++ t2 ++ t3).
        split; [eapply effect_trans; eauto; eapply effect_trans; eauto|].
        split; [now rewrite !dequeued_app, Q2', Q3|]. split; [assumption|].
        intros e0 He0. destruct (R3 _ He0) as [Hf|Hu]; [left|now right].
        rewrite app_assoc. now apply from_environment_app.
Qed.

Lemma main_loop_passes (fuel : nat) :
  forall (w w' : world) (r : outcome unit),
    _conn (self w) <> None ->
    main_loop random fuel w = (r, w') ->
    exists c tr,
      effect w w' c tr /\
      forall e, r = Raise e ->
                from_environment c e \/
                (e = UnicodeEncodeError /\
                 exists l m, dequeued tr = l ++ [m] /\ unencodable m).
Proof.
  induction fuel as [|fuel IH]; intros w w' r Hcn H.
  - injection H as <- <-. exists [], []. split; [apply effect_refl|discriminate].
  - cbn [main_loop] in H. unfold bind at 1 in H.
    destruct (queue_get w) as [rg w1] eqn:Hg.
    apply queue_get_passes in Hg as (c1 & Ho1 & R1 & Hg).
    destruct Hg as [(data & -> & Ht1 & Hc1)|(Hn & Ht1)].
    2: { destruct rg as [a|e| |]; [now elim (Hn a)|..]; injection H as <- <-;
           exists c1, [];
           (split; [split; [assumption|now rewrite app_nil_r]|]);
           [intros e0 [= <-]; left; auto | discriminate ..]. }
    unfold bind at 1 in H.
    destruct (send_loop random fuel (multiline_of data) w1) as [rs w2] eqn:Hs.
    apply send_loop_passes in Hs as (c2 & t2 & E2 & Q2 & K2 & R2);
      [|now rewrite Hc1].
    assert (E1 : effect w w1 c1 [EvGet data]) by now split.
    assert (Hstop : forall r0 : outcome unit,
               (forall e0, r0 = Raise e0 -> rs = Raise e0) ->
               exists c tr,
                 effect w w2 c tr /\
                 forall e0, r0 = Raise e0 ->
                   from_environment c e0 \/
                   (e0 = UnicodeEncodeError /\
                    exists l m, dequeued tr = l ++ [m] /\ unencodable m)).
    { intros r0 Hr0. exists (c1 ++ c2), ([EvGet data] ++ t2).
      split; [eapply effect_trans; eauto|].
      intros e0 He0. destruct (R2 _ (Hr0 _ He0)) as [Hf|[-> Hu]].
      - left. now apply from_environment_app.
      - right. split; [reflexivity|]. exists [], data.
        simpl. now rewrite Q2. }
    destruct rs as [[]|e| |];
      [|injection H as <- <-; apply Hstop; auto; discriminate ..].
    apply IH in H as (c3 & t3 & E3 & R3); [|assumption].
    exists (c1 ++ c2 ++ c3), ([EvGet data] ++ t2 ++ t3).
    split; [eapply effect_trans; eauto; eapply effect_trans; eauto|].
    intros e0 He0. destruct (R3 _ He0) as [Hf|[-> (l & m & Hd & Hu)]].
    + left. rewrite app_assoc. now apply from_environment_app.
    + right. split; [reflexivity|]. exists (data :: l), m.
      simpl. now rewrite dequeued_app, Q2, Hd.
Qed.

Lemma run_body_passes (fuel : nat) (w w' : world) (r : outcome unit) :
  (reopenConnection random fuel ;; main_loop random fuel) w = (r, w') ->
  exists c tr,
    effect w w' c tr /\
    forall e, r = Raise e ->
              from_environment c e \/
              (e = UnicodeEncodeError /\
               exists l m, dequeued tr = l ++ [m] /\ unencodable m).
Proof.
  unfold bind at 1.
  destruct (reopenConnection random fuel w) as [rr w1] eqn:Hr.
  apply reopenConnection_spec in Hr as Hq.
  destruct Hq as (c1' & t1' & [[_ T1'] [_ Q1] _ _] & _ & K1).
  apply reopenConnection_passes in Hr as (c1 & t1 & [E1 R1 _] & _).
  assert (Q1' : dequeued t1 = []).
  { destruct E1 as [_ T1]. rewrite T1' in T1.
    apply app_inv_head in T1. now subst t1'. }
  destruct rr as [[]|e| |].
  2-4: intros [= <- <-]; exists c1, t1; (split; [assumption|]);
    try discriminate.
  2: { intros e0 He0. left. auto. }
  intros H. apply main_loop_passes in H as (c2 & t2 & E2 & R2);
    [|rewrite K1; [discriminate|reflexivity]].
  exists (c1 ++ c2), (t1 ++ t2). split; [eapply effect_trans; eauto|].
  intros e0 He0. destruct (R2 _ He0) as [Hf|[-> (l & m & Hd & Hu)]].
  - left. now apply from_environment_app.
  - right. split; [reflexivity|]. exists l, m. now rewrite dequeued_app, Q1'.
Qed.

(** How [run] relates to its body: it returns when the body was
    interrupted, and otherwise ends as the body did, in the same world. *)
Lemma run_body (fuel : nat) (w w1 : world) (rb : outcome unit) :
  (reopenConnection random fuel ;; main_loop random fuel) w = (rb, w1) ->
  (rb = Raise KeyboardInterrupt /\
   fst (run random fuel w) = Return tt /\
   oracle (snd (run random fuel w)) = oracle w1) \/
  (rb <> Raise KeyboardInterrupt /\ run random fuel w = (rb, w1)).
Proof.
  intros Hb. destruct (run_body_spec _ _ _ Hb) as (_ & _ & _ & _ & Hn & _).
  assert (Hsame : rb <> Return tt -> rb <> Raise KeyboardInterrupt ->
                  run random fuel w = (rb, w1)).
  { intros H1 H2. unfold run. unfold bind at 1, try at 1. rewrite Hb.
    destruct rb as [[]|e| |]; [now elim H1| |reflexivity ..].
    destruct e; try reflexivity. now elim H2. }
  destruct rb as [[]|e| |];
    [now elim Hn| |right; split; [discriminate|apply Hsame; discriminate] ..].
  destruct e; try (right; split; [discriminate|apply Hsame; discriminate]).
  left. split; [reflexivity|]. clear Hsame.
  assert (Hrun : exists w2,
             run random fuel w = (Return tt, w2) /\ oracle w2 = oracle w1).
  { unfold run. unfold bind at 1, try at 1. rewrite Hb. cbv beta iota.
    unfold is_KeyboardInterrupt. unfold bind at 1, dbg, log.
    destruct (closeConnection _) as [rc w2] eqn:Hc.
    apply closeConnection_spec in Hc as (-> & t & [[E _] _ _ _] & _).
    simpl in *. exists w2. now split. }
  destruct Hrun as (w2 & -> & Ho). now split.
Qed.

End Origins.

(** X1.  [run] returns only when it is interrupted: if it returns, the
    last answer its environment gave was a [KeyboardInterrupt], and no
    earlier answer was one.  No other event ends the loops normally: an
    empty queue or a failing network never makes the thread finish. *)
Theorem run_returns_only_when_interrupted
        (random : nat -> Q) (fuel : nat) (w : world) :
  fst (run random fuel w) = Return tt ->
  exists pre,
    oracle w =
      pre ++ Raises KeyboardInterrupt :: oracle (snd (run random fuel w)) /\
    ~ In (Raises KeyboardInterrupt) pre.
Proof.
  destruct ((reopenConnection random fuel ;; main_loop random fuel) w)
    as [rb w1] eqn:Hb.
  destruct (@run_body_spec random fuel w w1 rb Hb) as (c' & t' & [Ec' _] & I' & Hn & _).
  destruct (@run_body_passes random fuel w w1 rb Hb) as (c & t & [Ec _] & R).
  destruct (@run_body random fuel w w1 rb Hb) as [(-> & _ & Ho)|[_ ->]];
    [intros _ | intros Hr; now elim Hn].
  destruct (R _ eq_refl) as [(c0 & ->)|[He _]]; [|discriminate He].
  exists c0. split; [rewrite Ho, Ec, <- app_assoc; reflexivity|].
  assert (c' = c0 ++ [KI])
    by (rewrite Ec in Ec'; now apply app_inv_tail in Ec').
  subst c'. destruct I' as (_ & c1 & H1 & H2).
  - apply in_or_app. right. now left.
  - apply app_inj_tail in H1 as [-> _]. exact H2.
Qed.

Lemma run_returns_only_when_interrupted_witness :
  exists pre,
    oracle interrupted_world =
      pre ++ Raises KeyboardInterrupt
          :: oracle (snd (run half 9 interrupted_world)) /\
    ~ In (Raises KeyboardInterrupt) pre.
Proof.
  apply (@run_returns_only_when_interrupted half 9 interrupted_world).
  vm_compute. reflexivity.
Defined.

(** X2.  [run] raises nothing of its own making except the encoding error
    of a queued value.  If [run] raises [e], then [e] is not
    [KeyboardInterrupt], and either [e] is the last answer of the
    environment (a call into the operating system raised it and the code
    let it pass) or [e] is [UnicodeEncodeError] and the value taken last
    from the queue cannot be encoded. *)
Theorem run_raises_only_what_reaches_it
        (random : nat -> Q) (fuel : nat) (w : world) (e : exn) :
  fst (run random fuel w) = Raise e ->
  e <> KeyboardInterrupt /\
  ((exists pre,
       oracle w = pre ++ Raises e :: oracle (snd (run random fuel w))) \/
   (e = UnicodeEncodeError /\
    exists l m,
      dequeued (news w (snd (run random fuel w))) = l ++ [m] /\
      unencodable m)).
Proof.
  destruct ((reopenConnection random fuel ;; main_loop random fuel) w)
    as [rb w1] eqn:Hb.
  destruct (@run_body_passes random fuel w w1 rb Hb) as (c & t & E & R).
  destruct (@run_body random fuel w w1 rb Hb) as [(_ & -> & _)|[Hk ->]]; [discriminate|].
  simpl. intros ->. split; [intros ->; now elim Hk|].
  rewrite (effect_news E). destruct E as [Ec _].
  destruct (R _ eq_refl) as [(c0 & ->)|Hu]; [left|now right].
  exists c0. now rewrite Ec, <- app_assoc.
Qed.

Lemma run_raises_only_what_reaches_it_witness :
  UnicodeEncodeError <> KeyboardInterrupt /\
  ((exists pre,
       oracle surrogate_world =
         pre ++ Raises UnicodeEncodeError
             :: oracle (snd (run half 9 surrogate_world))) \/
   (UnicodeEncodeError = UnicodeEncodeError /\
    exists l m,
      dequeued (news surrogate_world (snd (run half 9 surrogate_world)))
        = l ++ [m] /\
      unencodable m)).
Proof.
  apply (@run_raises_only_what_reaches_it half 9 surrogate_world).
  vm_compute. reflexivity.
Defined.

(* ------------------------------------------------------------------ *)
(** ** Values that cannot be encoded *)

Lemma encode_utf8_none (s : str) (c : Z) :
  In c s -> encode_char c = None -> encode_utf8 s = None.
Proof.
  intros Hin Hc. induction s as [|x s IH]; [destruct Hin|].
  cbn [encode_utf8]. destruct Hin as [->|Hin].
  - now rewrite Hc.
  - rewrite (IH Hin). now destruct (encode_char x).
Qed.

Lemma encode_char_surrogate (c : Z) :
  (0xD800 <= c <= 0xDFFF)%Z -> encode_char c = None.
Proof.
  intros Hc. unfold encode_char.
  destruct (Z.ltb_spec c 0); [lia|].
  destruct (Z.ltb_spec c 0x80); [lia|].
  destruct (Z.ltb_spec c 0x800); [lia|].
  destruct (Z.ltb_spec c 0x10000); [|lia].
  destruct (Z.leb_spec 0xD800 c); [|lia].
  destruct (Z.leb_spec c 0xDFFF); [|lia].
  reflexivity.
Qed.

Lemma surrogate_unencodable (m : str) (c : Z) :
  In c m -> (0xD800 <= c <= 0xDFFF)%Z -> unencodable m.
Proof.
  intros Hin Hc. unfold unencodable. rewrite multiline_of_spec.
  apply encode_utf8_none with (c := c); [|now apply encode_char_surrogate].
  unfold frame_spec. apply in_or_app. left.
  apply in_map_iff. exists c. split; [|assumption].
  destruct (Z.eqb_spec c NL) as [Heq|_]; [|reflexivity].
  unfold NL in Heq. lia.
Qed.

Lemma main_loop_unencodable (random : nat -> Q) (fuel : nat) (w : world)
      (m : str) (q : list str) (o : list answer) :
  le_helpers.items (_queue (self w)) = m :: q ->
  unencodable m ->
  oracle w = Returns :: o ->
  exists w',
    main_loop random (S (S fuel)) w = (Raise UnicodeEncodeError, w') /\
    oracle w' = o /\ _conn (self w') = _conn (self w) /\
    le_helpers.items (_queue (self w')) = q /\
    trace w' = trace w ++ [EvGet m].
Proof.
  intros Hq Hu Ho.
  destruct w as [[dm cn [mx qi] l] orc dr t]. simpl in *. subst orc qi.
  cbn [main_loop]. unfold bind at 1, queue_get, bind at 1, ask, le_helpers.get.
  cbn [self oracle draws trace _queue _conn daemon life le_helpers.items
       le_helpers.maxsize].
  unfold bind at 1. cbn [send_loop].
  unfold bind at 1, try at 1, bind at 1, encode.
  unfold unencodable in Hu. rewrite Hu. unfold raise. cbn [is_socket_error].
  eexists. split; [reflexivity|]. simpl. auto.
Qed.

(* ------------------------------------------------------------------ *)
(** ** Whole queues *)

Section Turns.

Variable random : nat -> Q.

Lemma send_loop_connected (ml : str) (fuel : nat) :
  forall w w' : world,
    _conn (self w) = Some Connected ->
    send_loop random fuel ml w = (Return tt, w') ->
    _conn (self w') = Some Connected.
Proof.
  induction fuel as [|fuel IH]; intros w w' Hcn H; [discriminate H|].
  cbn [send_loop] in H. unfold bind at 1, try at 1 in H.
  unfold bind at 1, encode at 1 in H.
  destruct (encode_utf8 ml) as [p|]; [|discriminate H].
  unfold ret at 1, conn_send, bind at 1, get_conn at 1 in H.
  rewrite Hcn in H.
  destruct (syscall (EvSend p) w) as [rs w1] eqn:Hs.
  apply syscall_spec in Hs
    as [(-> & -> & Ho)|(a & Ho & Ht & Hs & Hd & ->)]; [discriminate H|].
  destruct a as [|e]; [injection H as <-; now rewrite Hs|].
  destruct (is_socket_error e); [|discriminate H].
  unfold bind at 1 in H.
  destruct (reopenConnection random fuel w1) as [rr w2] eqn:Hr.
  apply reopenConnection_spec in Hr as (_ & _ & _ & _ & K2).
  destruct rr as [[]|e1| |]; try discriminate H.
  exact (IH w2 w' (K2 eq_refl) H).
Qed.

Lemma main_loop_turn_connected (m : str) (p : bytes)
      (rs : list (list failure)) (fuel : nat) (w : world) (q : list str)
      (o : list answer) :
  framed m p ->
  le_helpers.items (_queue (self w)) = m :: q ->
  Forall (Forall recoverable) rs ->
  _conn (self w) = Some Connected ->
  oracle w = Returns :: send_script rs ++ o ->
  (List.length (send_script rs) < fuel)%nat ->
  exists w' tr,
    main_loop random (S fuel) w = main_loop random fuel w' /\
    oracle w' = o /\ _conn (self w') = Some Connected /\
    le_helpers.items (_queue (self w')) = q /\
    trace w' = trace w ++ tr /\
    dequeued tr = [m] /\ delivered tr = [p] /\
    closes tr = List.length rs.
Proof.
  intros Hp Hq Hrs Hcn Ho Hfuel.
  cbn [main_loop]. unfold bind at 1, queue_get, bind at 1, ask, le_helpers.get.
  destruct w as [[dm cn [mx qi] l] orc dr t]. simpl in *. subst orc qi cn.
  cbn [self oracle draws trace _queue _conn daemon life le_helpers.items
       le_helpers.maxsize].
  set (w1 := {| self := _; oracle := _; draws := dr; trace := _ |}).
  destruct (@send_loop_recovers random (multiline_of m) p rs Hp fuel w1 o Hrs)
    as (w' & t2 & Hs & [Ro Rq Rc Rt] & D2 & A2 & C2);
    [discriminate | reflexivity | assumption |].
  exists w', ([EvGet m] ++ t2). unfold bind at 1. rewrite Hs.
  split; [reflexivity|]. split; [exact Ro|].
  split; [eapply send_loop_connected; eauto; reflexivity|].
  split; [now rewrite Rq|].
  split; [rewrite Rt; simpl; now rewrite <- app_assoc|].
  split; [simpl; now rewrite D2|].
  split; [|exact C2]. simpl. eapply delivered_of_attempts; eauto.
Qed.

Lemma turns_script_cons (rs : list (list failure))
      (rss : list (list (list failure))) :
  turns_script (rs :: rss) = Returns :: send_script rs ++ turns_script rss.
Proof. reflexivity. Qed.

Lemma main_loop_delivers (ms : list str) :
  forall (ps : list bytes) (rss : list (list (list failure))) (fuel : nat)
         (w : world) (q : list str) (o : list answer),
    Forall2 framed ms ps ->
    List.length rss = List.length ms ->
    Forall (Forall (Forall recoverable)) rss ->
    le_helpers.items (_queue (self w)) = ms ++ q ->
    _conn (self w) = Some Connected ->
    oracle w = turns_script rss ++ o ->
    (List.length (turns_script rss) <= fuel)%nat ->
    exists w' tr,
      main_loop random (List.length ms + fuel) w = main_loop random fuel w' /\
      oracle w' = o /\ _conn (self w') = Some Connected /\
      le_helpers.items (_queue (self w')) = q /\
      trace w' = trace w ++ tr /\
      dequeued tr = ms /\ delivered tr = ps /\
      closes tr = List.length (List.concat rss).
Proof.
  induction ms as [|m ms IH]; intros ps rss fuel w q o Hf Hl Hr Hq Hcn Ho Hfuel.
  - inversion Hf; subst. destruct rss; [|discriminate Hl].
    exists w, []. simpl in *. rewrite app_nil_r. auto 10.
  - inversion Hf as [|? p ? ps' Hp Hps]; subst.
    destruct rss as [|rs rss]; [discriminate Hl|].
    inversion Hr as [|? ? Hrs Hrss]; subst.
    rewrite turns_script_cons in Ho, Hfuel. simpl in Hfuel.
    rewrite length_app in Hfuel.
    rewrite <- app_comm_cons, <- app_assoc in Ho.
    destruct (@main_loop_turn_connected m p rs (List.length ms + fuel) w
                (ms ++ q) (turns_script rss ++ o) Hp Hq Hrs Hcn Ho)
      as (w1 & t1 & Hm & Ho1 & Hc1 & Hq1 & Ht1 & D1 & V1 & C1); [lia|].
    destruct (IH ps' rss fuel w1 q o Hps) as
        (w2 & t2 & Hm2 & Ho2 & Hc2 & Hq2 & Ht2 & D2 & V2 & C2);
      auto; try (simpl in Hl; lia).
    exists w2, (t1 ++ t2). cbn [List.length plus]. rewrite Hm, Hm2.
    split; [reflexivity|]. split; [assumption|]. split; [assumption|].
    split; [assumption|]. split; [now rewrite Ht2, Ht1, app_assoc|].
    rewrite dequeued_app, delivered_app, closes_app, D1, D2, V1, V2, C1, C2.
    simpl. now rewrite length_app.
Qed.

End Turns.

(** X3.  A queued value that holds a surrogate code point stops the
    thread.  With the values [good] ahead of it in the queue, in an
    environment where the connection is established after the failures
    [fs] and every value of [good] is sent after the failures [rss] say,
    and with enough fuel: [run] delivers the values of [good], takes the
    offending value from the queue, and raises [UnicodeEncodeError] out of
    [run] without a payload being delivered for it; the socket is left
    connected (the final [closeConnection] is not reached) and the values
    behind it stay in the queue. *)
Theorem unencodable_message_stops_thread
        (random : nat -> Q) (fs : list failure)
        (rss : list (list (list failure))) (fuel : nat) (w : world)
        (good : list str) (ps : list bytes) (m : str) (q : list str) (c : Z)
        (o : list answer) :
  le_helpers.items (_queue (self w)) = good ++ m :: q ->
  Forall2 framed good ps ->
  In c m -> (0xD800 <= c <= 0xDFFF)%Z ->
  Forall recoverable fs ->
  List.length rss = List.length good ->
  Forall (Forall (Forall recoverable)) rss ->
  oracle w = reconnect_script fs ++ turns_script rss ++ Returns :: o ->
  (List.length fs + List.length (turns_script rss) + List.length good + 2
   <= fuel)%nat ->
  let w' := snd (run random fuel w) in
  fst (run random fuel w) = Raise UnicodeEncodeError /\
  oracle w' = o /\
  _conn (self w') = Some Connected /\
  le_helpers.items (_queue (self w')) = q /\
  dequeued (news w w') = good ++ [m] /\
  delivered (news w w') = ps /\
  closes (news w w') =
    (match _conn (self w) with Some _ => 1 | None => 0 end
     + List.length (List.concat rss))%nat.
Proof.
  intros Hq Hps Hin Hc Hfs Hl Hrss Ho Hfuel. cbv zeta.
  assert (Hu : unencodable m) by (eapply surrogate_unencodable; eauto).
  destruct (@reopenConnection_recovers random fs fuel w
              (turns_script rss ++ Returns :: o) Hfs Ho)
    as (w1 & t1 & Hre & [Ro Rq Rc Rt] & Q1 & C1); [lia|].
  destruct (@reopenConnection_spec random fuel w w1 (Return tt) Hre)
    as (_ & _ & _ & _ & K1).
  specialize (K1 eq_refl).
  assert (Hf : exists f0,
             fuel = (List.length good + S (S f0))%nat /\
             (List.length (turns_script rss) <= S (S f0))%nat).
  { exists (fuel - List.length good - 2)%nat. lia. }
  destruct Hf as (f0 & Hf & Hf0).
  destruct (@main_loop_delivers random good ps rss (S (S f0)) w1
              (m :: q) (Returns :: o) Hps Hl Hrss)
    as (w2 & t2 & Hm2 & Ho2 & Hc2 & Hq2 & Ht2 & D2 & V2 & C2);
    [now rewrite Rq | assumption | assumption | assumption |].
  destruct (@main_loop_unencodable random f0 w2 m q o Hq2 Hu Ho2)
    as (w3 & Hm3 & Ho3 & Hc3 & Hq3 & Ht3).
  assert (Hb : (reopenConnection random fuel ;; main_loop random fuel) w
               = (Raise UnicodeEncodeError, w3)).
  { unfold bind at 1. rewrite Hre. rewrite Hf at 1. now rewrite Hm2. }
  destruct (@run_body random fuel w w3 _ Hb) as [(He & _)|[_ ->]];
    [discriminate He|].
  cbn [fst snd]. split; [reflexivity|]. split; [assumption|].
  split; [congruence|]. split; [assumption|].
  unfold news.
  rewrite Ht3, Ht2, Rt, <- !app_assoc, skipn_app, skipn_all, Nat.sub_diag.
  cbn [skipn app].
  rewrite !dequeued_app, !delivered_app, !closes_app, (proj2 Q1),
    (quiet_delivered _ (proj1 Q1)), C1, D2, V2, C2.
  simpl. rewrite app_nil_r. repeat split; lia.
Qed.

Lemma unencodable_message_stops_thread_witness :
  let w' := snd (run half 9 surrogate_world) in
  fst (run half 9 surrogate_world) = Raise UnicodeEncodeError /\
  oracle w' = [Returns] /\
  _conn (self w') = Some Connected /\
  le_helpers.items (_queue (self w')) = [] /\
  dequeued (news surrogate_world w') =
    [priming sample_token] ++ [sample_token ++ lit "caf" ++ [0xD800%Z]] /\
  delivered (news surrogate_world w') = [first_line] /\
  closes (news surrogate_world w') = O.
Proof.
  apply (@unencodable_message_stops_thread half [] [[]] 9 surrogate_world
           [priming sample_token] [first_line]
           (sample_token ++ lit "caf" ++ [0xD800%Z]) [] 0xD800%Z [Returns]).
  - reflexivity.
  - repeat constructor.
  - apply in_or_app. right. apply in_or_app. right. now left.
  - lia.
  - constructor.
  - reflexivity.
  - repeat constructor.
  - reflexivity.
  - simpl. lia.
Defined.

(* ------------------------------------------------------------------ *)
(** ** Sockets created and closed *)

Section Sockets.

Variable random : nat -> Q.

Lemma reopen_loop_attempt_created (f : failure) (fuel : nat) (d : Q)
      (w : world) (o : list answer) :
  recoverable f -> oracle w = failed_attempt f ++ o ->
  exists w1 tr,
    reopen_loop random (S fuel) d w =
      reopen_loop random fuel (Qmin (d * 2) MAX_DELAY) w1 /\
    oracle w1 = o /\ trace w1 = trace w ++ tr /\
    created tr = abandoned [f].
Proof.
  destruct w as [s orc dr t]. simpl. intros Hf ->.
  cbn [reopen_loop].
  unfold bind at 1, try at 1, openConnection, syscall, bind, ask, log,
    set_conn, ret, raise, dbg, uniform.
  destruct f as [e|e]; simpl in *; rewrite Hf, Qgt_bool_min;
    eexists _, _; (split; [reflexivity|]); simpl;
    repeat split; try reflexivity;
    rewrite <- ?app_assoc; simpl; reflexivity.
Qed.

Lemma reopen_loop_created (fs : list failure) :
  forall (fuel : nat) (d : Q) (w : world) (o : list answer),
    Forall recoverable fs ->
    oracle w = reconnect_script fs ++ o ->
    (List.length fs < fuel)%nat ->
    exists w' tr,
      reopen_loop random fuel d w = (Return tt, w') /\
      trace w' = trace w ++ tr /\
      created tr = S (abandoned fs).
Proof.
  unfold reconnect_script.
  induction fs as [|f fs IH]; intros fuel d w o Hfs Ho Hfuel.
  - destruct fuel as [|fuel]; [inversion Hfuel|].
    destruct w as [s orc dr t]. simpl in Ho. subst orc.
    eexists _, _. cbn [reopen_loop].
    unfold bind at 1, try at 1, openConnection, syscall, bind, ask, log,
      set_conn, ret, raise. simpl.
    split; [reflexivity|].
    split; [rewrite <- app_assoc; reflexivity | reflexivity].
  - destruct fuel as [|fuel]; [inversion Hfuel|].
    inversion Hfs as [|? ? Hf Hfs']; subst.
    simpl in Ho. rewrite <- !app_assoc in Ho.
    destruct (reopen_loop_attempt_created f fuel d w _ Hf Ho)
      as (w1 & t1 & -> & Ho1 & Ht1 & C1).
    destruct (IH fuel (Qmin (d * 2) MAX_DELAY) w1 o Hfs')
      as (w' & t2 & -> & Ht2 & C2).
    + now rewrite Ho1, <- app_assoc.
    + simpl in Hfuel. lia.
    + exists w', (t1 ++ t2). split; [reflexivity|].
      split; [now rewrite Ht2, Ht1, app_assoc|].
      rewrite created_app, C1, C2. unfold abandoned. simpl.
      destruct f; simpl; lia.
Qed.

End Sockets.

(** X4.  [reopenConnection] closes at most the socket it found: whatever
    happens, it calls [close] once if [self._conn] held a socket object when
    it was called and never otherwise.  The sockets it creates itself are
    never closed by it: when the attempts fail as [fs] says before one
    succeeds, it returns after having created one socket for the
    successful attempt and one for each attempt whose [connect] failed. *)
Theorem reconnect_abandons_sockets (random : nat -> Q) :
  (forall (fuel : nat) (w : world),
      closes (news w (snd (reopenConnection random fuel w))) =
        match _conn (self w) with Some _ => 1%nat | None => O end) /\
  (forall (fs : list failure) (fuel : nat) (w : world) (o : list answer),
      Forall recoverable fs ->
      oracle w = reconnect_script fs ++ o ->
      (List.length fs < fuel)%nat ->
      fst (reopenConnection random fuel w) = Return tt /\
      created (news w (snd (reopenConnection random fuel w))) =
        S (abandoned fs)).
Proof.
  split.
  - intros fuel w.
    destruct (reopenConnection random fuel w) as [r w'] eqn:Hr.
    apply reopenConnection_passes in Hr as (c & tr & [E _ _] & C).
    cbn [snd]. now rewrite (effect_news E).
  - intros fs fuel w o Hfs Ho Hfuel.
    assert (H : exists w' tr,
               reopenConnection random fuel w = (Return tt, w') /\
               trace w' = trace w ++ tr /\ created tr = S (abandoned fs)).
    { unfold reopenConnection. unfold bind at 1.
      destruct (closeConnection w) as [rc w1] eqn:Hc.
      apply closeConnection_spec in Hc
        as (-> & t1 & [[E1 T1] _ _ _] & _ & _ & _ & S1).
      simpl in E1.
      destruct (@reopen_loop_created random fs fuel MIN_DELAY w1 o Hfs)
        as (w' & t2 & -> & Ht2 & C2); [congruence|assumption|].
      exists w', (t1 ++ t2). split; [reflexivity|].
      split; [now rewrite Ht2, T1, app_assoc|].
      rewrite created_app, C2, S1. now destruct (_conn (self w)). }
    destruct H as (w' & tr & -> & Ht & C). cbn [fst snd].
    split; [reflexivity|].
    unfold news. rewrite Ht, skipn_app, skipn_all, Nat.sub_diag.
    exact C.
Qed.

Lemma reconnect_abandons_sockets_witness :
  fst (reopenConnection half 9 backoff_world) = Return tt /\
  created (news backoff_world (snd (reopenConnection half 9 backoff_world)))
    = 3%nat.
Proof.
  apply (proj2 (reconnect_abandons_sockets half)
               [ConnectFails socket_error; SocketFails OtherException;
                ConnectFails socket_error] 9%nat backoff_world []).
  - repeat constructor.
  - reflexivity.
  - simpl. lia.
Defined.

(* ------------------------------------------------------------------ *)
(** ** From the producer to the wire *)

Lemma rstrip_scalar (s : str) (c : Z) :
  Forall scalar s -> Forall scalar (rstrip s c).
Proof.
  intros H. destruct (rstrip_spec s c) as (k & Hs & _).
  rewrite Hs in H. now apply Forall_app in H.
Qed.

Lemma is_scalar_spec (s : str) :
  forallb is_scalar s = true -> Forall scalar s.
Proof.
  induction s as [|c s IH]; simpl; intros H; constructor.
  - apply andb_prop in H as [H _]. unfold is_scalar in H. unfold scalar.
    apply orb_prop in H as [H|H]; apply andb_prop in H as [H1 H2]; lia.
  - apply IH. now apply andb_prop in H.
Qed.

Lemma scalar_framed (m : str) : Forall scalar m -> exists p, framed m p.
Proof.
  intros H. unfold framed. rewrite multiline_of_spec.
  now apply encode_utf8_scalar, frame_spec_scalar.
Qed.

Lemma scalar_framed_all (ms : list str) :
  Forall (Forall scalar) ms -> exists ps, Forall2 framed ms ps.
Proof.
  induction 1 as [|m ms Hm _ (ps & IH)]; [now exists []|].
  destruct (scalar_framed Hm) as (p & Hp). exists (p :: ps). now constructor.
Qed.

Lemma main_loop_idle (random : nat -> Q) (fuel : nat) (w : world) :
  oracle w = [] -> main_loop random (S fuel) w = (Blocked, w).
Proof.
  intros Ho. cbn [main_loop]. unfold bind at 1, queue_get, bind at 1, ask.
  now rewrite Ho.
Qed.

Section Pipeline.

Variable record : Type.

Variable format : record -> str.

Variable check_token : str -> bool.

Lemma session_valid_room (tok : str) (r : record) (rs : list record) :
  check_token tok = true ->
  (Z.of_nat (S (List.length rs)) < QUEUE_SIZE)%Z ->
  session format check_token tok (r :: rs) =
    (Return tt,
     accept (started (fresh check_token tok))
            (map (message format tok) (r :: rs))).
Proof.
  intros Hc Hn. rewrite session_fresh. cbn [emits]. unfold bind.
  rewrite emit_first;
    [| unfold fresh; simpl; exact Hc | reflexivity
     | apply room_fresh; reflexivity ].
  set (h1 := accept (started (fresh check_token tok)) _).
  rewrite emits_settled_room; [|reflexivity|].
  - unfold h1. now rewrite accept_accept.
  - unfold room, h1, accept, started, fresh, QUEUE_SIZE in *.
    cbn [_thread _queue le_helpers.items le_helpers.maxsize List.length app].
    lia.
Qed.

Lemma message_scalar (tok : str) (r : record) :
  Forall scalar tok -> Forall scalar (format r) ->
  Forall scalar (message format tok r).
Proof.
  intros Ht Hr. unfold message. apply Forall_app. split; [exact Ht|].
  now apply rstrip_scalar.
Qed.

End Pipeline.

(** X5.  From the producer to the wire.  A handler with an accepted token
    receives the submissions [r :: rs] (fewer than the capacity of the
    queue), whose token and formatted texts hold no surrogate; its thread
    then runs in an environment where the connection is established after
    the failures [fs] and the sends of each queued value fail as [rss]
    says before they succeed.  With enough fuel the thread takes the
    priming message and then every submitted message from the queue, in
    the order of submission; the payloads for which [send] returned are
    exactly their framings, one per message and in the same order, in
    spite of the failures; the queue is empty afterwards and the thread
    waits in [Queue.get]; [close] was called once per failed [send]. *)
Theorem session_delivered_in_order
        (random : nat -> Q) (record : Type) (format : record -> str)
        (check_token : str -> bool) (tok : str) (r : record)
        (rs : list record) (fs : list failure)
        (rss : list (list (list failure))) (fuel : nat) :
  check_token tok = true ->
  (Z.of_nat (S (List.length rs)) < QUEUE_SIZE)%Z ->
  Forall scalar tok ->
  Forall (fun x => Forall scalar (format x)) (r :: rs) ->
  Forall recoverable fs ->
  List.length rss = S (S (List.length rs)) ->
  Forall (Forall (Forall recoverable)) rss ->
  (List.length fs + List.length (turns_script rss) + List.length rs + 3
   <= fuel)%nat ->
  let h := snd (session format check_token tok (r :: rs)) in
  let w := world_of h (reconnect_script fs ++ turns_script rss) in
  let w' := snd (run random fuel w) in
  fst (run random fuel w) = Blocked /\
  dequeued (trace w') = priming tok :: map (message format tok) (r :: rs) /\
  Forall2 framed (priming tok :: map (message format tok) (r :: rs))
          (delivered (trace w')) /\
  le_helpers.items (_queue (self w')) = [] /\
  closes (trace w') = List.length (List.concat rss).
Proof.
  intros Hc Hn Htok Hrs Hfs Hl Hrss Hfuel. cbv zeta.
  rewrite session_valid_room by assumption. cbn [snd].
  set (ms := priming tok :: map (message format tok) (r :: rs)).
  set (w := world_of _ _).
  assert (Hq : le_helpers.items (_queue (self w)) = ms ++ []).
  { unfold w, world_of, accept, started, fresh. simpl. now rewrite app_nil_r. }
  assert (Hcn : _conn (self w) = None) by reflexivity.
  assert (Ht : trace w = []) by reflexivity.
  assert (Ho : oracle w = reconnect_script fs ++ turns_script rss ++ [])
    by (unfold w, world_of; simpl; now rewrite app_nil_r).
  assert (Hms : exists ps, Forall2 framed ms ps).
  { apply scalar_framed_all. unfold ms. constructor.
    - unfold priming. apply Forall_app. split; [exact Htok|].
      apply Forall_app. split; [apply lit_scalar|].
      constructor; [|constructor]. unfold scalar, NL. lia.
    - apply Forall_map. revert Hrs. apply Forall_impl.
      intros x Hx. now apply message_scalar. }
  destruct Hms as (ps & Hps).
  assert (Hlen : List.length ms = S (S (List.length rs)))
    by (unfold ms; simpl; now rewrite length_map).
  clearbody w ms.
  destruct (@reopenConnection_recovers random fs fuel w
              (turns_script rss ++ []) Hfs Ho)
    as (w1 & t1 & Hre & [Ro Rq Rc Rt] & Q1 & C1); [lia|].
  destruct (@reopenConnection_spec random fuel w w1 (Return tt) Hre)
    as (_ & _ & _ & _ & K1).
  specialize (K1 eq_refl).
  assert (Hf : exists f0,
             fuel = (List.length ms + S f0)%nat /\
             (List.length (turns_script rss) <= S f0)%nat).
  { exists (fuel - List.length ms - 1)%nat. lia. }
  destruct Hf as (f0 & Hf & Hf0).
  destruct (@main_loop_delivers random ms ps rss (S f0) w1 [] [] Hps)
    as (w2 & t2 & Hm2 & Ho2 & Hc2 & Hq2 & Ht2 & D2 & V2 & C2);
    [congruence | assumption | now rewrite Rq | assumption | assumption
     | assumption |].
  assert (Hb : (reopenConnection random fuel ;; main_loop random fuel) w
               = (Blocked, w2)).
  { unfold bind at 1. rewrite Hre. rewrite Hf at 1. rewrite Hm2.
    now apply main_loop_idle. }
  destruct (@run_body random fuel w w2 _ Hb) as [(He & _)|[_ ->]];
    [discriminate He|].
  cbn [fst snd]. split; [reflexivity|].
  rewrite Ht2, Rt, Ht, app_nil_l.
  rewrite !dequeued_app, !delivered_app, !closes_app, (proj2 Q1),
    (quiet_delivered _ (proj1 Q1)), C1, D2, V2, C2, Hcn.
  simpl. auto.
Qed.

Lemma session_delivered_in_order_witness :
  let w' := snd (run half 20 pipeline_world) in
  fst (run half 20 pipeline_world) = Blocked /\
  dequeued (trace w') =
    priming sample_token :: map (message as_is sample_token) sample_records /\
  Forall2 framed
          (priming sample_token
           :: map (message as_is sample_token) sample_records)
          (delivered (trace w')) /\
  le_helpers.items (_queue (self w')) = [] /\
  closes (trace w') = 1%nat.
Proof.
  apply (@session_delivered_in_order half str as_is uuid_shaped sample_token
           (lit "hello" ++ [NL] ++ lit "world") [lit "second"]
           [ConnectFails socket_error] [[]; [[]]; []] 20).
  - reflexivity.
  - reflexivity.
  - apply is_scalar_spec. reflexivity.
  - constructor; [apply is_scalar_spec; reflexivity|].
    constructor; [apply is_scalar_spec; reflexivity|constructor].
  - repeat constructor.
  - reflexivity.
  - repeat constructor.
  - simpl. lia.
Defined.

(* ------------------------------------------------------------------ *)
(** ** What the framing loses *)

Lemma removelast_snoc (A : Type) (l : list A) (x : A) :
  removelast (l ++ [x]) = l.
Proof. now rewrite removelast_app, app_nil_r by discriminate. Qed.

Lemma replace_back (s : str) :
  replace (replace s NL LINE_SEP) 0x2028%Z [NL] = replace s 0x2028%Z [NL].
Proof.
  unfold replace, LINE_SEP, le_helpers.to_unicode.
  induction s as [|c s IH]; [reflexivity|].
  cbn [flat_map]. rewrite flat_map_app, IH. f_equal.
  destruct (Z.eqb_spec c NL) as [->|Hc]; cbn [flat_map];
    rewrite ?app_nil_r; reflexivity.
Qed.

(** X6.  What the framing of lines 91-96 of [run] loses.  Without its
    final newline, and with every separator U+2028 turned back into a
    newline, the text sent for [m] is [m] with its own separators turned
    into newlines: this is [m] itself exactly when [m] holds no U+2028.  A
    value that holds a newline and the value that holds U+2028 in its place
    are sent as the same text. *)
Theorem framing_round_trip :
  (forall m : str,
      replace (removelast (multiline_of m)) 0x2028%Z [NL]
      = replace m 0x2028%Z [NL]) /\
  (forall m : str,
      ~ In 0x2028%Z m ->
      replace (removelast (multiline_of m)) 0x2028%Z [NL] = m) /\
  (forall a b : str,
      multiline_of (a ++ [NL] ++ b) = multiline_of (a ++ LINE_SEP ++ b)).
Proof.
  assert (H : forall m : str,
             replace (removelast (multiline_of m)) 0x2028%Z [NL]
             = replace m 0x2028%Z [NL]).
  { intros m. unfold multiline_of, le_helpers.is_unicode. cbn [negb].
    cbv zeta. rewrite removelast_snoc. apply replace_back. }
  split; [exact H|]. split.
  - intros m Hm. rewrite H. now apply replace_absent.
  - intros a b. unfold multiline_of, le_helpers.is_unicode. cbn [negb].
    cbv zeta. f_equal. rewrite !replace_app. reflexivity.
Qed.

Lemma framing_round_trip_witness :
  replace (removelast (multiline_of (lit "hello" ++ [NL] ++ lit "world")))
          0x2028%Z [NL]
  = lit "hello" ++ [NL] ++ lit "world".
Proof.
  apply (proj1 (proj2 framing_round_trip)).
  vm_compute. intuition discriminate.
Defined.

(* ------------------------------------------------------------------ *)
(** ** A handler whose thread has terminated *)

(** X7.  Once the thread has terminated, a handler with an accepted token
    accepts nothing any more: [_started] is false again, so [emit] prints
    its starting line and calls [start] a second time, which raises
    [RuntimeError] before anything is put on the queue.  The handler is
    unchanged but for the printed line, so this repeats for every later
    submission; a sequence of submissions stops at its first one. *)
Theorem emit_after_thread_exit_raises
        (record : Type) (format : record -> str) (h : LogentriesHandler)
        (r : record) (rs : list record) :
  life (_thread h) = Stopped -> good_config h = true ->
  emits format (r :: rs) h =
    (Raise RuntimeError,
     {| token := token h; good_config := good_config h;
        _thread := _thread h;
        hlog := hlog h ++ [starting_line] |}).
Proof.
  destruct h as [tok g [dm cn q l] lg]. simpl. intros -> ->.
  cbn [emits]. unfold bind at 1.
  unfold emit, _started, is_alive. simpl.
  unfold bind, hdbg, hlog_add, thread_start. reflexivity.
Qed.

Lemma emit_after_thread_exit_raises_witness :
  emits as_is [lit "lost"; lit "lost too"] stopped_handler =
    (Raise RuntimeError,
     {| token := token stopped_handler;
        good_config := good_config stopped_handler;
        _thread := _thread stopped_handler;
        hlog := hlog stopped_handler ++ [starting_line] |}).
Proof.
  apply (@emit_after_thread_exit_raises str as_is stopped_handler
           (lit "lost") [lit "lost too"]); reflexivity.
Defined.

(* ------------------------------------------------------------------ *)
(** ** Dictionaries *)

Lemma str_eqb_eq (a b : str) : str_eqb a b = true <-> a = b.
Proof.
  revert b. induction a as [|x a IH]; intros [|y b]; simpl;
    try (split; [discriminate|discriminate]); [tauto|].
  rewrite andb_true_iff, Z.eqb_eq, IH. split.
  - now intros [-> ->].
  - now intros [= -> ->].
Qed.

Lemma str_eqb_refl (a : str) : str_eqb a a = true.
Proof. now apply str_eqb_eq. Qed.

Lemma str_eqb_neq (a b : str) : str_eqb a b = false <-> a <> b.
Proof.
  rewrite <- str_eqb_eq. destruct (str_eqb a b); split; congruence.
Qed.

Lemma getitem_absent (d : dict) (key : str) :
  getitem d key = None <-> ~ In key (keys d).
Proof.
  induction d as [|[k v] d IH]; simpl; [tauto|].
  destruct (str_eqb k key) eqn:E.
  - apply str_eqb_eq in E. split; [discriminate|]. intros H. elim H. now left.
  - apply str_eqb_neq in E. rewrite IH. tauto.
Qed.

Lemma getitem_app (a b : dict) (key : str) :
  getitem (a ++ b) key =
    match getitem a key with Some v => Some v | None => getitem b key end.
Proof.
  induction a as [|[k v] a IH]; simpl; [reflexivity|].
  now destruct (str_eqb k key).
Qed.

Lemma getitem_setitem (d : dict) (k key : str) (v : value) :
  getitem (setitem d k v) key =
    if str_eqb k key then Some v else getitem d key.
Proof.
  induction d as [|[k0 x] d IH]; simpl; [reflexivity|].
  destruct (str_eqb k0 k) eqn:E; simpl.
  - apply str_eqb_eq in E. subst k0. now destruct (str_eqb k key).
  - rewrite IH.
    destruct (str_eqb k0 key) eqn:E3; destruct (str_eqb k key) eqn:E1;
      try reflexivity.
    apply str_eqb_eq in E3, E1. apply str_eqb_neq in E. congruence.
Qed.

Lemma setitem_new (d : dict) (k : str) (v : value) :
  getitem d k = None -> setitem d k v = d ++ [(k, v)].
Proof.
  induction d as [|[k0 x] d IH]; simpl; [reflexivity|].
  destruct (str_eqb k0 k); [discriminate|]. intros H. now rewrite IH.
Qed.

Lemma keys_setitem (d : dict) (k : str) (v : value) :
  keys (setitem d k v) =
    match getitem d k with Some _ => keys d | None => keys d ++ [k] end.
Proof.
  induction d as [|[k0 x] d IH]; simpl; [reflexivity|].
  destruct (str_eqb k0 k) eqn:E; simpl; [reflexivity|].
  rewrite IH. now destruct (getitem d k).
Qed.

Lemma NoDup_setitem (d : dict) (k : str) (v : value) :
  NoDup (keys d) -> NoDup (keys (setitem d k v)).
Proof.
  intros H. rewrite keys_setitem. destruct (getitem d k) eqn:E; [exact H|].
  apply getitem_absent in E. apply NoDup_app; [exact H| |].
  - constructor; [intros []|constructor].
  - intros x Hx [<-|[]]. contradiction.
Qed.

Lemma Forall_setitem (P : str * value -> Prop) (d : dict) (k : str)
      (v : value) :
  Forall P d -> (forall k', k' = k -> P (k', v)) -> Forall P (setitem d k v).
Proof.
  intros H Hv. induction H as [|[k0 x] d Hx Hd IH]; simpl.
  - constructor; [now apply Hv|constructor].
  - destruct (str_eqb k0 k) eqn:E.
    + apply str_eqb_eq in E. constructor; [now apply Hv|exact Hd].
    + now constructor.
Qed.

Lemma getitem_update (d other : dict) (key : str) :
  NoDup (keys other) ->
  getitem (update d other) key =
    match getitem other key with Some v => Some v | None => getitem d key end.
Proof.
  unfold update. revert d.
  induction other as [|[k v] other IH]; intros d Hn; simpl; [reflexivity|].
  inversion Hn as [|? ? Hk Hn']; subst.
  rewrite (IH _ Hn'), getitem_setitem.
  destruct (str_eqb k key) eqn:E; [|reflexivity].
  apply str_eqb_eq in E. subst key.
  apply getitem_absent in Hk. now rewrite Hk.
Qed.

(* ------------------------------------------------------------------ *)
(** ** The JSON formatter: the extra fields *)

Section ExtraFields.

Variable repr : value -> str.

Lemma extra_field_stored (fields : dict) (key : str) (v : value) :
  LogentriesFormatter.extra_field repr fields key v =
    if skipped key then fields else setitem fields key (stored repr v).
Proof.
  unfold LogentriesFormatter.extra_field, skipped, stored.
  destruct (existsb _ _); simpl; [reflexivity|].
  now destruct (LogentriesFormatter.easy_types v).
Qed.

Lemma easy_stored (v : value) :
  LogentriesFormatter.easy_types (stored repr v) = true.
Proof.
  unfold stored. now destruct (LogentriesFormatter.easy_types v) eqn:E.
Qed.

Lemma extra_fields_loop (items : dict) :
  forall fields : dict,
    NoDup (keys items) ->
    (forall k, In k (keys items) -> getitem fields k = None) ->
    fold_left (fun fields kv =>
                 LogentriesFormatter.extra_field repr fields (fst kv) (snd kv))
              items fields =
      fields ++ map (fun kv => (fst kv, stored repr (snd kv)))
                    (filter (fun kv => negb (skipped (fst kv))) items).
Proof.
  induction items as [|[k v] items IH]; intros fields Hn Hf; simpl.
  - now rewrite app_nil_r.
  - inversion Hn as [|? ? Hk Hn']; subst.
    rewrite extra_field_stored.
    destruct (skipped k) eqn:Hs; cbn [negb].
    + apply IH; [exact Hn'|]. intros k' Hk'. apply Hf. now right.
    + rewrite setitem_new by (apply Hf; now left).
      rewrite IH; [now rewrite <- app_assoc|exact Hn'|].
      intros k' Hk'. rewrite getitem_app, (Hf k') by now right.
      simpl. destruct (str_eqb k k') eqn:E; [|reflexivity].
      apply str_eqb_eq in E. subst k'. contradiction.
Qed.

Lemma extra_fields_invariant (items fields : dict) :
  Forall (fun kv => LogentriesFormatter.easy_types (snd kv) = true) fields ->
  Forall (fun kv => skipped (fst kv) = false) fields ->
  NoDup (keys fields) ->
  let out := fold_left (fun fields kv =>
                 LogentriesFormatter.extra_field repr fields (fst kv) (snd kv))
              items fields in
  Forall (fun kv => LogentriesFormatter.easy_types (snd kv) = true) out /\
  Forall (fun kv => skipped (fst kv) = false) out /\
  NoDup (keys out).
Proof.
  cbv zeta. revert fields.
  induction items as [|[k v] items IH]; intros fields He Hs Hn; simpl;
    [now auto|].
  rewrite extra_field_stored.
  destruct (skipped k) eqn:Hk; [now apply IH|].
  apply IH.
  - apply Forall_setitem; [exact He|]. intros k' _. apply easy_stored.
  - apply Forall_setitem; [exact Hs|]. now intros k' ->.
  - now apply NoDup_setitem.
Qed.

(** X8.  [get_extra_fields] returns the attributes of the record that are
    not in its skip list, in the order of [record.__dict__], each with its
    value when the value is of an easy type and with the [repr] of its
    value otherwise ([record.__dict__] is a dictionary: every key occurs
    once).  Whatever the record, every value in the result is of an easy
    type, no key of the result is in the skip list, and no key occurs
    twice. *)
Theorem extra_fields_are_the_other_attributes (record : LogRecord) :
  let fields := LogentriesFormatter.get_extra_fields repr record in
  (NoDup (keys (__dict__ record)) ->
   fields =
     map (fun kv => (fst kv, stored repr (snd kv)))
         (filter (fun kv => negb (skipped (fst kv))) (__dict__ record))) /\
  Forall (fun kv => LogentriesFormatter.easy_types (snd kv) = true) fields /\
  Forall (fun kv => ~ In (fst kv) LogentriesFormatter.skip_list) fields /\
  NoDup (keys fields).
Proof.
  cbv zeta. unfold LogentriesFormatter.get_extra_fields.
  split.
  - intros Hn. now rewrite extra_fields_loop.
  - destruct (@extra_fields_invariant (__dict__ record) []
                                       (Forall_nil _) (Forall_nil _)
                                       (NoDup_nil _))
      as (He & Hs & Hn).
    split; [exact He|]. split; [|exact Hn].
    revert Hs. apply Forall_impl. intros [k v]. cbn [fst].
    unfold skipped. intros Hk Hin.
    assert (H : existsb (str_eqb k) LogentriesFormatter.skip_list = true).
    { apply existsb_exists. exists k. split; [exact Hin|apply str_eqb_refl]. }
    rewrite H in Hk. discriminate Hk.
Qed.

Lemma getitem_extra_fields (record : LogRecord) (key : str) :
  NoDup (keys (__dict__ record)) ->
  getitem (LogentriesFormatter.get_extra_fields repr record) key =
    if skipped key then None
    else option_map (stored repr) (getitem (__dict__ record) key).
Proof.
  intros Hn.
  unfold LogentriesFormatter.get_extra_fields.
  rewrite extra_fields_loop by (auto; constructor). simpl. clear Hn.
  induction (__dict__ record) as [|[k v] d IH]; simpl.
  - now destruct (skipped key).
  - destruct (str_eqb k key) eqn:E.
    + apply str_eqb_eq in E. subst k.
      destruct (skipped key) eqn:Hs; simpl.
      * rewrite IH. reflexivity.
      * now rewrite str_eqb_refl.
    + destruct (skipped k) eqn:Hs; simpl; [exact IH|]. now rewrite E.
Qed.

Lemma NoDup_extra_fields (record : LogRecord) :
  NoDup (keys (LogentriesFormatter.get_extra_fields repr record)).
Proof.
  unfold LogentriesFormatter.get_extra_fields.
  exact (proj2 (proj2 (@extra_fields_invariant (__dict__ record) []
                          (Forall_nil _) (Forall_nil _) (NoDup_nil _)))).
Qed.

End ExtraFields.

Lemma distinct_spec (l : list str) : distinct l = true -> NoDup l.
Proof.
  induction l as [|k l IH]; simpl; intros H; constructor.
  - apply andb_prop in H as [H _]. intros Hin.
    assert (E : existsb (str_eqb k) l = true)
      by (apply existsb_exists; exists k; split;
          [exact Hin|apply str_eqb_refl]).
    now rewrite E in H.
  - apply IH. now apply andb_prop in H.
Qed.

(* ------------------------------------------------------------------ *)
(** ** The JSON formatter: the message *)

Lemma bind_attr (S B : Type) (record : LogRecord) (name : str)
      (k : value -> M S B) (s : S) :
  bind (attr record name) k s =
    match getitem (__dict__ record) name with
    | Some v => k v s
    | None => (Raise AttributeError, s)
    end.
Proof. unfold bind, attr. now destruct (getitem _ _). Qed.

Lemma bind_call (S A B : Type) (r : outcome A) (k : A -> M S B) (s : S) :
  bind (call r) k s =
    match r with
    | Return a => k a s
    | Raise e => (Raise e, s)
    | Blocked => (Blocked, s)
    | OutOfFuel => (OutOfFuel, s)
    end.
Proof. unfold bind, call. now destruct r. Qed.

Lemma bind_ret (S A B : Type) (a : A) (k : A -> M S B) (s : S) :
  bind (ret a) k s = k a s.
Proof. reflexivity. Qed.

Lemma bind_optional (S B : Type) (record : LogRecord) (name : str)
      (fields : dict) (k : dict -> M S B) (s : S) :
  bind (if negb (truthy (getattr record name VNone)) then
          v <- attr record name ;; ret (setitem fields name v)
        else ret fields) k s =
    match getitem (__dict__ record) name with
    | Some v => k (if truthy v then fields else setitem fields name v) s
    | None => (Raise AttributeError, s)
    end.
Proof.
  unfold getattr, bind, attr, ret.
  destruct (getitem (__dict__ record) name) as [v|]; simpl; [|reflexivity].
  now destruct (truthy v).
Qed.

Lemma NoDup_debug_fields (text : str) (ln pr tn fn pn : value) :
  NoDup (keys (debug_fields text ln pr tn fn pn)).
Proof.
  unfold debug_fields.
  destruct (truthy fn), (truthy pn); apply distinct_spec; reflexivity.
Qed.

Lemma debug_fields_skipped (text : str) (ln pr tn fn pn : value) (key : str) :
  skipped key = false ->
  getitem (debug_fields text ln pr tn fn pn) key = None.
Proof.
  intros Hs. apply getitem_absent. intros Hin.
  assert (Hk : In key [lit "exc_info"; lit "lineno"; lit "process";
                       lit "threadName"; lit "funcName"; lit "processName"]).
  { unfold debug_fields in Hin.
    destruct (truthy fn), (truthy pn); simpl in Hin; simpl; tauto. }
  assert (skipped key = true); [|congruence].
  repeat (destruct Hk as [<-|Hk]; [reflexivity|]). destruct Hk.
Qed.

Section Message.

Variable repr : value -> str.

Variable formatException : value -> outcome str.

Lemma get_debug_fields_inv (record : LogRecord)
      (self self' : LogentriesFormatter.instance) (fields : dict) :
  LogentriesFormatter.get_debug_fields formatException record self
    = (Return fields, self') ->
  self' = self /\
  exists ei text ln pr tn fn pn,
    getitem (__dict__ record) (lit "exc_info") = Some ei /\
    formatException ei = Return text /\
    getitem (__dict__ record) (lit "lineno") = Some ln /\
    getitem (__dict__ record) (lit "process") = Some pr /\
    getitem (__dict__ record) (lit "threadName") = Some tn /\
    getitem (__dict__ record) (lit "funcName") = Some fn /\
    getitem (__dict__ record) (lit "processName") = Some pn /\
    fields = debug_fields text ln pr tn fn pn.
Proof.
  unfold LogentriesFormatter.get_debug_fields.
  rewrite bind_attr.
  destruct (getitem _ (lit "exc_info")) as [ei|] eqn:E1; [|discriminate].
  rewrite bind_call.
  destruct (formatException ei) as [text|e| |] eqn:E2; try discriminate.
  rewrite bind_attr.
  destruct (getitem _ (lit "lineno")) as [ln|] eqn:E3; [|discriminate].
  rewrite bind_attr.
  destruct (getitem _ (lit "process")) as [pr|] eqn:E4; [|discriminate].
  rewrite bind_attr.
  destruct (getitem _ (lit "threadName")) as [tn|] eqn:E5; [|discriminate].
  rewrite bind_optional.
  destruct (getitem _ (lit "funcName")) as [fn|] eqn:E6; [|discriminate].
  rewrite bind_optional.
  destruct (getitem _ (lit "processName")) as [pn|] eqn:E7; [|discriminate].
  intros H.
  assert (H' : (Return (debug_fields text ln pr tn fn pn), self)
               = (Return fields, self')).
  { rewrite <- H. unfold debug_fields, ret.
    destruct (truthy fn), (truthy pn); reflexivity. }
  injection H' as <- <-. split; [reflexivity|].
  exists ei, text, ln, pr, tn, fn, pn. auto 10.
Qed.

Lemma get_debug_fields_returns (record : LogRecord)
      (self : LogentriesFormatter.instance) (ei ln pr tn fn pn : value)
      (text : str) :
  getitem (__dict__ record) (lit "exc_info") = Some ei ->
  formatException ei = Return text ->
  getitem (__dict__ record) (lit "lineno") = Some ln ->
  getitem (__dict__ record) (lit "process") = Some pr ->
  getitem (__dict__ record) (lit "threadName") = Some tn ->
  getitem (__dict__ record) (lit "funcName") = Some fn ->
  getitem (__dict__ record) (lit "processName") = Some pn ->
  LogentriesFormatter.get_debug_fields formatException record self
    = (Return (debug_fields text ln pr tn fn pn), self).
Proof.
  intros E1 E2 E3 E4 E5 E6 E7.
  unfold LogentriesFormatter.get_debug_fields.
  rewrite bind_attr, E1, bind_call, E2, bind_attr, E3, bind_attr, E4,
    bind_attr, E5.
  rewrite bind_optional, E6, bind_optional, E7.
  unfold debug_fields, ret.
  destruct (truthy fn), (truthy pn); reflexivity.
Qed.

Lemma message_of_inv (record : LogRecord)
      (self self' : LogentriesFormatter.instance) (message : dict) :
  LogentriesFormatter.message_of repr formatException record self
    = (Return message, self') ->
  self' = self /\
  exists msg pathname levelname name ei,
    getMessage record = Return msg /\
    getitem (__dict__ record) (lit "pathname") = Some pathname /\
    getitem (__dict__ record) (lit "levelname") = Some levelname /\
    getitem (__dict__ record) (lit "name") = Some name /\
    getitem (__dict__ record) (lit "exc_info") = Some ei /\
    ((truthy ei = false /\
      message = base_message repr self record msg pathname levelname name) \/
     (truthy ei = true /\
      exists fields,
        LogentriesFormatter.get_debug_fields formatException record self
          = (Return fields, self) /\
        message =
          update (base_message repr self record msg pathname levelname name)
                 fields)).
Proof.
  unfold LogentriesFormatter.message_of.
  rewrite bind_call.
  destruct (getMessage record) as [msg|e| |] eqn:E0; try discriminate.
  rewrite bind_attr.
  destruct (getitem _ (lit "pathname")) as [pathname|] eqn:E1; [|discriminate].
  rewrite bind_attr.
  destruct (getitem _ (lit "levelname")) as [levelname|] eqn:E2;
    [|discriminate].
  rewrite bind_attr.
  destruct (getitem _ (lit "name")) as [name|] eqn:E3; [|discriminate].
  cbv zeta. rewrite bind_attr.
  destruct (getitem _ (lit "exc_info")) as [ei|] eqn:E4; [|discriminate].
  fold (base_message repr self record msg pathname levelname name).
  destruct (truthy ei) eqn:Et.
  - unfold bind at 1.
    destruct (LogentriesFormatter.get_debug_fields _ _ _) as [rf s1] eqn:Ed.
    destruct rf as [fields|e| |]; try discriminate.
    destruct (get_debug_fields_inv _ _ Ed) as (-> & _).
    intros [= <- <-]. split; [reflexivity|].
    exists msg, pathname, levelname, name, ei. repeat (split; [reflexivity|]).
    right. split; [exact Et|]. now exists fields.
  - intros [= <- <-]. split; [reflexivity|].
    exists msg, pathname, levelname, name, ei. repeat (split; [reflexivity|]).
    left. split; [exact Et|reflexivity].
Qed.

End Message.

Lemma has_attribute (record : LogRecord) (names : list str) (name : str) :
  has_attributes record names -> In name names ->
  exists v, getitem (__dict__ record) name = Some v.
Proof.
  unfold has_attributes. rewrite Forall_forall. intros H Hin.
  specialize (H _ Hin). destruct (getitem _ _) as [v|]; [now exists v|].
  now elim H.
Qed.

Ltac present := repeat first [left; reflexivity | right].

Section MessageFacts.

Variable repr : value -> str.

Variable formatException : value -> outcome str.

Lemma extra_fields_skipped (record : LogRecord) (key : str) :
  skipped key = true ->
  getitem (LogentriesFormatter.get_extra_fields repr record) key = None.
Proof.
  intros Hs. apply getitem_absent. intros Hin.
  unfold keys in Hin. apply in_map_iff in Hin as ([k v] & <- & Hin).
  unfold LogentriesFormatter.get_extra_fields in Hin.
  destruct (@extra_fields_invariant repr (__dict__ record) []
              (Forall_nil _) (Forall_nil _) (NoDup_nil _)) as (_ & H & _).
  rewrite Forall_forall in H. specialize (H _ Hin). simpl in *. congruence.
Qed.

Lemma getitem_base_message (record : LogRecord)
      (self : LogentriesFormatter.instance) (msg : str)
      (pathname levelname name : value) (key : str) :
  NoDup (keys (__dict__ record)) ->
  skipped key = false ->
  getitem (base_message repr self record msg pathname levelname name) key =
    match getitem (__dict__ record) key with
    | Some v => Some (stored repr v)
    | None =>
        getitem [(lit "host", VStr (LogentriesFormatter.host self));
                 (lit "path", pathname); (lit "logger", name)] key
    end.
Proof.
  intros Hn Hs. unfold base_message.
  rewrite getitem_update by apply NoDup_extra_fields.
  rewrite getitem_extra_fields, Hs by exact Hn.
  destruct (getitem (__dict__ record) key); [reflexivity|].
  cbn [option_map getitem].
  destruct (str_eqb (lit "message") key) eqn:E1.
  { apply str_eqb_eq in E1. subst key. discriminate Hs. }
  destruct (str_eqb (lit "host") key); [reflexivity|].
  destruct (str_eqb (lit "path") key); [reflexivity|].
  destruct (str_eqb (lit "levelname") key) eqn:E2; [|reflexivity].
  apply str_eqb_eq in E2. subst key. discriminate Hs.
Qed.

Lemma getitem_base_message_skipped (record : LogRecord)
      (self : LogentriesFormatter.instance) (msg : str)
      (pathname levelname name : value) (key : str) :
  skipped key = true ->
  getitem (base_message repr self record msg pathname levelname name) key =
    getitem [(lit "message", VStr msg); (lit "levelname", levelname)] key.
Proof.
  intros Hs. unfold base_message.
  rewrite getitem_update by apply NoDup_extra_fields.
  rewrite extra_fields_skipped by exact Hs.
  cbn [getitem].
  destruct (str_eqb (lit "message") key); [reflexivity|].
  destruct (str_eqb (lit "host") key) eqn:E1.
  { apply str_eqb_eq in E1. subst key. discriminate Hs. }
  destruct (str_eqb (lit "path") key) eqn:E2.
  { apply str_eqb_eq in E2. subst key. discriminate Hs. }
  destruct (str_eqb (lit "levelname") key); [reflexivity|].
  destruct (str_eqb (lit "logger") key) eqn:E3; [|reflexivity].
  apply str_eqb_eq in E3. subst key. discriminate Hs.
Qed.

Lemma debug_fields_base (text : str) (ln pr tn fn pn : value) :
  getitem (debug_fields text ln pr tn fn pn) (lit "message") = None /\
  getitem (debug_fields text ln pr tn fn pn) (lit "levelname") = None.
Proof.
  unfold debug_fields. destruct (truthy fn), (truthy pn); now split.
Qed.

(** The value of [key] in the message of a record for which [format] got as
    far as [json.dumps]. *)
Lemma getitem_message (record : LogRecord)
      (self self' : LogentriesFormatter.instance) (message : dict) :
  LogentriesFormatter.message_of repr formatException record self
    = (Return message, self') ->
  exists msg pathname levelname name,
    getMessage record = Return msg /\
    getitem (__dict__ record) (lit "pathname") = Some pathname /\
    getitem (__dict__ record) (lit "levelname") = Some levelname /\
    getitem (__dict__ record) (lit "name") = Some name /\
    (forall key,
        skipped key = false ->
        getitem message key =
          getitem (base_message repr self record msg pathname levelname name)
                  key) /\
    getitem message (lit "message") = Some (VStr msg) /\
    getitem message (lit "levelname") = Some levelname.
Proof.
  intros H. apply message_of_inv in H
    as (-> & msg & pathname & levelname & name & ei & E0 & E1 & E2 & E3 & E4
        & H).
  exists msg, pathname, levelname, name.
  repeat (split; [assumption|]).
  destruct H as [(Ht & ->)|(Ht & fields & Hd & ->)].
  - split; [reflexivity|].
    split; now rewrite getitem_base_message_skipped.
  - apply get_debug_fields_inv in Hd
      as (_ & ei' & text & ln & pr & tn & fn & pn & _ & _ & _ & _ & _ & _ & _
          & ->).
    split; [|split].
    + intros key Hs. rewrite getitem_update by apply NoDup_debug_fields.
      now rewrite debug_fields_skipped.
    + rewrite getitem_update by apply NoDup_debug_fields.
      rewrite (proj1 (debug_fields_base _ _ _ _ _ _)).
      now rewrite getitem_base_message_skipped.
    + rewrite getitem_update by apply NoDup_debug_fields.
      rewrite (proj2 (debug_fields_base _ _ _ _ _ _)).
      now rewrite getitem_base_message_skipped.
Qed.

(** X9.  The five fixed fields of the message that [format] serialises.
    [message] is what [record.getMessage()] returned and [levelname] is the
    record's attribute: no attribute of the record can replace them, since
    both names are in the skip list.  [host], [path] and [logger] are not:
    each is the formatter's host name, the record's [pathname] and the
    record's [name] only when the record has no attribute of that very
    name; an attribute [host], [path] or [logger] of the record (one given
    through [extra], say) takes its place. *)
Theorem message_base_fields (record : LogRecord)
        (self : LogentriesFormatter.instance) (message : dict) :
  NoDup (keys (__dict__ record)) ->
  fst (LogentriesFormatter.message_of repr formatException record self)
    = Return message ->
  (exists msg,
      getMessage record = Return msg /\
      getitem message (lit "message") = Some (VStr msg)) /\
  getitem message (lit "levelname")
    = getitem (__dict__ record) (lit "levelname") /\
  getitem message (lit "host")
    = Some match getitem (__dict__ record) (lit "host") with
           | Some v => stored repr v
           | None => VStr (LogentriesFormatter.host self)
           end /\
  getitem message (lit "path")
    = match getitem (__dict__ record) (lit "path") with
      | Some v => Some (stored repr v)
      | None => getitem (__dict__ record) (lit "pathname")
      end /\
  getitem message (lit "logger")
    = match getitem (__dict__ record) (lit "logger") with
      | Some v => Some (stored repr v)
      | None => getitem (__dict__ record) (lit "name")
      end.
Proof.
  intros Hn.
  destruct (LogentriesFormatter.message_of _ _ _ _) as [r self'] eqn:H.
  cbn [fst]. intros ->.
  apply getitem_message in H
    as (msg & pathname & levelname & name & E0 & E1 & E2 & E3 & Hk & Hm & Hl).
  split; [now exists msg|]. split; [congruence|].
  rewrite !Hk by reflexivity.
  rewrite !getitem_base_message by (assumption || reflexivity).
  rewrite E1, E3.
  split; [|split].
  - now destruct (getitem (__dict__ record) (lit "host")).
  - now destruct (getitem (__dict__ record) (lit "path")).
  - now destruct (getitem (__dict__ record) (lit "logger")).
Qed.

(** X10.  Every attribute of the record whose name is not in the skip list
    is in the message, under its name, with its value when the value is of
    an easy type and with the [repr] of its value otherwise; the fields of
    an exception never replace it.  A name that is not in the skip list and
    that the record does not have is not in the message, unless it is one
    of [host], [path] and [logger]. *)
Theorem record_attributes_in_message (record : LogRecord)
        (self : LogentriesFormatter.instance) (message : dict) (key : str) :
  NoDup (keys (__dict__ record)) ->
  fst (LogentriesFormatter.message_of repr formatException record self)
    = Return message ->
  ~ In key LogentriesFormatter.skip_list ->
  (forall v,
      getitem (__dict__ record) key = Some v ->
      getitem message key = Some (stored repr v)) /\
  (getitem (__dict__ record) key = None ->
   ~ In key [lit "host"; lit "path"; lit "logger"] ->
   getitem message key = None).
Proof.
  intros Hn.
  destruct (LogentriesFormatter.message_of _ _ _ _) as [r self'] eqn:H.
  cbn [fst]. intros -> Hs.
  assert (Hs' : skipped key = false).
  { unfold skipped. destruct (existsb _ _) eqn:E; [|reflexivity].
    apply existsb_exists in E as (k & Hin & Hk).
    apply str_eqb_eq in Hk. subst k. contradiction. }
  apply getitem_message in H
    as (msg & pathname & levelname & name & _ & _ & _ & _ & Hk & _ & _).
  rewrite (Hk _ Hs'), getitem_base_message by assumption.
  split.
  - now intros v ->.
  - intros -> Hb. cbn [getitem].
    destruct (str_eqb (lit "host") key) eqn:E1;
      [apply str_eqb_eq in E1; elim Hb; now left|].
    destruct (str_eqb (lit "path") key) eqn:E2;
      [apply str_eqb_eq in E2; elim Hb; right; now left|].
    destruct (str_eqb (lit "logger") key) eqn:E3; [|reflexivity].
    apply str_eqb_eq in E3. elim Hb. right. right. now left.
Qed.

(** X11.  [get_debug_fields] reports the function name and the process
    name only when they say nothing.  When it returns, the record has both
    attributes; [funcName] is among the fields exactly when the record's
    [funcName] is false as a truth value (empty, [None]), and then with
    that value; a function name that is a non-empty string is never
    reported.  The same holds of [processName].  (The test reads
    [if not getattr(record, 'funcName', None)].) *)
Theorem debug_fields_names_only_when_falsy (record : LogRecord)
        (self : LogentriesFormatter.instance) (fields : dict) :
  fst (LogentriesFormatter.get_debug_fields formatException record self)
    = Return fields ->
  exists funcName processName,
    getitem (__dict__ record) (lit "funcName") = Some funcName /\
    getitem (__dict__ record) (lit "processName") = Some processName /\
    getitem fields (lit "funcName")
      = (if truthy funcName then None else Some funcName) /\
    getitem fields (lit "processName")
      = (if truthy processName then None else Some processName).
Proof.
  destruct (LogentriesFormatter.get_debug_fields _ _ _) as [r self'] eqn:H.
  cbn [fst]. intros ->.
  apply get_debug_fields_inv in H
    as (_ & ei & text & ln & pr & tn & fn & pn & _ & _ & _ & _ & _ & E6 & E7
        & ->).
  exists fn, pn. split; [exact E6|]. split; [exact E7|].
  unfold debug_fields. destruct (truthy fn), (truthy pn); now split.
Qed.

Lemma extra_fields_plain (repr' : value -> str) (record : LogRecord) :
  plain record = true ->
  LogentriesFormatter.get_extra_fields repr' record =
  LogentriesFormatter.get_extra_fields repr record.
Proof.
  unfold plain, LogentriesFormatter.get_extra_fields.
  generalize (@nil (str * value)).
  induction (__dict__ record) as [|[k v] items IH]; intros fields H;
    [reflexivity|].
  cbn [forallb fst snd] in H. apply andb_prop in H as [Hk Hi].
  cbn [fold_left fst snd].
  assert (E : LogentriesFormatter.extra_field repr' fields k v
              = LogentriesFormatter.extra_field repr fields k v).
  { unfold LogentriesFormatter.extra_field. unfold skipped in Hk.
    destruct (existsb (str_eqb k) LogentriesFormatter.skip_list);
      [reflexivity|].
    cbn [orb] in Hk. now rewrite Hk. }
  rewrite E. now apply IH.
Qed.

(** X12.  What [format] needs in order to reach [json.dumps].  If it
    builds its message, then [record.getMessage()] returned, the record has
    the attributes [pathname], [levelname], [name] and [exc_info], and, if
    [exc_info] is true as a truth value, [formatException] returned and the
    record has the attributes [lineno], [process], [threadName], [funcName]
    and [processName] as well: with a record that lacks one of them [format]
    does not get as far as [json.dumps]; this includes a record that lacks
    [funcName] or [processName], for which the default given to [getattr]
    is of no use, since the attribute is read again when the default was
    returned.  For a record whose attributes outside the skip list all have
    values of the easy types, so that [get_extra_fields] does not call
    [repr], these conditions are sufficient as well, and what [format]
    does is the same whatever [repr] is. *)
Theorem message_of_returns_when (record : LogRecord)
        (self : LogentriesFormatter.instance) :
  ((exists message,
       fst (LogentriesFormatter.message_of repr formatException record self)
         = Return message) ->
   (exists msg, getMessage record = Return msg) /\
   has_attributes record
     [lit "pathname"; lit "levelname"; lit "name"; lit "exc_info"] /\
   (forall ei,
       getitem (__dict__ record) (lit "exc_info") = Some ei ->
       truthy ei = true ->
       (exists text, formatException ei = Return text) /\
       has_attributes record
         [lit "lineno"; lit "process"; lit "threadName"; lit "funcName";
          lit "processName"])) /\
  (plain record = true ->
   (exists msg, getMessage record = Return msg) ->
   has_attributes record
     [lit "pathname"; lit "levelname"; lit "name"; lit "exc_info"] ->
   (forall ei,
       getitem (__dict__ record) (lit "exc_info") = Some ei ->
       truthy ei = true ->
       (exists text, formatException ei = Return text) /\
       has_attributes record
         [lit "lineno"; lit "process"; lit "threadName"; lit "funcName";
          lit "processName"]) ->
   exists message,
     fst (LogentriesFormatter.message_of repr formatException record self)
       = Return message) /\
  (plain record = true ->
   forall repr' : value -> str,
     LogentriesFormatter.message_of repr' formatException record self
     = LogentriesFormatter.message_of repr formatException record self).
Proof.
  split; [|split].
  - intros (message & H).
    destruct (LogentriesFormatter.message_of _ _ _ _) as [r self'] eqn:E.
    cbn [fst] in H. subst r.
    apply message_of_inv in E
      as (_ & msg & pathname & levelname & name & ei & E0 & E1 & E2 & E3 & E4
          & H).
    split; [now exists msg|]. split.
    + unfold has_attributes. repeat constructor; congruence.
    + intros ei' He Ht. rewrite E4 in He. injection He as <-.
      destruct H as [(Hf & _)|(_ & fields & Hd & _)]; [congruence|].
      apply get_debug_fields_inv in Hd
        as (_ & ei' & text & ln & pr & tn & fn & pn & F1 & F2 & F3 & F4 & F5
            & F6 & F7 & _).
      rewrite E4 in F1. injection F1 as <-.
      split; [now exists text|].
      unfold has_attributes. repeat constructor; congruence.
  - intros _ (msg & E0) Ha Hd.
    destruct (@has_attribute record _ (lit "pathname") Ha) as (pathname & E1);
      [present|].
    destruct (@has_attribute record _ (lit "levelname") Ha) as (levelname & E2);
      [present|].
    destruct (@has_attribute record _ (lit "name") Ha) as (name & E3); [present|].
    destruct (@has_attribute record _ (lit "exc_info") Ha) as (ei & E4); [present|].
    unfold LogentriesFormatter.message_of.
    rewrite bind_call, E0, bind_attr, E1, bind_attr, E2, bind_attr, E3.
    cbv zeta. rewrite bind_attr, E4.
    destruct (truthy ei) eqn:Et; [|eexists; reflexivity].
    destruct (Hd ei E4 Et) as ((text & Ht) & Hb).
    destruct (@has_attribute record _ (lit "lineno") Hb) as (ln & F1); [present|].
    destruct (@has_attribute record _ (lit "process") Hb) as (pr & F2); [present|].
    destruct (@has_attribute record _ (lit "threadName") Hb) as (tn & F3); [present|].
    destruct (@has_attribute record _ (lit "funcName") Hb) as (fn & F4); [present|].
    destruct (@has_attribute record _ (lit "processName") Hb) as (pn & F5); [present|].
    unfold bind at 1.
    rewrite (@get_debug_fields_returns formatException record self
               ei ln pr tn fn pn text E4 Ht F1 F2 F3 F4 F5).
    eexists. reflexivity.
  - intros Hp repr'. unfold LogentriesFormatter.message_of.
    now rewrite (@extra_fields_plain repr' record Hp).
Qed.

(** [format] serialises the message: it ends as [json.dumps] does on it,
    and as the construction of the message does when that fails. *)
Lemma format_dumps_message (json_dumps : dict -> outcome str)
      (record : LogRecord) (self : LogentriesFormatter.instance) :
  fst (LogentriesFormatter.format repr formatException json_dumps record self)
  = match fst (LogentriesFormatter.message_of repr formatException record
                                              self) with
    | Return message => json_dumps message
    | Raise e => Raise e
    | Blocked => Blocked
    | OutOfFuel => OutOfFuel
    end.
Proof.
  unfold LogentriesFormatter.format, bind, call.
  now destruct (LogentriesFormatter.message_of _ _ _ _) as [[m|e| |] s].
Qed.

(** X13.  The fields of an exception are in the message only for a record
    with exception information.  When [record.exc_info] is false as a
    truth value, none of [exc_info], [lineno], [process], [threadName],
    [funcName] and [processName] is a key of the message, whatever the
    attributes of the record.  When it is true, [exc_info] is the text that
    [formatException] returned for it (never the value of the attribute),
    and [lineno], [process] and [threadName] are the record's
    attributes. *)
Theorem exception_fields_only_with_exc_info (record : LogRecord)
        (self : LogentriesFormatter.instance) (message : dict) (ei : value) :
  fst (LogentriesFormatter.message_of repr formatException record self)
    = Return message ->
  getitem (__dict__ record) (lit "exc_info") = Some ei ->
  (truthy ei = false ->
   Forall (fun key => getitem message key = None)
          [lit "exc_info"; lit "lineno"; lit "process"; lit "threadName";
           lit "funcName"; lit "processName"]) /\
  (truthy ei = true ->
   (exists text,
       formatException ei = Return text /\
       getitem message (lit "exc_info") = Some (VStr text)) /\
   getitem message (lit "lineno") = getitem (__dict__ record) (lit "lineno") /\
   getitem message (lit "process")
     = getitem (__dict__ record) (lit "process") /\
   getitem message (lit "threadName")
     = getitem (__dict__ record) (lit "threadName")).
Proof.
  destruct (LogentriesFormatter.message_of _ _ _ _) as [r self'] eqn:H.
  cbn [fst]. intros -> He.
  apply message_of_inv in H
    as (_ & msg & pathname & levelname & name & ei' & E0 & E1 & E2 & E3 & E4
        & H).
  rewrite E4 in He. injection He as ->.
  destruct H as [(Hf & ->)|(Ht & fields & Hd & ->)].
  - split; [intros _|congruence].
    repeat constructor; now rewrite getitem_base_message_skipped.
  - split; [congruence|intros _].
    apply get_debug_fields_inv in Hd
      as (_ & ei' & text & ln & pr & tn & fn & pn & F1 & F2 & F3 & F4 & F5
          & _ & _ & ->).
    rewrite E4 in F1. injection F1 as <-.
    rewrite !getitem_update by apply NoDup_debug_fields.
    rewrite F3, F4, F5. split; [now exists text|].
    unfold debug_fields. now repeat split.
Qed.

End MessageFacts.

Lemma not_skipped (key : str) :
  skipped key = false -> ~ In key LogentriesFormatter.skip_list.
Proof.
  unfold skipped. intros H Hin.
  assert (E : existsb (str_eqb key) LogentriesFormatter.skip_list = true)
    by (apply existsb_exists; exists key; split;
        [exact Hin|apply str_eqb_refl]).
  now rewrite E in H.
Qed.

Lemma extra_fields_are_the_other_attributes_witness :
  LogentriesFormatter.get_extra_fields sample_repr sample_record =
    [(lit "stack_info", VNone);
     (lit "user", VStr (lit "<object>"));
     (lit "host", VStr (lit "web-1"))].
Proof.
  apply (proj1 (extra_fields_are_the_other_attributes
                  sample_repr sample_record)).
  apply distinct_spec. reflexivity.
Defined.

Lemma message_base_fields_witness :
  (exists msg,
      getMessage sample_record = Return msg /\
      getitem sample_message (lit "message") = Some (VStr msg)) /\
  getitem sample_message (lit "levelname") = Some (VStr (lit "INFO")) /\
  getitem sample_message (lit "host") = Some (VStr (lit "web-1")) /\
  getitem sample_message (lit "path") = Some (VStr (lit "/srv/app.py")) /\
  getitem sample_message (lit "logger") = Some (VStr (lit "app")).
Proof.
  apply (@message_base_fields sample_repr sample_formatException
           sample_record sample_formatter sample_message).
  - apply distinct_spec. reflexivity.
  - reflexivity.
Defined.

Lemma record_attributes_in_message_witness :
  (forall v,
      getitem (__dict__ sample_record) (lit "user") = Some v ->
      getitem sample_message (lit "user") = Some (stored sample_repr v)) /\
  (getitem (__dict__ sample_record) (lit "user") = None ->
   ~ In (lit "user") [lit "host"; lit "path"; lit "logger"] ->
   getitem sample_message (lit "user") = None).
Proof.
  apply (@record_attributes_in_message sample_repr sample_formatException
           sample_record sample_formatter sample_message (lit "user")).
  - apply distinct_spec. reflexivity.
  - reflexivity.
  - apply not_skipped. reflexivity.
Defined.

Lemma debug_fields_names_only_when_falsy_witness :
  exists funcName processName,
    getitem (__dict__ failed_record) (lit "funcName") = Some funcName /\
    getitem (__dict__ failed_record) (lit "processName") = Some processName /\
    getitem failed_fields (lit "funcName")
      = (if truthy funcName then None else Some funcName) /\
    getitem failed_fields (lit "processName")
      = (if truthy processName then None else Some processName).
Proof.
  apply (@debug_fields_names_only_when_falsy sample_formatException
           failed_record sample_formatter failed_fields).
  reflexivity.
Defined.

Lemma exception_fields_only_with_exc_info_witness :
  (Forall (fun key => getitem sample_message key = None)
          [lit "exc_info"; lit "lineno"; lit "process"; lit "threadName";
           lit "funcName"; lit "processName"]) /\
  ((exists text,
       sample_formatException sample_exc_info = Return text /\
       getitem failed_message (lit "exc_info") = Some (VStr text)) /\
   getitem failed_message (lit "lineno") = Some (VInt 12) /\
   getitem failed_message (lit "process") = Some (VInt 4242) /\
   getitem failed_message (lit "threadName")
     = Some (VStr (lit "MainThread"))).
Proof.
  split.
  - apply (proj1 (@exception_fields_only_with_exc_info
                    sample_repr sample_formatException sample_record
                    sample_formatter sample_message VNone
                    eq_refl eq_refl)).
    reflexivity.
  - apply (proj2 (@exception_fields_only_with_exc_info
                    sample_repr sample_formatException failed_record
                    sample_formatter failed_message sample_exc_info
                    eq_refl eq_refl)).
    reflexivity.
Defined.

Lemma message_of_returns_when_witness :
  plain plain_record = true /\
  exists message,
    fst (LogentriesFormatter.message_of sample_repr sample_formatException
           plain_record sample_formatter) = Return message.
Proof.
  split; [reflexivity|].
  apply (proj1 (proj2 (@message_of_returns_when
                          sample_repr sample_formatException
                          plain_record sample_formatter))).
  - reflexivity.
  - eexists. reflexivity.
  - unfold has_attributes. repeat constructor; vm_compute; discriminate.
  - intros ei He Ht. vm_compute in He. injection He as <-. discriminate Ht.
Defined.
